(** * Gutenberg: data registry, global-styles variables, template
      auto-drafts, navigation menus

    A shallow embedding of four pieces of the repository:

    - [Styles]: [getValueFromVariable] with its two helpers and
      [getPresetVariable] (the global-styles utilities of the site
      editor);
    - [Templates]: [_gutenberg_create_auto_draft_for_template], the
      synchronisation of the theme's template files that calls it and
      the routine run on a change of version (the PHP routines seeding
      template auto-drafts);
    - [Registry], [Plugins] and [ListenerBus]: the closure state of
      [createRegistry] in [@wordpress/data]: the store map, the atoms and
      the delegation to a parent; the registry object replaced by [use];
      the listener array and the promise-returning selectors;
    - [Navigation]: [isEmpty] of the navigation component.

    JavaScript completions are explicit: a call either returns a value or
    throws.  Plain objects used as maps keep their own properties in a
    [gmap] and answer the names inherited from [Object.prototype] as well,
    as a property read in the source does. *)

From stdpp Require Import gmap strings list.
From Stdlib Require Import ZArith Lia Ascii.

Set Warnings "-register-all,-clear-no-such-hyp".

Local Open Scope string_scope.
Local Open Scope list_scope.

(** ** JavaScript basics shared by the modules *)

Module JS.

Inductive error : Type :=
| TypeError (message : string)
| Error (message : string).

(** The outcome of evaluating a call. *)
Inductive completion (A : Type) : Type :=
| Return (a : A)
| Throw (e : error).
Arguments Return {A} a.
Arguments Throw {A} e.

Definition bind {A B} (c : completion A) (k : A -> completion B)
  : completion B :=
  match c with
  | Return a => k a
  | Throw e => Throw e
  end.

(** Property names every plain object inherits from [Object.prototype]. *)
Definition object_prototype_names : list string :=
  [ "constructor"; "__defineGetter__"; "__defineSetter__";
    "hasOwnProperty"; "__lookupGetter__"; "__lookupSetter__";
    "isPrototypeOf"; "propertyIsEnumerable"; "toString"; "valueOf";
    "__proto__"; "toLocaleString" ].

(** What the read [object[name]] of a plain object finds. *)
Inductive member (A : Type) : Type :=
| Own (a : A)
| Inherited (name : string)
| Missing.
Arguments Own {A} a.
Arguments Inherited {A} name.
Arguments Missing {A}.

Definition read {A} (object : gmap string A) (name : string) : member A :=
  match object !! name with
  | Some a => Own a
  | None =>
      if bool_decide (name ∈ object_prototype_names)
      then Inherited name
      else Missing
  end.

(** [String.prototype.startsWith], [endsWith], [slice] and [split]. *)
Definition startsWith (s search : string) : bool := String.prefix search s.

Definition endsWith (s search : string) : bool :=
  let n := String.length s in
  let m := String.length search in
  (m <=? n)%nat && String.eqb (String.substring (n - m) m s) search.

Definition slice (s : string) (start : Z) (stop : option Z) : string :=
  let len := Z.of_nat (String.length s) in
  let clamp (i : Z) := if (i <? 0)%Z then Z.max (len + i) 0 else Z.min i len in
  let from := clamp start in
  let to := match stop with Some e => clamp e | None => len end in
  String.substring (Z.to_nat from) (Z.to_nat (Z.max (to - from) 0)) s.

(** [s.split(separator)] for a non-empty separator: [skip] characters of
    a separator just matched are still to be passed over, [piece] is the
    substring collected since the last separator. *)
Fixpoint split_from (separator : string) (skip : nat) (piece s : string)
  : list string :=
  match s with
  | EmptyString => [piece]
  | String c rest =>
      match skip with
      | S k => split_from separator k piece rest
      | O =>
          if String.prefix separator s
          then piece ::
               split_from separator (String.length separator - 1) EmptyString rest
          else split_from separator 0 (piece +:+ String c EmptyString) rest
      end
  end.

Definition split (s separator : string) : list string :=
  split_from separator 0 EmptyString s.

Lemma read_own {A} (object : gmap string A) name a :
  object !! name = Some a -> read object name = Own a.
Proof. unfold read. by intros ->. Qed.

Lemma read_missing {A} (object : gmap string A) name :
  read object name = Missing ->
  object !! name = None ∧ name ∉ object_prototype_names.
Proof.
  unfold read. destruct (object !! name); [done |].
  case_bool_decide; [done |]. by intros _.
Qed.

Lemma read_missing_iff {A} (object : gmap string A) name :
  read object name = Missing <->
  object !! name = None ∧ name ∉ object_prototype_names.
Proof.
  split; [apply read_missing |]. intros [Hnone Hnot].
  unfold read. rewrite Hnone. by rewrite bool_decide_eq_false_2.
Qed.

(** Facts on [String.append], [String.length] and [String.substring]. *)
Lemma substring_all (s : string) : String.substring 0 (String.length s) s = s.
Proof. induction s as [| c s IH]; [done |]. cbn. f_equal. exact IH. Qed.

Lemma append_cons (x : Ascii.ascii) (a b : string) :
  String x a +:+ b = String x (a +:+ b).
Proof. reflexivity. Qed.

Lemma substring_prefix (a b : string) :
  String.substring 0 (String.length a) (a +:+ b) = a.
Proof.
  induction a as [| x a IH].
  - by destruct b.
  - rewrite append_cons. cbn. f_equal. exact IH.
Qed.

Lemma substring_middle (a b c : string) :
  String.substring (String.length a) (String.length b) (a +:+ b +:+ c) = b.
Proof.
  induction a as [| x a IH].
  - exact (substring_prefix b c).
  - rewrite append_cons. exact IH.
Qed.

Lemma length_append (a b : string) :
  String.length (a +:+ b) = String.length a + String.length b.
Proof.
  induction a as [| x a IH]; [done |].
  rewrite append_cons. cbn. by rewrite IH.
Qed.

Lemma append_assoc (a b c : string) : (a +:+ b) +:+ c = a +:+ b +:+ c.
Proof.
  induction a as [| x a IH]; [done |].
  rewrite !append_cons. by rewrite IH.
Qed.

Lemma append_nil_r (a : string) : a +:+ EmptyString = a.
Proof.
  induction a as [| x a IH]; [done |].
  rewrite append_cons. by rewrite IH.
Qed.

Lemma substring_suffix (a b : string) :
  String.substring (String.length a) (String.length b) (a +:+ b) = b.
Proof.
  rewrite <- (append_nil_r b) at 2. rewrite (substring_middle a b EmptyString).
  done.
Qed.

End JS.

(** ** Global-styles variables: [getValueFromVariable] *)

Module Styles.
Import JS.

(** The values a theme configuration and a style attribute hold. *)
Inductive value : Type :=
| VUndefined
| VNull
| VBool (b : bool)
| VNumber (n : Z)
| VString (s : string)
| VArray (items : list value)
| VObject (properties : list (string * value))
| VFunction (name : string).

(** [! v] is [negb (truthy v)]. *)
Definition truthy (v : value) : bool :=
  match v with
  | VUndefined | VNull => false
  | VBool b => b
  | VNumber n => negb (n =? 0)%Z
  | VString s => negb (String.eqb s EmptyString)
  | VArray _ | VObject _ | VFunction _ => true
  end.

(** lodash [isString]. *)
Definition isString (v : value) : bool :=
  match v with
  | VString _ => true
  | _ => false
  end.

(** [a ?? b] and [a || b]. *)
Definition nullish_or (a b : value) : value :=
  match a with
  | VUndefined | VNull => b
  | _ => a
  end.

Definition or_else (a b : value) : value := if truthy a then a else b.

(** [v === s] for a string [s]. *)
Definition is_string_equal (v : value) (s : option string) : bool :=
  match v, s with
  | VString t, Some u => String.eqb t u
  | VUndefined, None => true
  | _, _ => false
  end.

Definition GLOBAL_CONTEXT : string := "global".

Record preset_category : Type := PresetCategory {
  path : list string;
  key : string
}.

Definition PRESET_CATEGORIES : gmap string preset_category :=
  list_to_map
    [ ("color", PresetCategory ["color"; "palette"] "color");
      ("gradient", PresetCategory ["color"; "gradients"] "gradient");
      ("fontSize", PresetCategory ["typography"; "fontSizes"] "size");
      ("fontFamily",
        PresetCategory ["typography"; "fontFamilies"] "fontFamily");
      ("fontStyle", PresetCategory ["typography"; "fontStyles"] "slug");
      ("fontWeight", PresetCategory ["typography"; "fontWeights"] "slug");
      ("textDecoration",
        PresetCategory ["typography"; "textDecorations"] "value");
      ("textTransform",
        PresetCategory ["typography"; "textTransforms"] "slug") ].

Section WithLodash.

(** lodash's [camelCase], [get] (with a path array) and [find], and
    the property read [object[name]] on a found preset, are library
    code: the functions below are stated over any implementation. *)
Variable camelCase : string -> string.
Variable get : value -> list string -> value.
Variable find : value -> (value -> bool) -> value.
Variable property : value -> string -> value.

(** The result of one call: [None] when the recursion budget ran out
    before the call returned. *)
Definition result : Type := option (completion value).

Definition undefined : result := Some (Return VUndefined).

(** [recur] is [getValueFromVariable] itself (the three functions are
    mutually recursive in the source).  [find] and [property] are total
    here: presets with an entry that is [null] or [undefined] ahead of
    the one looked for, on which the predicate [preset.slug === slug]
    throws, are not covered. *)
Definition getValueFromPresetVariable
    (recur : value -> string -> value -> result)
    (styles : value) (blockName : string) (args : list string)
  : result :=
  let slug := args !! 1%nat in
  let presetType := camelCase (default EmptyString (args !! 0%nat)) in
  match read PRESET_CATEGORIES presetType with
  | Missing => undefined
  | Inherited _ =>
      (* [...presetData.path] spreads [undefined] *)
      Some (Throw (TypeError "presetData.path is not iterable"))
  | Own presetData =>
      let presets :=
        nullish_or
          (get styles (blockName :: "settings" :: path presetData))
          (get styles (GLOBAL_CONTEXT :: "settings" :: path presetData))
      in
      if negb (truthy presets) then undefined
      else
        let presetObject :=
          find presets
            (fun preset => is_string_equal (property preset "slug") slug)
        in
        if truthy presetObject then
          let result := property presetObject (key presetData) in
          match recur styles blockName result with
          | Some (Return v) => Some (Return (or_else v result))
          | other => other
          end
        else undefined
  end.

Definition getValueFromCustomVariable
    (recur : value -> string -> value -> result)
    (styles : value) (blockName : string) (args : list string)
  : result :=
  let result :=
    nullish_or
      (get styles (blockName :: "settings" :: "custom" :: args))
      (get styles (GLOBAL_CONTEXT :: "settings" :: "custom" :: args))
  in
  match recur styles blockName result with
  | Some (Return v) => Some (Return (or_else v result))
  | other => other
  end.

Definition INTERNAL_REFERENCE_PREFIX : string := "var:".
Definition CSS_REFERENCE_PREFIX : string := "var(--wp--".
Definition CSS_REFERENCE_SUFFIX : string := ")".

(** The parse of the reference, [None] on the final [else] branch. *)
Definition parsedVar (variable : string) : option (list string) :=
  if startsWith variable INTERNAL_REFERENCE_PREFIX then
    Some (split
            (slice variable
               (Z.of_nat (String.length INTERNAL_REFERENCE_PREFIX)) None)
            "|")
  else if startsWith variable CSS_REFERENCE_PREFIX
          && endsWith variable CSS_REFERENCE_SUFFIX then
    Some (split
            (slice variable
               (Z.of_nat (String.length CSS_REFERENCE_PREFIX))
               (Some (- Z.of_nat (String.length CSS_REFERENCE_SUFFIX))%Z))
            "--")
  else None.

Fixpoint getValueFromVariable (depth : nat)
    (styles : value) (blockName : string) (variable : value) : result :=
  match depth with
  | O => None
  | S depth' =>
      if negb (truthy variable) || negb (isString variable)
      then undefined
      else
        match variable with
        | VString s =>
            match parsedVar s with
            | None => undefined
            | Some [] => undefined
            | Some (type :: args) =>
                if String.eqb type "preset" then
                  getValueFromPresetVariable
                    (getValueFromVariable depth') styles blockName args
                else if String.eqb type "custom" then
                  getValueFromCustomVariable
                    (getValueFromVariable depth') styles blockName args
                else undefined
            end
        | _ => undefined
        end
  end.

End WithLodash.

(** A small implementation of the library functions on own properties,
    used to run the functions on concrete theme data. *)
Definition own_property (v : value) (name : string) : value :=
  match v with
  | VObject properties =>
      match list_find (fun p => p.1 = name) properties with
      | Some (_, (_, x)) => x
      | None => VUndefined
      end
  | _ => VUndefined
  end.

Definition own_get (v : value) (names : list string) : value :=
  match names with
  | [] => VUndefined
  | _ => foldl own_property v names
  end.

Definition own_find (collection : value) (p : value -> bool) : value :=
  match collection with
  | VArray items =>
      match list_find (fun x => p x = true) items with
      | Some (_, x) => x
      | None => VUndefined
      end
  | _ => VUndefined
  end.

Definition run (depth : nat) : value -> string -> value -> result :=
  getValueFromVariable (fun s => s) own_get own_find own_property depth.

Definition theme : value :=
  VObject
    [ ("global",
        VObject
          [ ("settings",
              VObject
                [ ("color",
                    VObject
                      [ ("palette",
                          VArray
                            [ VObject [ ("slug", VString "primary");
                                        ("color", VString "#0073aa") ] ])
                      ]);
                  ("custom",
                    VObject
                      [ ("accent", VString "var:preset|color|primary") ])
                ]) ]) ].

(** ** Properties *)

Example split_bar : split "preset|color|primary" "|"
                    = ["preset"; "color"; "primary"].
Proof. reflexivity. Qed.

Example split_dashes : split "custom--line-height--body" "--"
                       = ["custom"; "line-height"; "body"].
Proof. reflexivity. Qed.

Example split_trailing : split "a--" "--" = ["a"; EmptyString].
Proof. reflexivity. Qed.

Example slice_css : slice "var(--wp--custom--accent)" 10%Z (Some (-1)%Z)
                    = "custom--accent".
Proof. reflexivity. Qed.

Example preset_reference :
  run 2 theme "core/paragraph" (VString "var:preset|color|primary")
  = Some (Return (VString "#0073aa")).
Proof. reflexivity. Qed.

Example custom_reference :
  run 3 theme "core/paragraph" (VString "var(--wp--custom--accent)")
  = Some (Return (VString "#0073aa")).
Proof. reflexivity. Qed.

Example inherited_category :
  run 1 theme "core/paragraph" (VString "var:preset|constructor|x")
  = Some (Throw (TypeError "presetData.path is not iterable")).
Proof. reflexivity. Qed.

(** The inputs on which the source takes one of its two bare [return]s
    before any parsing: a falsy value, a value that is not a string, or
    a string with neither reference syntax. *)
Definition not_a_reference (variable : value) : Prop :=
  truthy variable = false
  ∨ isString variable = false
  ∨ ∃ s, variable = VString s
         ∧ startsWith s "var:" = false
         ∧ (startsWith s "var(--wp--" && endsWith s ")") = false.

(** C10: for every input, [getValueFromVariable] returns [undefined]
    and does not throw whenever [variable] is falsy, is not a string, or
    is a string that neither starts with ["var:"] nor both starts with
    ["var(--wp--"] and ends with [")"]: one level of recursion budget is
    enough for the call to return. *)
Theorem getValueFromVariable_not_a_reference
    camelCase get find property depth styles blockName variable :
  not_a_reference variable ->
  getValueFromVariable camelCase get find property (S depth)
    styles blockName variable
  = Some (Return VUndefined).
Proof.
  intros [Hfalsy | [Hnot | (s & -> & Hint & Hcss)]]; cbn [getValueFromVariable].
  - by rewrite Hfalsy.
  - rewrite Hnot. by rewrite orb_true_r.
  - destruct (negb (truthy (VString s)) || negb (isString (VString s)));
      [done |].
    unfold parsedVar, INTERNAL_REFERENCE_PREFIX, CSS_REFERENCE_PREFIX,
      CSS_REFERENCE_SUFFIX.
    by rewrite Hint, Hcss.
Qed.

Lemma getValueFromVariable_not_a_reference_witness :
  not_a_reference (VString "#0073aa")
  ∧ run 1 theme "core/paragraph" (VString "#0073aa")
    = Some (Return VUndefined).
Proof.
  assert (H : not_a_reference (VString "#0073aa")).
  { right. right. exists "#0073aa". repeat split; reflexivity. }
  split; [exact H |].
  exact (getValueFromVariable_not_a_reference
           (fun s => s) own_get own_find own_property 0 theme
           "core/paragraph" (VString "#0073aa") H).
Defined.

(** ** From a value back to a preset reference: [getPresetVariable] *)

(** The second key is the name [LINK_COLOR], not the value of the
    constant of that name. *)
Definition STYLE_PROPERTIES_TO_PRESETS : gmap string string :=
  list_to_map
    [ ("backgroundColor", "color");
      ("LINK_COLOR", "color");
      ("background", "gradient") ].

Definition LINK_COLOR : string := "--wp--style--color--link".

(** [s] has no character [c]. *)
Fixpoint lacks (c : Ascii.ascii) (s : string) : bool :=
  match s with
  | EmptyString => true
  | String x rest => if Ascii.ascii_dec c x then false else lacks c rest
  end.

(** [s] followed by a dash holds no two dashes in a row. *)
Fixpoint undashed (s : string) : bool :=
  match s with
  | EmptyString => true
  | String c rest =>
      if Ascii.ascii_dec "-"%char c then
        match rest with
        | EmptyString => false
        | String d _ =>
            if Ascii.ascii_dec "-"%char d then false else undashed rest
        end
      else undashed rest
  end.

(** The property read [preset[ key ]] throws on [null] and on
    [undefined], and on nothing else. *)
Definition nullish (v : value) : bool :=
  match v with
  | VUndefined | VNull => true
  | _ => false
  end.

Definition cannot_read (key : string) (v : value) : error :=
  TypeError ("Cannot read property '" +:+ key +:+ "' of "
             +:+ match v with VNull => "null" | _ => "undefined" end).

(** [find] hands the candidates to its predicate one after the other
    and stops at the first the predicate holds of.  A predicate that
    reads a property of its argument throws on the first candidate that
    is [null] or [undefined], if [find] gets that far: [thrown_on] is
    that candidate. *)
Fixpoint thrown_on (predicate : value -> bool) (candidates : list value)
  : option value :=
  match candidates with
  | [] => None
  | x :: rest =>
      if nullish x then Some x
      else if predicate x then None
      else thrown_on predicate rest
  end.

Section WithPresets.

(** Library code again: lodash's [camelCase], [kebabCase], [get] and
    [find], the property read on a preset object that is neither [null]
    nor [undefined], [===] and the conversion to a string a template
    literal makes.  [elements collection] lists what [find] iterates
    over, in its order: the items of an array, the values of the own
    properties of an object, nothing for [null] and [undefined]. *)
Variable camelCase : string -> string.
Variable kebabCase : string -> string.
Variable get : value -> list string -> value.
Variable find : value -> (value -> bool) -> value.
Variable elements : value -> list value.
Variable property : value -> string -> value.
Variable strict_equal : value -> value -> bool.
Variable to_string : value -> string.

(** [get( styles, [ blockName, 'settings', ...path ] ) ??
     get( styles, [ GLOBAL_CONTEXT, 'settings', ...path ] )]. *)
Definition presets_at (styles : value) (blockName : string)
    (path : list string) : value :=
  nullish_or
    (get styles (blockName :: "settings" :: path))
    (get styles (GLOBAL_CONTEXT :: "settings" :: path)).

(** [STYLE_PROPERTIES_TO_PRESETS[ propertyName ] || propertyName], for a
    property name that is a string: [None] when the read finds a member
    of [Object.prototype], which as a property key is the text of a
    function or ["[object Object]"], the name of no category. *)
Definition category_of (propertyName : string) : option string :=
  match read STYLE_PROPERTIES_TO_PRESETS propertyName with
  | Own category =>
      if String.eqb category EmptyString then Some propertyName
      else Some category
  | Missing => Some propertyName
  | Inherited _ => None
  end.

Definition reference_to (presetCategory : string) (presetObject : value)
  : string :=
  "var:preset|" +:+ kebabCase presetCategory +:+ "|"
  +:+ to_string (property presetObject "slug").

Definition getPresetVariable (styles : value)
    (blockName propertyName : string) (given : value) : completion value :=
  if negb (truthy given) then Return VUndefined
  else
    match category_of propertyName with
    | None => Return VUndefined
    | Some presetCategory =>
        if String.eqb presetCategory EmptyString then Return VUndefined
        else
          match read PRESET_CATEGORIES presetCategory with
          | Missing => Return VUndefined
          | Inherited _ =>
              Throw (TypeError "path is not iterable")
          | Own presetData =>
              let presets := presets_at styles blockName (path presetData) in
              let predicate (preset : value) :=
                strict_equal (property preset (key presetData)) given in
              match thrown_on predicate (elements presets) with
              | Some preset => Throw (cannot_read (key presetData) preset)
              | None =>
                  let presetObject := find presets predicate in
                  if truthy presetObject
                  then Return
                         (VString (reference_to presetCategory presetObject))
                  else Return VUndefined
              end
          end
    end.

(** *** Properties *)

Lemma STYLE_PROPERTIES_TO_PRESETS_values (name category : string) :
  STYLE_PROPERTIES_TO_PRESETS !! name = Some category ->
  category = "color" ∨ category = "gradient".
Proof.
  intros H. apply elem_of_list_to_map_2 in H.
  repeat (apply elem_of_cons in H as [[= _ <-] | H]; [by auto |]).
  by apply elem_of_nil in H.
Qed.

Lemma category_of_not_inherited (propertyName category : string) :
  category_of propertyName = Some category ->
  ∀ name, read PRESET_CATEGORIES category ≠ Inherited name.
Proof.
  unfold category_of, read at 1.
  destruct (STYLE_PROPERTIES_TO_PRESETS !! propertyName) as [c |] eqn:Hc.
  - apply STYLE_PROPERTIES_TO_PRESETS_values in Hc as [-> | ->];
      cbn; intros [= <-]; by vm_compute.
  - case_bool_decide as Hin; [done |]. intros [= <-] name.
    unfold read. destruct (PRESET_CATEGORIES !! propertyName); [done |].
    by rewrite bool_decide_eq_false_2.
Qed.

Lemma thrown_on_nullish (predicate : value -> bool)
    (candidates : list value) (x : value) :
  thrown_on predicate candidates = Some x ->
  nullish x = true ∧ x ∈ candidates.
Proof.
  induction candidates as [| y rest IH]; cbn; [done |].
  destruct (nullish y) eqn:Hy.
  - intros [= <-]. split; [done | by left].
  - destruct (predicate y); [done |].
    intros [Hx Hin]%IH. split; [done | by right].
Qed.

Lemma thrown_on_none (predicate : value -> bool) (candidates : list value) :
  Forall (fun x => nullish x = false) candidates ->
  thrown_on predicate candidates = None.
Proof.
  induction 1 as [| y rest Hy _ IH]; cbn; [done |].
  rewrite Hy. by destruct (predicate y).
Qed.

(** X20: [getPresetVariable] returns [undefined] unless the value is
    truthy and the style property maps to one of the eight preset
    categories.  It then looks for a preset of that category with
    [find], whose predicate reads [preset[ key ]]: if [find] comes to a
    preset that is [null] or [undefined] before it has found one, the
    call throws the [TypeError] of that read; otherwise it returns the
    reference built from the category and the slug of the preset found,
    or [undefined] when there is none.  So it throws for no styles whose
    presets are all other than [null] and [undefined]. *)
Theorem getPresetVariable_result (styles : value)
    (blockName propertyName : string) (given : value) :
  (getPresetVariable styles blockName propertyName given = Return VUndefined
   ∨ ∃ presetCategory presetData,
       truthy given = true
       ∧ category_of propertyName = Some presetCategory
       ∧ PRESET_CATEGORIES !! presetCategory = Some presetData
       ∧ let presets := presets_at styles blockName (path presetData) in
         let predicate (preset : value) :=
           strict_equal (property preset (key presetData)) given in
         match thrown_on predicate (elements presets) with
         | Some preset =>
             nullish preset = true
             ∧ preset ∈ elements presets
             ∧ getPresetVariable styles blockName propertyName given
               = Throw (cannot_read (key presetData) preset)
         | None =>
             truthy (find presets predicate) = true
             ∧ getPresetVariable styles blockName propertyName given
               = Return (VString (reference_to presetCategory
                                    (find presets predicate)))
         end)
  ∧ ((∀ presetCategory presetData,
        category_of propertyName = Some presetCategory ->
        PRESET_CATEGORIES !! presetCategory = Some presetData ->
        Forall (fun preset => nullish preset = false)
          (elements (presets_at styles blockName (path presetData)))) ->
     ∀ e, getPresetVariable styles blockName propertyName given ≠ Throw e).
Proof.
  unfold getPresetVariable.
  destruct (truthy given) eqn:Hgiven; cbn [negb]; [| by split; [left |]].
  destruct (category_of propertyName) as [presetCategory |] eqn:Hcat;
    [| by split; [left |]].
  destruct (String.eqb presetCategory EmptyString); [by split; [left |] |].
  pose proof (category_of_not_inherited _ _ Hcat) as Hown.
  unfold read in *.
  destruct (PRESET_CATEGORIES !! presetCategory) as [presetData |] eqn:Hdata.
  - cbn zeta. split.
    + destruct (thrown_on _ _) as [preset |] eqn:Hthrown.
      * right. exists presetCategory, presetData.
        do 3 (split; [done |]). cbn zeta. rewrite Hthrown.
        apply thrown_on_nullish in Hthrown as [Hnull Hin]. by split.
      * destruct (truthy (find _ _)) eqn:Hfound; [| by left].
        right. exists presetCategory, presetData.
        do 3 (split; [done |]). cbn zeta. by rewrite Hthrown, Hfound.
    + intros Hall e.
      rewrite (thrown_on_none _ _ (Hall presetCategory presetData eq_refl Hdata)).
      by destruct (truthy (find _ _)).
  - case_bool_decide; [by destruct (Hown presetCategory) |].
    by split; [left |].
Qed.

(** X21: For the property name the constant [LINK_COLOR] holds, the result is
    [undefined] whatever the styles and the value; the name
    ["LINK_COLOR"] itself is treated as ["backgroundColor"] and
    ["color"] are. *)
Theorem getPresetVariable_link_color (styles : value) (blockName : string)
    (given : value) :
  getPresetVariable styles blockName LINK_COLOR given = Return VUndefined
  ∧ getPresetVariable styles blockName "LINK_COLOR" given
    = getPresetVariable styles blockName "color" given
  ∧ getPresetVariable styles blockName "backgroundColor" given
    = getPresetVariable styles blockName "color" given.
Proof.
  unfold getPresetVariable.
  assert (category_of LINK_COLOR = Some LINK_COLOR) as -> by (by vm_compute).
  assert (category_of "LINK_COLOR" = Some "color") as -> by (by vm_compute).
  assert (category_of "backgroundColor" = Some "color") as ->
    by (by vm_compute).
  assert (category_of "color" = Some "color") as -> by (by vm_compute).
  assert (read PRESET_CATEGORIES LINK_COLOR = Missing) as ->
    by (by vm_compute).
  split; [by destruct (negb (truthy given)) | done].
Qed.

(** *** References that are resolved *)

Lemma plain_value_is_undefined (depth : nat) (styles : value)
    (blockName : string) (variable : value) :
  not_a_reference variable ->
  getValueFromVariable camelCase get find property (S depth)
    styles blockName variable
  = Some (Return VUndefined).
Proof.
  intros [Hfalsy | [Hnot | (s & -> & Hint & Hcss)]]; cbn [getValueFromVariable].
  - by rewrite Hfalsy.
  - rewrite Hnot. by rewrite orb_true_r.
  - destruct (negb (truthy (VString s)) || negb (isString (VString s)));
      [done |].
    unfold parsedVar, INTERNAL_REFERENCE_PREFIX, CSS_REFERENCE_PREFIX,
      CSS_REFERENCE_SUFFIX.
    by rewrite Hint, Hcss.
Qed.

Lemma lacks_cons (c x : Ascii.ascii) (rest : string) :
  lacks c (String x rest)
  = if Ascii.ascii_dec c x then false else lacks c rest.
Proof. reflexivity. Qed.

Lemma split_from_bar (piece : string) (x : Ascii.ascii) (rest : string) :
  split_from "|" 0 piece (String x rest)
  = if Ascii.ascii_dec "|"%char x
    then piece :: split_from "|" 0 EmptyString rest
    else split_from "|" 0 (piece +:+ String x EmptyString) rest.
Proof.
  change (split_from "|" 0 piece (String x rest))
    with (if String.prefix "|" (String x rest)
          then piece :: split_from "|" 0 EmptyString rest
          else split_from "|" 0 (piece +:+ String x EmptyString) rest).
  change (String.prefix "|" (String x rest))
    with (if Ascii.ascii_dec "|"%char x
          then String.prefix EmptyString rest else false).
  destruct (Ascii.ascii_dec "|"%char x); [| done]. by destruct rest.
Qed.

Lemma getValueFromVariable_S (depth : nat) (styles : value)
    (blockName : string) (variable : value) :
  getValueFromVariable camelCase get find property (S depth)
    styles blockName variable
  = if negb (truthy variable) || negb (isString variable)
    then undefined
    else
      match variable with
      | VString s =>
          match parsedVar s with
          | None => undefined
          | Some [] => undefined
          | Some (type :: args) =>
              if String.eqb type "preset" then
                getValueFromPresetVariable camelCase get find property
                  (getValueFromVariable camelCase get find property depth)
                  styles blockName args
              else if String.eqb type "custom" then
                getValueFromCustomVariable get
                  (getValueFromVariable camelCase get find property depth)
                  styles blockName args
              else undefined
          end
      | _ => undefined
      end.
Proof. reflexivity. Qed.

Lemma split_bar_last (piece a : string) :
  lacks "|"%char a = true -> split_from "|" 0 piece a = [piece +:+ a].
Proof.
  revert piece. induction a as [| x a IH]; intros piece Hfree.
  - change (split_from "|" 0 piece EmptyString) with [piece].
    by rewrite append_nil_r.
  - rewrite lacks_cons in Hfree. rewrite split_from_bar.
    destruct (Ascii.ascii_dec "|"%char x) as [| Hne]; [done |].
    rewrite IH by done. by rewrite append_assoc.
Qed.

Lemma split_bar_next (piece a rest : string) :
  lacks "|"%char a = true ->
  split_from "|" 0 piece (a +:+ String "|"%char rest)
  = (piece +:+ a) :: split_from "|" 0 EmptyString rest.
Proof.
  revert piece. induction a as [| x a IH]; intros piece Hfree.
  - change (EmptyString +:+ String "|"%char rest)
      with (String "|"%char rest).
    rewrite split_from_bar.
    destruct (Ascii.ascii_dec "|"%char "|"%char) as [_ | Hne]; [| done].
    by rewrite append_nil_r.
  - rewrite lacks_cons in Hfree. rewrite append_cons, split_from_bar.
    destruct (Ascii.ascii_dec "|"%char x) as [| Hne]; [done |].
    rewrite IH by done. by rewrite append_assoc.
Qed.

(** An internal reference to a preset is parsed into its three parts
    when neither the category nor the slug holds a ['|']. *)
Lemma parsedVar_preset (category slug : string) :
  lacks "|"%char category = true ->
  lacks "|"%char slug = true ->
  parsedVar ("var:preset|" +:+ category +:+ "|" +:+ slug)
  = Some ["preset"; category; slug].
Proof.
  intros Hcategory Hslug. unfold parsedVar.
  set (rest := "preset|" +:+ category +:+ "|" +:+ slug).
  change ("var:preset|" +:+ category +:+ "|" +:+ slug)
    with ("var:" +:+ rest).
  assert (Hstart : startsWith ("var:" +:+ rest) INTERNAL_REFERENCE_PREFIX
                   = true).
  { unfold startsWith. apply String.prefix_correct.
    exact (substring_prefix "var:" rest). }
  rewrite Hstart. f_equal.
  assert (Hslice :
    slice ("var:" +:+ rest)
      (Z.of_nat (String.length INTERNAL_REFERENCE_PREFIX)) None = rest).
  { unfold slice. rewrite length_append.
    change (String.length "var:") with 4%nat.
    change (Z.of_nat (String.length INTERNAL_REFERENCE_PREFIX)) with 4%Z.
    change (4 <? 0)%Z with false. cbn match.
    replace (Z.to_nat (Z.min 4 (Z.of_nat (4 + String.length rest))))
      with (String.length "var:") by (cbn; lia).
    replace (Z.to_nat
               (Z.max
                  (Z.of_nat (4 + String.length rest)
                   - Z.min 4 (Z.of_nat (4 + String.length rest))) 0))
      with (String.length rest) by lia.
    apply substring_suffix. }
  rewrite Hslice. unfold split, rest.
  change ("preset|" +:+ category +:+ "|" +:+ slug)
    with ("preset" +:+ String "|"%char (category +:+ String "|"%char slug)).
  rewrite split_bar_next by done.
  rewrite split_bar_next by done.
  by rewrite split_bar_last.
Qed.

(** X22: Round trip: the reference [getPresetVariable] returns for a value
    is resolved by [getValueFromVariable] to that value, when the slug
    of the preset found is a string without ['|'] that [find] leads back
    to the same preset, and the value is not itself a reference.  The
    other hypotheses state what is used of the library functions. *)
Theorem preset_variable_round_trip (depth : nat) (styles : value)
    (blockName propertyName : string) (given : value)
    (reference slug presetCategory : string)
    (presetData : preset_category) :
  (∀ c, is_Some (PRESET_CATEGORIES !! c) ->
        camelCase (kebabCase c) = c ∧ lacks "|"%char (kebabCase c) = true) ->
  (∀ collection p, truthy (find collection p) = true ->
                   truthy collection = true ∧ p (find collection p) = true) ->
  (∀ a b, strict_equal a b = true -> a = b) ->
  (∀ s, to_string (VString s) = s) ->
  not_a_reference given ->
  category_of propertyName = Some presetCategory ->
  PRESET_CATEGORIES !! presetCategory = Some presetData ->
  let presets := presets_at styles blockName (path presetData) in
  let presetObject :=
    find presets
      (fun preset => strict_equal (property preset (key presetData)) given) in
  property presetObject "slug" = VString slug ->
  lacks "|"%char slug = true ->
  find presets
    (fun preset => is_string_equal (property preset "slug") (Some slug))
  = presetObject ->
  getPresetVariable styles blockName propertyName given
  = Return (VString reference) ->
  getValueFromVariable camelCase get find property (S (S depth))
    styles blockName (VString reference)
  = Some (Return given).
Proof.
  intros Hcase Hfind Hequal Hstring Hplain Hcat Hdata presets presetObject
    Hslug Hbar Hback Hresult.
  destruct (Hcase presetCategory) as [Hcamel Hkebab]; [by eexists |].
  assert (Hread : read PRESET_CATEGORIES presetCategory = Own presetData)
    by (by apply read_own).
  (* what [getPresetVariable] returned *)
  assert (Hfound : truthy presetObject = true
                   ∧ reference
                     = "var:preset|" +:+ kebabCase presetCategory +:+ "|"
                       +:+ slug).
  { revert Hresult. unfold getPresetVariable. rewrite Hcat, Hread.
    destruct (negb (truthy given)); [done |].
    destruct (String.eqb presetCategory EmptyString); [done |].
    cbn zeta. fold presets.
    destruct (thrown_on _ (elements presets)); [done |].
    fold presetObject.
    destruct (truthy presetObject); [| done].
    unfold reference_to. rewrite Hslug, Hstring. by intros [= <-]. }
  destruct Hfound as [Htruthy ->].
  destruct (Hfind _ _ Htruthy) as [Hpresets Hkey].
  apply Hequal in Hkey. fold presetObject in Hkey.
  (* the call of [getValueFromVariable] *)
  assert (Hgiven : truthy given = true).
  { revert Hresult. unfold getPresetVariable.
    by destruct (truthy given). }
  rewrite getValueFromVariable_S.
  rewrite (parsedVar_preset _ _ Hkebab Hbar).
  assert (Hnonempty :
    negb (truthy (VString ("var:preset|" +:+ kebabCase presetCategory
                           +:+ "|" +:+ slug)))
    || negb (isString (VString ("var:preset|" +:+ kebabCase presetCategory
                                +:+ "|" +:+ slug))) = false) by done.
  rewrite Hnonempty.
  change (String.eqb "preset" "preset") with true. cbn match.
  unfold getValueFromPresetVariable.
  cbn [lookup list_lookup default from_option id].
  rewrite Hcamel, Hread.
  change (nullish_or
            (get styles (blockName :: "settings" :: path presetData))
            (get styles (GLOBAL_CONTEXT :: "settings" :: path presetData)))
    with presets.
  rewrite Hpresets. cbn [negb]. rewrite Hback, Htruthy, Hkey.
  rewrite (plain_value_is_undefined depth styles blockName given Hplain).
  unfold or_else. cbn [truthy].
  done.
Qed.

(** X23: A custom variable whose value is the reference to itself is never
    resolved: whatever the recursion budget, the call does not return. *)
Theorem self_reference_never_returns (depth : nat) (styles : value)
    (blockName reference : string) (args : list string) :
  parsedVar reference = Some ("custom" :: args) ->
  nullish_or
    (get styles (blockName :: "settings" :: "custom" :: args))
    (get styles (GLOBAL_CONTEXT :: "settings" :: "custom" :: args))
  = VString reference ->
  getValueFromVariable camelCase get find property depth
    styles blockName (VString reference)
  = None.
Proof.
  intros Hparsed Hvalue.
  induction depth as [| depth IH]; [done |].
  rewrite getValueFromVariable_S, Hparsed.
  destruct (negb (truthy (VString reference))
            || negb (isString (VString reference))) eqn:Hfalsy.
  - exfalso. revert Hfalsy Hparsed. cbn.
    destruct reference; [| done]. by vm_compute.
  - change (String.eqb "custom" "preset") with false.
    change (String.eqb "custom" "custom") with true. cbn match.
    unfold getValueFromCustomVariable. by rewrite Hvalue, IH.
Qed.

(** *** The two syntaxes of a reference *)

Lemma split_from_dashes (piece : string) (c : Ascii.ascii) (rest : string) :
  split_from "--" 0 piece (String c rest)
  = if String.prefix "--" (String c rest)
    then piece :: split_from "--" 1 EmptyString rest
    else split_from "--" 0 (piece +:+ String c EmptyString) rest.
Proof. reflexivity. Qed.

Lemma prefix_dashes (c d : Ascii.ascii) (rest : string) :
  String.prefix "--" (String c (String d rest))
  = if Ascii.ascii_dec "-"%char c
    then if Ascii.ascii_dec "-"%char d then true else false
    else false.
Proof.
  change (String.prefix "--" (String c (String d rest)))
    with (if Ascii.ascii_dec "-"%char c
          then if Ascii.ascii_dec "-"%char d
               then String.prefix EmptyString rest else false
          else false).
  destruct (Ascii.ascii_dec "-"%char c); [| done].
  destruct (Ascii.ascii_dec "-"%char d); [| done]. by destruct rest.
Qed.

Lemma undashed_cons (c : Ascii.ascii) (rest : string) :
  undashed (String c rest)
  = if Ascii.ascii_dec "-"%char c then
      match rest with
      | EmptyString => false
      | String d _ =>
          if Ascii.ascii_dec "-"%char d then false else undashed rest
      end
    else undashed rest.
Proof. reflexivity. Qed.

Lemma split_dashes_next (piece a rest : string) :
  undashed a = true ->
  split_from "--" 0 piece (a +:+ String "-"%char (String "-"%char rest))
  = (piece +:+ a) :: split_from "--" 0 EmptyString rest.
Proof.
  revert piece. induction a as [| c a IH]; intros piece Hclean.
  - change (EmptyString +:+ String "-"%char (String "-"%char rest))
      with (String "-"%char (String "-"%char rest)).
    rewrite split_from_dashes, prefix_dashes.
    destruct (Ascii.ascii_dec "-"%char "-"%char) as [_ | Hne]; [| done].
    by rewrite append_nil_r.
  - rewrite undashed_cons in Hclean. rewrite append_cons, split_from_dashes.
    assert (Hno : String.prefix "--"
                    (String c (a +:+ String "-"%char (String "-"%char rest)))
                  = false).
    { destruct a as [| d a'].
      - change (EmptyString +:+ String "-"%char (String "-"%char rest))
          with (String "-"%char (String "-"%char rest)).
        rewrite prefix_dashes.
        by destruct (Ascii.ascii_dec "-"%char c).
      - rewrite append_cons, prefix_dashes.
        destruct (Ascii.ascii_dec "-"%char c); [| done].
        by destruct (Ascii.ascii_dec "-"%char d). }
    rewrite Hno.
    assert (Hrest : undashed a = true).
    { destruct (Ascii.ascii_dec "-"%char c); [| done].
      destruct a as [| d a']; [done |].
      by destruct (Ascii.ascii_dec "-"%char d). }
    rewrite IH by done. by rewrite append_assoc.
Qed.

Lemma split_dashes_last (piece a : string) :
  undashed a = true -> split_from "--" 0 piece a = [piece +:+ a].
Proof.
  revert piece. induction a as [| c a IH]; intros piece Hclean.
  - change (split_from "--" 0 piece EmptyString) with [piece].
    by rewrite append_nil_r.
  - rewrite undashed_cons in Hclean. rewrite split_from_dashes.
    assert (Hno : String.prefix "--" (String c a) = false).
    { destruct a as [| d a'].
      - change (String.prefix "--" (String c EmptyString))
          with (if Ascii.ascii_dec "-"%char c then false else false).
        by destruct (Ascii.ascii_dec "-"%char c).
      - rewrite prefix_dashes.
        destruct (Ascii.ascii_dec "-"%char c); [| done].
        by destruct (Ascii.ascii_dec "-"%char d). }
    rewrite Hno.
    assert (Hrest : undashed a = true).
    { destruct (Ascii.ascii_dec "-"%char c); [| done].
      destruct a as [| d a']; [done |].
      by destruct (Ascii.ascii_dec "-"%char d). }
    rewrite IH by done. by rewrite append_assoc.
Qed.

(** A CSS reference to a preset is parsed into the same three parts. *)
Lemma parsedVar_css (category slug : string) :
  undashed category = true ->
  undashed slug = true ->
  parsedVar ("var(--wp--preset--" +:+ category +:+ "--" +:+ slug +:+ ")")
  = Some ["preset"; category; slug].
Proof.
  intros Hcategory Hslug. unfold parsedVar.
  set (inner := "preset--" +:+ category +:+ "--" +:+ slug).
  assert (Hshape :
    "var(--wp--preset--" +:+ category +:+ "--" +:+ slug +:+ ")"
    = "var(--wp--" +:+ inner +:+ ")").
  { unfold inner.
    change ("var(--wp--preset--" +:+ category +:+ "--" +:+ slug +:+ ")")
      with ("var(--wp--" +:+ "preset--" +:+ category +:+ "--" +:+ slug
            +:+ ")").
    by rewrite !append_assoc. }
  rewrite Hshape.
  assert (Hinternal :
    startsWith ("var(--wp--" +:+ inner +:+ ")") INTERNAL_REFERENCE_PREFIX
    = false) by done.
  assert (Hstart :
    startsWith ("var(--wp--" +:+ inner +:+ ")") CSS_REFERENCE_PREFIX = true).
  { unfold startsWith. apply String.prefix_correct.
    exact (substring_prefix "var(--wp--" (inner +:+ ")")). }
  assert (Hlength :
    String.length ("var(--wp--" +:+ inner +:+ ")")
    = (10 + String.length inner + 1)%nat).
  { rewrite !length_append. cbn. lia. }
  assert (Hend :
    endsWith ("var(--wp--" +:+ inner +:+ ")") CSS_REFERENCE_SUFFIX = true).
  { unfold endsWith. rewrite Hlength.
    change (String.length CSS_REFERENCE_SUFFIX) with 1%nat.
    replace (10 + String.length inner + 1 - 1)%nat
      with (String.length ("var(--wp--" +:+ inner))
      by (rewrite length_append; cbn; lia).
    rewrite <- (append_assoc "var(--wp--" inner ")").
    assert (Hlast :
      String.substring (String.length ("var(--wp--" +:+ inner)) 1
        (("var(--wp--" +:+ inner) +:+ ")") = ")")
      by exact (substring_suffix ("var(--wp--" +:+ inner) ")").
    rewrite Hlast.
    apply andb_true_iff. split; [apply Nat.leb_le; lia | done]. }
  rewrite Hinternal, Hstart, Hend. cbn [andb]. f_equal.
  assert (Hslice :
    slice ("var(--wp--" +:+ inner +:+ ")")
      (Z.of_nat (String.length CSS_REFERENCE_PREFIX))
      (Some (- Z.of_nat (String.length CSS_REFERENCE_SUFFIX))%Z)
    = inner).
  { unfold slice. rewrite Hlength.
    change (Z.of_nat (String.length CSS_REFERENCE_PREFIX)) with 10%Z.
    change (- Z.of_nat (String.length CSS_REFERENCE_SUFFIX))%Z with (-1)%Z.
    change (10 <? 0)%Z with false. change (-1 <? 0)%Z with true.
    cbn match.
    replace (Z.to_nat
               (Z.min 10 (Z.of_nat (10 + String.length inner + 1))))
      with (String.length "var(--wp--") by (cbn; lia).
    replace (Z.to_nat
               (Z.max
                  (Z.max (Z.of_nat (10 + String.length inner + 1) + -1) 0
                   - Z.min 10 (Z.of_nat (10 + String.length inner + 1))) 0))
      with (String.length inner) by lia.
    apply substring_middle. }
  rewrite Hslice. unfold split, inner.
  change ("preset--" +:+ category +:+ "--" +:+ slug)
    with ("preset" +:+ String "-"%char
            (String "-"%char
               (category +:+ String "-"%char (String "-"%char slug)))).
  rewrite split_dashes_next by done.
  rewrite split_dashes_next by done.
  by rewrite split_dashes_last.
Qed.

(** X24: The CSS syntax and the internal syntax of a reference to a preset
    are resolved alike, to the same result with the same budget, when
    the category and the slug hold no ['|'], no two dashes in a row and
    no dash at their end. *)
Theorem reference_syntaxes_agree (depth : nat) (styles : value)
    (blockName category slug : string) :
  undashed category = true ->
  undashed slug = true ->
  lacks "|"%char category = true ->
  lacks "|"%char slug = true ->
  getValueFromVariable camelCase get find property depth styles blockName
    (VString ("var(--wp--preset--" +:+ category +:+ "--" +:+ slug +:+ ")"))
  = getValueFromVariable camelCase get find property depth styles blockName
      (VString ("var:preset|" +:+ category +:+ "|" +:+ slug)).
Proof.
  intros Hc Hs Hcbar Hsbar. destruct depth as [| depth]; [done |].
  rewrite !getValueFromVariable_S.
  rewrite (parsedVar_css _ _ Hc Hs), (parsedVar_preset _ _ Hcbar Hsbar).
  done.
Qed.

End WithPresets.

(** *** Concrete data *)

(** A theme whose custom variable [loop] references itself. *)
Definition looping : value :=
  VObject
    [ ("global",
        VObject
          [ ("settings",
              VObject
                [ ("custom",
                    VObject [ ("loop", VString "var:custom|loop") ]) ]) ]) ].

Definition own_strict_equal (a b : value) : bool :=
  match a, b with
  | VString s, VString t => String.eqb s t
  | _, _ => false
  end.

Definition own_to_string (v : value) : string :=
  match v with
  | VString s => s
  | _ => "undefined"
  end.

(** What [own_find] iterates over. *)
Definition own_elements (collection : value) : list value :=
  match collection with
  | VArray items => items
  | _ => []
  end.

Example preset_variable_of_color :
  getPresetVariable (fun s => s) own_get own_find own_elements own_property
    own_strict_equal own_to_string theme "core/paragraph" "backgroundColor"
    (VString "#0073aa")
  = Return (VString "var:preset|color|primary").
Proof. by vm_compute. Qed.

(** A palette whose first entry is [null]. *)
Definition holed : value :=
  VObject
    [ ("global",
        VObject
          [ ("settings",
              VObject
                [ ("color",
                    VObject
                      [ ("palette",
                          VArray
                            [ VNull;
                              VObject [ ("slug", VString "primary");
                                        ("color", VString "#0073aa") ] ])
                      ]) ]) ]) ].

Example null_preset_throws :
  getPresetVariable (fun s => s) own_get own_find own_elements own_property
    own_strict_equal own_to_string holed "core/paragraph" "backgroundColor"
    (VString "#0073aa")
  = Throw (TypeError "Cannot read property 'color' of null").
Proof. by vm_compute. Qed.

Lemma own_elements_of_theme (presetCategory : string)
    (presetData : preset_category) :
  category_of "backgroundColor" = Some presetCategory ->
  PRESET_CATEGORIES !! presetCategory = Some presetData ->
  Forall (fun preset => nullish preset = false)
    (own_elements (presets_at own_get theme "core/paragraph"
                     (path presetData))).
Proof.
  intros [= <-] [= <-]. by repeat constructor.
Qed.

Lemma getPresetVariable_result_witness :
  ¬ ∃ e,
      getPresetVariable (fun s => s) own_get own_find own_elements
        own_property own_strict_equal own_to_string theme "core/paragraph"
        "backgroundColor" (VString "#0073aa")
      = Throw e.
Proof.
  intros [e He].
  exact (proj2 (getPresetVariable_result (fun s => s) own_get own_find
                  own_elements own_property own_strict_equal own_to_string
                  theme "core/paragraph" "backgroundColor"
                  (VString "#0073aa"))
           own_elements_of_theme e He).
Defined.

Lemma own_find_found (collection : value) (p : value -> bool) :
  truthy (own_find collection p) = true ->
  truthy collection = true ∧ p (own_find collection p) = true.
Proof.
  destruct collection as [| | | | | items | |]; try done. cbn.
  destruct (list_find (fun x => p x = true) items) as [[i x] |] eqn:Hfind;
    [| done].
  intros _. split; [done |]. by apply list_find_Some in Hfind as (_ & ? & _).
Qed.

Lemma own_strict_equal_eq (a b : value) :
  own_strict_equal a b = true -> a = b.
Proof.
  destruct a, b; try done. cbn. by intros ->%String.eqb_eq.
Qed.

Lemma categories_without_bar (c : string) :
  is_Some (PRESET_CATEGORIES !! c) ->
  (fun s : string => s) ((fun s : string => s) c) = c
  ∧ lacks "|"%char ((fun s : string => s) c) = true.
Proof.
  intros [data H]. apply elem_of_list_to_map_2 in H.
  repeat (apply elem_of_cons in H as [[= -> _] | H]; [by vm_compute |]).
  by apply elem_of_nil in H.
Qed.

Lemma preset_variable_round_trip_witness :
  run 2 theme "core/paragraph" (VString "var:preset|color|primary")
  = Some (Return (VString "#0073aa")).
Proof.
  apply (preset_variable_round_trip
           (fun s => s) (fun s => s) own_get own_find own_elements
           own_property own_strict_equal own_to_string
           0 theme "core/paragraph" "backgroundColor" (VString "#0073aa")
           "var:preset|color|primary" "primary" "color"
           (PresetCategory ["color"; "palette"] "color")).
  - exact categories_without_bar.
  - exact own_find_found.
  - exact own_strict_equal_eq.
  - reflexivity.
  - right. right. exists "#0073aa". by vm_compute.
  - by vm_compute.
  - by vm_compute.
  - by vm_compute.
  - by vm_compute.
  - by vm_compute.
  - by vm_compute.
Defined.

Lemma self_reference_never_returns_witness :
  run 5 looping "core/paragraph" (VString "var:custom|loop") = None.
Proof.
  apply (self_reference_never_returns
           (fun s => s) own_get own_find own_property
           5 looping "core/paragraph" "var:custom|loop" ["loop"]);
    reflexivity.
Defined.

Lemma reference_syntaxes_agree_witness :
  run 2 theme "core/paragraph" (VString "var(--wp--preset--color--primary)")
  = run 2 theme "core/paragraph" (VString "var:preset|color|primary").
Proof.
  apply (reference_syntaxes_agree (fun s => s) own_get own_find own_property
           2 theme "core/paragraph" "color" "primary");
    reflexivity.
Defined.

End Styles.

(** ** Template auto-drafts: [_gutenberg_create_auto_draft_for_template] *)

Module Templates.

(** A row of the posts table with the [theme] entries of its post meta;
    only the columns the routine reads or writes are kept. *)
Record WP_Post : Type := Post {
  ID : nat;
  post_type : string;
  post_status : string;
  post_title : string;
  post_name : string;
  post_content : string;
  meta : list (string * string)
}.

(** The posts table, in the order a query lists its rows. *)
Definition database : Type := list WP_Post.

(** The arguments of the [WP_Query] the routine builds. *)
Record query_args : Type := QueryArgs {
  q_post_type : string;
  q_post_status : list string;
  q_title : string;
  q_meta_key : string;
  q_meta_value : string;
  q_posts_per_page : nat
}.

Definition selects (q : query_args) (p : WP_Post) : Prop :=
  post_type p = q_post_type q
  ∧ post_status p ∈ q_post_status q
  ∧ post_title p = q_title q
  ∧ (q_meta_key q, q_meta_value q) ∈ meta p.

#[global] Instance selects_dec q p : Decision (selects q p).
Proof. unfold selects. apply _. Defined.

(** WordPress core, from its documented behaviour: the query yields the
    selected rows, at most [posts_per_page] of them. *)
Definition WP_Query (q : query_args) (db : database) : list WP_Post :=
  take (q_posts_per_page q) (filter (selects q) db).

(** [$query->have_posts() ? $query->next_post() : null]. *)
Definition first_post (posts : list WP_Post) : option WP_Post := head posts.

Definition fresh_ID (db : database) : nat := S (foldr max 0%nat (ID <$> db)).

(** The argument of [wp_insert_post]: an array of columns without an
    [ID] (a row is added), or a post object (the row of its [ID] is
    overwritten). *)
Inductive postarr : Type :=
| Columns (content title status type name : string)
| Object (post : WP_Post).

Definition wp_insert_post (arg : postarr) (db : database) : database :=
  match arg with
  | Columns content title status type name =>
      db ++ [Post (fresh_ID db) type status title name content []]
  | Object post =>
      (fun row => if decide (ID row = ID post) then post else row) <$> db
  end.

Definition with_content (content : string) (p : WP_Post) : WP_Post :=
  Post (ID p) (post_type p) (post_status p) (post_title p) (post_name p)
    content (meta p).

Definition template_query (post_type slug theme : string) : query_args :=
  QueryArgs post_type ["publish"; "auto-draft"] slug "theme" theme 1.

Definition _gutenberg_create_auto_draft_for_template
    (post_type slug theme content : string) (db : database) : database :=
  let template_query := WP_Query (template_query post_type slug theme) db in
  match first_post template_query with
  | None => wp_insert_post (Columns content slug "auto-draft" post_type slug) db
  | Some post =>
      if bool_decide ("auto-draft" = post_status post
                      ∧ content ≠ post_content post)
      then wp_insert_post (Object (with_content content post)) db
      else db
  end.

Definition site : database :=
  [ Post 1 "wp_template" "publish" "index" "index" "<p>edited</p>"
      [("theme", "twentytwenty")];
    Post 2 "wp_template_part" "auto-draft" "header" "header" "<p>old</p>"
      [("theme", "twentytwenty")] ].

(** ** Properties *)

Example seeds_missing_template :
  _gutenberg_create_auto_draft_for_template
    "wp_template" "single" "twentytwenty" "<p>single</p>" site
  = site ++ [Post 3 "wp_template" "auto-draft" "single" "single"
               "<p>single</p>" []].
Proof. reflexivity. Qed.

Example refreshes_auto_draft :
  _gutenberg_create_auto_draft_for_template
    "wp_template_part" "header" "twentytwenty" "<p>new</p>" site
  = [ Post 1 "wp_template" "publish" "index" "index" "<p>edited</p>"
        [("theme", "twentytwenty")];
      Post 2 "wp_template_part" "auto-draft" "header" "header" "<p>new</p>"
        [("theme", "twentytwenty")] ].
Proof. reflexivity. Qed.

Example keeps_published :
  _gutenberg_create_auto_draft_for_template
    "wp_template" "index" "twentytwenty" "<p>from file</p>" site
  = site.
Proof. reflexivity. Qed.

Lemma first_post_elem q db post :
  first_post (WP_Query q db) = Some post -> post ∈ db ∧ selects q post.
Proof.
  unfold first_post, WP_Query. intros H.
  apply head_Some_elem_of in H.
  apply elem_of_take in H as (i & H & _).
  apply list_elem_of_lookup_2 in H.
  by apply list_elem_of_filter in H as [? ?].
Qed.

Lemma overwrite_other (post : WP_Post) (db : database) (row : WP_Post) :
  row ∈ db -> ID row ≠ ID post ->
  row ∈ ((fun r => if decide (ID r = ID post) then post else r) <$> db).
Proof.
  intros Hin Hne. apply list_elem_of_fmap. exists row. split; [| done].
  by rewrite decide_False.
Qed.

Lemma overwrite_elem (post : WP_Post) (db : database) (row : WP_Post) :
  row ∈ ((fun r => if decide (ID r = ID post) then post else r) <$> db) ->
  row = post ∨ row ∈ db.
Proof.
  intros (r & -> & Hr)%list_elem_of_fmap.
  destruct (decide (ID r = ID post)); auto.
Qed.

Lemma same_ID_same_row (db : database) (p q : WP_Post) :
  NoDup (ID <$> db) -> p ∈ db -> q ∈ db -> ID p = ID q -> p = q.
Proof.
  intros Hnd (i & Hi)%list_elem_of_lookup (j & Hj)%list_elem_of_lookup Heq.
  assert (i = j) as ->; [| congruence].
  eapply NoDup_lookup; [exact Hnd | |].
  - rewrite list_lookup_fmap, Hi. reflexivity.
  - rewrite list_lookup_fmap, Hj. simpl. by rewrite Heq.
Qed.

(** C9: the routine never modifies an existing post whose status is
    ['publish'] (every such row is still in the table afterwards); a row
    that is replaced is the queried post, had status ['auto-draft'] and a
    content different from the template's, and is replaced by itself with
    the new content; and a row is added only when the query finds no
    matching post, the added row being an ['auto-draft']. *)
Theorem create_auto_draft_frame
    (post_type slug theme content : string) (db : database) :
  NoDup (ID <$> db) ->
  let db' :=
    _gutenberg_create_auto_draft_for_template
      post_type slug theme content db in
  let found := first_post (WP_Query (template_query post_type slug theme) db) in
  (∀ p, p ∈ db -> post_status p = "publish" -> p ∈ db')
  ∧ (∀ p, p ∈ db -> p ∉ db' ->
       found = Some p
       ∧ post_status p = "auto-draft"
       ∧ post_content p ≠ content
       ∧ with_content content p ∈ db')
  ∧ (∀ p, p ∈ db' -> p ∉ db ->
       (found = None
        ∧ p = Post (fresh_ID db) post_type "auto-draft" slug slug content [])
       ∨ (∃ old, found = Some old ∧ post_status old = "auto-draft"
                 ∧ p = with_content content old)).
Proof.
  intros Hnd db' found. subst db' found.
  unfold _gutenberg_create_auto_draft_for_template.
  destruct (first_post (WP_Query (template_query post_type slug theme) db))
    as [post |] eqn:Hq.
  - apply first_post_elem in Hq as [Hin Hsel].
    case_bool_decide as Hup.
    + destruct Hup as [Hst Hc]. cbn [wp_insert_post].
      assert (Hid : ID (with_content content post) = ID post) by done.
      split; [| split].
      * intros p Hp Hpub. apply overwrite_other; [done |].
        rewrite Hid. intros Heq.
        assert (p = post) as -> by eauto using same_ID_same_row.
        congruence.
      * intros p Hp Hgone.
        destruct (decide (ID p = ID post)) as [Heq | Hne].
        -- assert (p = post) as -> by eauto using same_ID_same_row.
           repeat split; [done | done |].
           apply list_elem_of_fmap. exists post. split; [| done].
           by rewrite decide_True.
        -- exfalso. apply Hgone. apply overwrite_other; [done |].
           by rewrite Hid.
      * intros p Hp Hnew. right.
        apply overwrite_elem in Hp as [-> | Hp]; [| done].
        exists post. done.
    + split; [| split]; [done | done | done].
  - cbn [wp_insert_post]. split; [| split].
    + intros p Hp _. apply elem_of_app. by left.
    + intros p Hp Hgone. exfalso. apply Hgone, elem_of_app. by left.
    + intros p Hp Hnew. left.
      apply elem_of_app in Hp as [Hp | Hp]; [done |].
      apply list_elem_of_singleton in Hp. done.
Qed.

Lemma create_auto_draft_frame_witness :
  NoDup (ID <$> site)
  ∧ Post 1 "wp_template" "publish" "index" "index" "<p>edited</p>"
      [("theme", "twentytwenty")]
    ∈ _gutenberg_create_auto_draft_for_template
        "wp_template" "index" "twentytwenty" "<p>from file</p>" site.
Proof.
  assert (Hnd : NoDup (ID <$> site)).
  { apply (bool_decide_unpack _). vm_compute. exact I. }
  split; [exact Hnd |].
  apply (proj1 (create_auto_draft_frame
                  "wp_template" "index" "twentytwenty" "<p>from file</p>"
                  site Hnd)).
  - apply list_elem_of_here.
  - reflexivity.
Defined.

(** ** Synchronisation of the template files of the theme *)

(** The two values of [$template_type] the callers pass, ['template'] and
    ['template-part'], with the two arrays indexed by them. *)
Inductive template_type : Type :=
| template
| template_part.

Definition template_post_types (t : template_type) : string :=
  match t with
  | template => "wp_template"
  | template_part => "wp_template_part"
  end.

Definition template_base_paths (t : template_type) : string :=
  match t with
  | template => "block-templates"
  | template_part => "block-template-parts"
  end.

(** PHP's [strpos]: the offset of the first occurrence, [None] for
    [false]. *)
Definition strpos (haystack needle : string) : option nat :=
  String.index 0 needle haystack.

(** PHP's [substr( s, offset, -omitted )] for an offset that is not
    negative; where PHP 7 returns [false] this is the empty string, which
    is what PHP 8 returns and what [false] is as a string. *)
Definition substr (s : string) (offset omitted : nat) : string :=
  String.substring offset (String.length s - omitted - offset) s.

(** [$slug], as computed from the path of a template file ([false + 1]
    is [1]). *)
Definition slug (base file : string) : string :=
  substr file
    (default 0 (strpos file (base +:+ "/")) + 1 + String.length base) 5.

Record WP_Theme : Type := Theme {
  get_stylesheet : string;
  version : string
}.

(** What the routines read from WordPress and from the file system.
    [template_paths] is [_gutenberg_get_template_paths]: the paths of
    the [.html] files below a directory, none when it does not exist. *)
Record environment : Type := Environment {
  BLOCK_THEME_DEV_MODE : bool;
  wp_get_theme : WP_Theme;
  parent : option WP_Theme;
  is_child_theme : bool;
  get_stylesheet_directory : string;
  get_template_directory : string;
  template_paths : string -> list string;
  file_get_contents : string -> string
}.

Definition _gutenberg_synchronize_theme_templates (env : environment)
    (t : template_type) (db : database) : database :=
  let base := template_base_paths t in
  let template_files :=
    template_paths env (get_stylesheet_directory env +:+ "/" +:+ base)
    ++ (if is_child_theme env
        then template_paths env (get_template_directory env +:+ "/" +:+ base)
        else []) in
  foldl
    (fun db template_file =>
       _gutenberg_create_auto_draft_for_template
         (template_post_types t) (slug base template_file)
         (get_stylesheet (wp_get_theme env))
         (file_get_contents env template_file) db)
    db template_files.

(** The posts table and the option
    [gutenberg_last_template_auto_drafts_theme_versions] ([None] while
    it was never written). *)
Record wordpress : Type := WordPress {
  posts : database;
  last_template_auto_drafts_theme_versions : option (gmap string string)
}.

Section VersionChange.

(** [version_compare( a, b, '>' )] of PHP. *)
Variable version_newer : string -> string -> bool.

(** One of the two blocks that set [$create_auto_drafts]. *)
Definition outdated (last : gmap string string) (theme : WP_Theme) : bool :=
  match last !! get_stylesheet theme with
  | Some last_version => version_newer (version theme) last_version
  | None => true
  end.

Definition gutenberg_synchronize_theme_templates_on_version_change
    (env : environment) (wp : wordpress) : wordpress :=
  let synchronized :=
    _gutenberg_synchronize_theme_templates env template
      (_gutenberg_synchronize_theme_templates env template_part (posts wp)) in
  if BLOCK_THEME_DEV_MODE env then
    WordPress synchronized (last_template_auto_drafts_theme_versions wp)
  else
    let theme := wp_get_theme env in
    let last_auto_drafts_versions :=
      default ∅ (last_template_auto_drafts_theme_versions wp) in
    let create_auto_drafts := false in
    let create_auto_drafts :=
      if outdated last_auto_drafts_versions theme then true
      else create_auto_drafts in
    let create_auto_drafts :=
      match parent env with
      | Some parent_theme =>
          if outdated last_auto_drafts_versions parent_theme then true
          else create_auto_drafts
      | None => create_auto_drafts
      end in
    if negb create_auto_drafts then wp
    else
      let last_auto_drafts_versions :=
        <[ get_stylesheet theme := version theme ]>
          last_auto_drafts_versions in
      let last_auto_drafts_versions :=
        match parent env with
        | Some parent_theme =>
            <[ get_stylesheet parent_theme := version parent_theme ]>
              last_auto_drafts_versions
        | None => last_auto_drafts_versions
        end in
      WordPress synchronized (Some last_auto_drafts_versions).

End VersionChange.

(** A child theme [seedlet-blocks] of [seedlet], each with one template
    file. *)
Definition themes : environment :=
  Environment false (Theme "seedlet-blocks" "1.0.1")
    (Some (Theme "seedlet" "1.1.0")) true
    "/themes/seedlet-blocks" "/themes/seedlet"
    (fun directory =>
       if String.eqb directory "/themes/seedlet-blocks/block-templates"
       then ["/themes/seedlet-blocks/block-templates/index.html"]
       else if String.eqb directory "/themes/seedlet/block-template-parts"
       then ["/themes/seedlet/block-template-parts/header/small.html"]
       else [])
    (fun file => "<!-- " +:+ file +:+ " -->").

(** ** Properties of the synchronisation *)

Example slug_of_nested_part :
  slug "block-template-parts"
    "/themes/seedlet/block-template-parts/header/small.html"
  = "header/small".
Proof. reflexivity. Qed.

(** The base path is searched for from the start of the whole path. *)
Example slug_of_misleading_directory :
  slug "block-templates" "/themes/my-block-templates/block-templates/index.html"
  = "block-templates/index".
Proof. reflexivity. Qed.

Lemma overwrite_IDs (post : WP_Post) (db : database) :
  ID <$> ((fun r => if decide (ID r = ID post) then post else r) <$> db)
  = ID <$> db.
Proof.
  rewrite <- list_fmap_compose. apply list_fmap_ext.
  intros i r _. cbn. by destruct (decide (ID r = ID post)).
Qed.

Lemma fresh_ID_fresh (db : database) : fresh_ID db ∉ ID <$> db.
Proof.
  apply max_list_not_elem_of_gt. unfold fresh_ID.
  assert (max_list (ID <$> db) = foldr max 0 (ID <$> db)) as ->
    by (induction (ID <$> db) as [| n ns IH]; cbn; [done | by rewrite IH]).
  lia.
Qed.

Lemma create_keeps_unique_IDs
    (post_type slug theme content : string) (db : database) :
  NoDup (ID <$> db) ->
  NoDup (ID <$> _gutenberg_create_auto_draft_for_template
                  post_type slug theme content db)
  ∧ (ID <$> db) `prefix_of`
      (ID <$> _gutenberg_create_auto_draft_for_template
                post_type slug theme content db).
Proof.
  intros Hnd. unfold _gutenberg_create_auto_draft_for_template.
  destruct (first_post (WP_Query (template_query post_type slug theme) db))
    as [post |].
  - case_bool_decide; [| done]. cbn [wp_insert_post].
    by rewrite (overwrite_IDs (with_content content post)).
  - cbn [wp_insert_post]. rewrite fmap_app. cbn.
    split; [| by apply prefix_app_r].
    apply NoDup_app. split; [done |]. split; [| apply NoDup_singleton].
    intros x Hx ->%list_elem_of_singleton. by apply (fresh_ID_fresh db).
Qed.

(** X15: The routine keeps the identifiers of the table: when the query finds
    a post, the rows keep their identifiers (and their number and
    order); when it finds none, one row is added behind them, with an
    identifier no row had; identifiers that were unique stay unique. *)
Theorem create_auto_draft_keeps_IDs
    (post_type slug theme content : string) (db : database) :
  let db' :=
    _gutenberg_create_auto_draft_for_template
      post_type slug theme content db in
  let found := first_post (WP_Query (template_query post_type slug theme) db) in
  (is_Some found -> ID <$> db' = ID <$> db)
  ∧ (found = None ->
     ID <$> db' = (ID <$> db) ++ [fresh_ID db] ∧ fresh_ID db ∉ ID <$> db)
  ∧ (NoDup (ID <$> db) -> NoDup (ID <$> db')).
Proof.
  cbn zeta. unfold _gutenberg_create_auto_draft_for_template.
  destruct (first_post (WP_Query (template_query post_type slug theme) db))
    as [post |] eqn:Hq.
  - split; [| split; [done |]].
    + intros _. case_bool_decide; [| done]. cbn [wp_insert_post].
      apply (overwrite_IDs (with_content content post)).
    + case_bool_decide; [| done]. cbn [wp_insert_post].
      by rewrite (overwrite_IDs (with_content content post)).
  - cbn [wp_insert_post]. rewrite fmap_app. cbn.
    pose proof (fresh_ID_fresh db) as Hfresh.
    split; [by intros [? ?] |]. split; [done |].
    intros Hnd. apply NoDup_app. split; [done |].
    split; [| apply NoDup_singleton].
    intros x Hx ->%list_elem_of_singleton. done.
Qed.

Lemma filter_overwrite (q : query_args) (post post' : WP_Post)
    (db : database) :
  ID post' = ID post ->
  (selects q post' <-> selects q post) ->
  (∀ row, row ∈ db -> ID row = ID post -> row = post) ->
  filter (selects q)
    ((fun r => if decide (ID r = ID post') then post' else r) <$> db)
  = (fun r => if decide (ID r = ID post') then post' else r)
    <$> filter (selects q) db.
Proof.
  intros Hid Hsel. induction db as [| row rest IH]; intros Hrows; [done |].
  assert (Hrest : ∀ r, r ∈ rest -> ID r = ID post -> r = post)
    by (intros r Hr; apply Hrows; by right).
  specialize (IH Hrest). cbn [fmap list_fmap].
  assert (Hhead : selects q (if decide (ID row = ID post') then post' else row)
                  <-> selects q row).
  { destruct (decide (ID row = ID post')) as [Heq | _]; [| done].
    rewrite (Hrows row) by (by left || congruence). done. }
  destruct (decide (selects q row)) as [Hyes | Hno].
  - rewrite (filter_cons_True _ row) by done.
    rewrite filter_cons_True by (by apply Hhead).
    cbn [fmap list_fmap]. f_equal. exact IH.
  - rewrite (filter_cons_False _ row) by done.
    rewrite filter_cons_False by (by rewrite Hhead).
    exact IH.
Qed.

(** X16: Once the query finds a post for the template, running the routine a
    second time with the same arguments changes nothing more. *)
Theorem create_auto_draft_idempotent_when_found
    (post_type slug theme content : string) (db : database) :
  NoDup (ID <$> db) ->
  is_Some (first_post (WP_Query (template_query post_type slug theme) db)) ->
  let once :=
    _gutenberg_create_auto_draft_for_template
      post_type slug theme content db in
  _gutenberg_create_auto_draft_for_template
    post_type slug theme content once
  = once.
Proof.
  intros Hnd [post Hq]. cbn zeta.
  unfold _gutenberg_create_auto_draft_for_template at 2. rewrite Hq.
  case_bool_decide as Hup.
  - cbn [wp_insert_post].
    set (post' := with_content content post).
    set (f := fun r => if decide (ID r = ID post') then post' else r).
    pose proof (first_post_elem _ _ _ Hq) as [Hin Hsel].
    assert (Hq' : first_post
                    (WP_Query (template_query post_type slug theme) (f <$> db))
                  = Some post').
    { revert Hq. unfold first_post, WP_Query.
      rewrite (filter_overwrite _ post post' db); [| done | done |].
      - destruct (filter _ db) as [| p rest]; [done |].
        cbn. intros [= ->]. subst f. cbn. by rewrite decide_True.
      - intros row Hrow Hid. by eapply same_ID_same_row. }
    unfold _gutenberg_create_auto_draft_for_template. rewrite Hq', Hq.
    rewrite (bool_decide_eq_true_2 _ Hup).
    rewrite bool_decide_eq_false_2; [done |].
    intros [_ Hne]. by apply Hne.
  - unfold _gutenberg_create_auto_draft_for_template. rewrite Hq.
    by rewrite !bool_decide_eq_false_2 by done.
Qed.

(** X17: The slug of a template file is its path below the base directory,
    without the five characters of the extension, provided the name of
    the base directory followed by ['/'] does not occur earlier in the
    path than where the base directory is. *)
Theorem slug_is_path_below_base
    (directory base relative extension : string) :
  let file :=
    directory +:+ "/" +:+ base +:+ "/" +:+ relative +:+ extension in
  strpos file (base +:+ "/") = Some (String.length directory + 1) ->
  String.length extension = 5 ->
  slug base file = relative.
Proof.
  cbn zeta. intros Hpos Hext. unfold slug, substr. rewrite Hpos.
  cbn [default from_option id].
  rewrite <- (JS.append_assoc directory "/" _).
  rewrite <- (JS.append_assoc base "/" _).
  rewrite <- (JS.append_assoc (directory +:+ "/") (base +:+ "/") _).
  set (before := (directory +:+ "/") +:+ base +:+ "/").
  assert (Hlen : String.length before
                 = String.length directory + 1 + 1 + String.length base).
  { unfold before. rewrite !JS.length_append. cbn. lia. }
  rewrite <- Hlen.
  replace (String.length (before +:+ relative +:+ extension) - 5
           - String.length before) with (String.length relative)
    by (rewrite !JS.length_append; lia).
  apply JS.substring_middle.
Qed.

Lemma create_keeps_published
    (post_type slug theme content : string) (db : database) (p : WP_Post) :
  NoDup (ID <$> db) ->
  p ∈ db -> post_status p = "publish" ->
  p ∈ _gutenberg_create_auto_draft_for_template
        post_type slug theme content db.
Proof.
  intros Hnd Hp Hpub. unfold _gutenberg_create_auto_draft_for_template.
  destruct (first_post (WP_Query (template_query post_type slug theme) db))
    as [post |] eqn:Hq.
  - apply first_post_elem in Hq as [Hin _].
    case_bool_decide as Hup; [| done]. destruct Hup as [Hst _].
    cbn [wp_insert_post]. apply overwrite_other; [done |].
    intros Heq.
    assert (p = post) as -> by (by eapply same_ID_same_row).
    congruence.
  - cbn [wp_insert_post]. apply elem_of_app. by left.
Qed.

Lemma synchronize_keeps (env : environment) (t : template_type)
    (db : database) :
  NoDup (ID <$> db) ->
  NoDup (ID <$> _gutenberg_synchronize_theme_templates env t db)
  ∧ (ID <$> db) `prefix_of`
      (ID <$> _gutenberg_synchronize_theme_templates env t db)
  ∧ ∀ p, p ∈ db -> post_status p = "publish" ->
      p ∈ _gutenberg_synchronize_theme_templates env t db.
Proof.
  unfold _gutenberg_synchronize_theme_templates.
  generalize (template_paths env
                (get_stylesheet_directory env +:+ "/" +:+ template_base_paths t)
              ++ (if is_child_theme env
                  then template_paths env
                         (get_template_directory env +:+ "/"
                          +:+ template_base_paths t)
                  else [])).
  intros files. revert db.
  induction files as [| file rest IH]; intros db Hnd; [done |].
  cbn [foldl].
  set (db1 := _gutenberg_create_auto_draft_for_template _ _ _ _ db).
  destruct (create_keeps_unique_IDs (template_post_types t)
              (slug (template_base_paths t) file)
              (get_stylesheet (wp_get_theme env))
              (file_get_contents env file) db Hnd) as [Hnd1 Hpre1].
  fold db1 in Hnd1, Hpre1.
  destruct (IH db1 Hnd1) as (Hnd' & Hpre' & Hpub').
  split; [done |]. split; [by etrans |].
  intros p Hp Hpub. apply Hpub'; [| done].
  by apply create_keeps_published.
Qed.

(** X18: A whole run of the synchronisation hooked on [wp_loaded] modifies no
    published post, whatever the theme files hold; the rows keep their
    identifiers, which stay unique. *)
Theorem synchronization_keeps_published_posts
    (version_newer : string -> string -> bool) (env : environment)
    (wp : wordpress) :
  NoDup (ID <$> posts wp) ->
  let wp' :=
    gutenberg_synchronize_theme_templates_on_version_change
      version_newer env wp in
  NoDup (ID <$> posts wp')
  ∧ (ID <$> posts wp) `prefix_of` (ID <$> posts wp')
  ∧ ∀ p, p ∈ posts wp -> post_status p = "publish" -> p ∈ posts wp'.
Proof.
  intros Hnd. cbn zeta.
  destruct (synchronize_keeps env template_part (posts wp) Hnd)
    as (Hnd1 & Hpre1 & Hpub1).
  destruct (synchronize_keeps env template _ Hnd1) as (Hnd2 & Hpre2 & Hpub2).
  assert (Hboth :
    NoDup (ID <$> _gutenberg_synchronize_theme_templates env template
                    (_gutenberg_synchronize_theme_templates env template_part
                       (posts wp)))
    ∧ (ID <$> posts wp) `prefix_of`
        (ID <$> _gutenberg_synchronize_theme_templates env template
                  (_gutenberg_synchronize_theme_templates env template_part
                     (posts wp)))
    ∧ ∀ p, p ∈ posts wp -> post_status p = "publish" ->
        p ∈ _gutenberg_synchronize_theme_templates env template
              (_gutenberg_synchronize_theme_templates env template_part
                 (posts wp))).
  { split; [done |]. split; [by etrans |]. intros p Hp Hpub.
    apply Hpub2; [by apply Hpub1 | done]. }
  unfold gutenberg_synchronize_theme_templates_on_version_change.
  destruct (BLOCK_THEME_DEV_MODE env); [exact Hboth |].
  destruct (negb _); [| exact Hboth].
  split; [done |]. split; [done |]. done.
Qed.

Lemma version_change_skips (version_newer : string -> string -> bool)
    (env : environment) (wp : wordpress) :
  BLOCK_THEME_DEV_MODE env = false ->
  outdated version_newer
    (default ∅ (last_template_auto_drafts_theme_versions wp))
    (wp_get_theme env) = false ->
  match parent env with
  | Some parent_theme =>
      outdated version_newer
        (default ∅ (last_template_auto_drafts_theme_versions wp))
        parent_theme = false
  | None => True
  end ->
  gutenberg_synchronize_theme_templates_on_version_change
    version_newer env wp = wp.
Proof.
  intros Hdev Htheme Hparent.
  unfold gutenberg_synchronize_theme_templates_on_version_change.
  rewrite Hdev, Htheme. destruct (parent env) as [parent_theme |]; [| done].
  by rewrite Hparent.
Qed.

(** X19: Outside the development mode, a second run of the routine right
    after the first one does nothing when no version is newer than
    itself and the parent theme, if there is one, is another theme than
    the current one: the first run recorded the versions it saw. *)
Theorem version_change_synchronizes_once
    (version_newer : string -> string -> bool) (env : environment)
    (wp : wordpress) :
  BLOCK_THEME_DEV_MODE env = false ->
  (∀ v, version_newer v v = false) ->
  match parent env with
  | Some parent_theme =>
      get_stylesheet parent_theme ≠ get_stylesheet (wp_get_theme env)
  | None => True
  end ->
  let once :=
    gutenberg_synchronize_theme_templates_on_version_change
      version_newer env wp in
  gutenberg_synchronize_theme_templates_on_version_change
    version_newer env once
  = once.
Proof.
  intros Hdev Hirrefl Hother. cbn zeta.
  set (last := default ∅ (last_template_auto_drafts_theme_versions wp)).
  set (recorded :=
         match parent env with
         | Some parent_theme =>
             <[ get_stylesheet parent_theme := version parent_theme ]>
               (<[ get_stylesheet (wp_get_theme env)
                   := version (wp_get_theme env) ]> last)
         | None =>
             <[ get_stylesheet (wp_get_theme env)
                := version (wp_get_theme env) ]> last
         end).
  assert (Hcases :
    gutenberg_synchronize_theme_templates_on_version_change
      version_newer env wp = wp
    ∨ gutenberg_synchronize_theme_templates_on_version_change
        version_newer env wp
      = WordPress
          (_gutenberg_synchronize_theme_templates env template
             (_gutenberg_synchronize_theme_templates env template_part
                (posts wp)))
          (Some recorded)).
  { unfold gutenberg_synchronize_theme_templates_on_version_change.
    rewrite Hdev. destruct (negb _); [by left | by right]. }
  destruct Hcases as [Heq | Heq]; rewrite Heq; [exact Heq |].
  apply version_change_skips; [done | |];
    cbn [last_template_auto_drafts_theme_versions default from_option id];
    subst recorded; unfold outdated.
  - destruct (parent env) as [parent_theme |].
    + rewrite lookup_insert_ne by done. rewrite lookup_insert_eq.
      apply Hirrefl.
    + rewrite lookup_insert_eq. apply Hirrefl.
  - destruct (parent env) as [parent_theme |]; [| done].
    rewrite lookup_insert_eq. apply Hirrefl.
Qed.

(** ** The synchronisation on concrete data *)

Definition differs (a b : string) : bool := negb (String.eqb a b).

Lemma create_auto_draft_keeps_IDs_witness :
  NoDup
    (ID <$> _gutenberg_create_auto_draft_for_template
              "wp_template" "single" "twentytwenty" "<p>single</p>" site).
Proof.
  apply (create_auto_draft_keeps_IDs
           "wp_template" "single" "twentytwenty" "<p>single</p>" site).
  apply (bool_decide_unpack _). vm_compute. exact I.
Defined.

Lemma create_auto_draft_idempotent_when_found_witness :
  _gutenberg_create_auto_draft_for_template
    "wp_template_part" "header" "twentytwenty" "<p>new</p>"
    (_gutenberg_create_auto_draft_for_template
       "wp_template_part" "header" "twentytwenty" "<p>new</p>" site)
  = _gutenberg_create_auto_draft_for_template
      "wp_template_part" "header" "twentytwenty" "<p>new</p>" site.
Proof.
  apply (create_auto_draft_idempotent_when_found
           "wp_template_part" "header" "twentytwenty" "<p>new</p>" site).
  - apply (bool_decide_unpack _). vm_compute. exact I.
  - vm_compute. by eexists.
Defined.

Lemma slug_is_path_below_base_witness :
  slug "block-templates" "/themes/seedlet-blocks/block-templates/index.html"
  = "index".
Proof.
  apply (slug_is_path_below_base
           "/themes/seedlet-blocks" "block-templates" "index" ".html");
    reflexivity.
Defined.

Lemma synchronization_keeps_published_posts_witness :
  Post 1 "wp_template" "publish" "index" "index" "<p>edited</p>"
    [("theme", "twentytwenty")]
  ∈ posts
      (gutenberg_synchronize_theme_templates_on_version_change
         differs themes (WordPress site None)).
Proof.
  assert (Hnd : NoDup (ID <$> posts (WordPress site None))).
  { apply (bool_decide_unpack _). vm_compute. exact I. }
  apply (proj2 (proj2 (synchronization_keeps_published_posts
                         differs themes (WordPress site None) Hnd))).
  - apply list_elem_of_here.
  - reflexivity.
Defined.

Lemma version_change_synchronizes_once_witness :
  gutenberg_synchronize_theme_templates_on_version_change differs themes
    (gutenberg_synchronize_theme_templates_on_version_change differs themes
       (WordPress site None))
  = gutenberg_synchronize_theme_templates_on_version_change differs themes
      (WordPress site None).
Proof.
  apply (version_change_synchronizes_once differs themes
           (WordPress site None)).
  - reflexivity.
  - intros v. unfold differs. by rewrite String.eqb_refl.
  - cbn. discriminate.
Defined.

End Templates.

(** ** The data registry: stores, atoms, parent delegation, plugins *)

Module Registry.
Import JS.

(** A capability of a store adapter, as [typeof] sees it: a function
    (given by what calling it does: the bundle [getSelectors] and
    [getActions] return, the completion of [subscribe( globalListener )])
    or anything else. *)
Inductive property (R : Type) : Type :=
| NotAFunction
| Function (result : R).
Arguments NotAFunction {R}.
Arguments Function {R} result.

Definition is_function {R} (p : property R) : bool :=
  match p with
  | Function _ => true
  | NotAFunction => false
  end.

(** Atoms come from [@wordpress/stan]: [createStoreAtom] builds one from
    the adapter's [subscribe] and the store key; it is a constructor of
    that library, which keeps [subscribe] for later and returns.  An atom
    is an object, hence truthy in [if ( atom )]. *)
Inductive atom : Type :=
| StoreAtom (id : string).

Definition createStoreAtom (key : string) : atom := StoreAtom key.

Section WithStores.

(** [bundle]: the objects of selectors or of action creators an
    adapter hands out.  [options]: the description given to
    [registerStore] and [registerAtomicStore]; [reducer] tells whether
    [options.reducer] is truthy.  [createNamespace],
    [createAtomicStore] and [createCoreDataStore] live in sibling
    modules of the package. *)
Variable bundle : Type.
Variable options : Type.
Variable reducer : options -> bool.

Record config : Type := Config {
  getSelectors : property bundle;
  getActions : property bundle;
  subscribe : property (completion unit)
}.

Variable createNamespace : string -> options -> config.
Variable createAtomicStore : options -> config.
Variable createCoreDataStore : config.

Inductive value : Type :=
| VUndefined
| VNull
| VBundle (b : bundle)
| VAtom (a : atom)
| VInherited (name : string).

(** The closure state of one [createRegistry] call.  [notifying] lists
    the keys whose adapter took [globalListener], its [subscribe] having
    returned; [resolved] lists the calls made to the atom resolver. *)
Inductive registry : Type := Build {
  stores : gmap string config;
  storesAtoms : gmap string atom;
  notifying : list string;
  __unstableAtomResolver : option nat;
  resolved : list (nat * value);
  parent : option registry
}.

Definition __unstableGetAtomResolver (r : registry) : option nat :=
  __unstableAtomResolver r.

Definition __unstableSetAtomResolver (v : option nat) (r : registry)
  : registry :=
  Build (stores r) (storesAtoms r) (notifying r) v (resolved r) (parent r).

Definition set_parent (p : option registry) (r : registry) : registry :=
  Build (stores r) (storesAtoms r) (notifying r)
    (__unstableAtomResolver r) (resolved r) p.

Definition record_resolved (f : nat) (v : value) (r : registry)
  : registry :=
  Build (stores r) (storesAtoms r) (notifying r)
    (__unstableAtomResolver r) (resolved r ++ [(f, v)]) (parent r).

Fixpoint getStoreAtom (r : registry) (key : string) : completion value :=
  match read (storesAtoms r) key with
  | Own a => Return (VAtom a)
  | Inherited name => Return (VInherited name)
  | Missing =>
      match parent r with
      | Some p => getStoreAtom p key
      | None =>
          Throw (TypeError "Cannot read property 'getStoreAtom' of null")
      end
  end.

(** The first statement of the branch [if ( store )] of [select]. *)
Definition resolve_atom (r : registry) (reducerKey : string)
  : completion unit * registry :=
  match __unstableGetAtomResolver r with
  | None => (Return tt, r)
  | Some f =>
      match getStoreAtom r reducerKey with
      | Return a => (Return tt, record_resolved f a r)
      | Throw e => (Throw e, r)
      end
  end.

Definition call (p : property bundle) (message : string)
  : completion value :=
  match p with
  | Function b => Return (VBundle b)
  | NotAFunction => Throw (TypeError message)
  end.

(** [select_with v r key] is [select(key)] on [r] once its atom
    resolver holds [v]: the parent is entered after
    [parent.__unstableSetAtomResolver(...)]. *)
Fixpoint select_with (v : option nat) (r : registry) (reducerKey : string)
  : completion value * registry :=
  let r := __unstableSetAtomResolver v r in
  let found (p : property bundle) :=
    match resolve_atom r reducerKey with
    | (Return _, r') => (call p "store.getSelectors is not a function", r')
    | (Throw e, r') => (Throw e, r')
    end in
  match read (stores r) reducerKey with
  | Own store => found (getSelectors store)
  | Inherited _ => found NotAFunction
  | Missing =>
      match parent r with
      | Some p =>
          let '(ret, p') :=
            select_with (__unstableGetAtomResolver r) p reducerKey in
          (ret, set_parent (Some p') r)
      | None => (Return VUndefined, r)
      end
  end.

Definition select (r : registry) (reducerKey : string)
  : completion value * registry :=
  select_with (__unstableGetAtomResolver r) r reducerKey.

Fixpoint dispatch (r : registry) (reducerKey : string)
  : completion value :=
  match read (stores r) reducerKey with
  | Own store => call (getActions store) "store.getActions is not a function"
  | Inherited _ => Throw (TypeError "store.getActions is not a function")
  | Missing =>
      match parent r with
      | Some p => dispatch p reducerKey
      | None => Return VNull
      end
  end.

(** The two assignments of [registerGenericStore]. *)
Definition written (key : string) (c : config) (r : registry) : registry :=
  Build (<[key := c]> (stores r))
    (<[key := createStoreAtom key]> (storesAtoms r))
    (notifying r) (__unstableAtomResolver r) (resolved r) (parent r).

Definition listening (key : string) (r : registry) : registry :=
  Build (stores r) (storesAtoms r) (notifying r ++ [key])
    (__unstableAtomResolver r) (resolved r) (parent r).

(** [registerGenericStore]: [None] stands for the one call this
    embedding leaves out, a valid adapter registered under the key
    ["__proto__"] (the assignment then replaces the prototype of the
    map rather than adding a property).  The call
    [config.subscribe( globalListener )] comes last, after both
    assignments: what it throws leaves the registry with the store and
    its atom written. *)
Definition registerGenericStore (key : string) (c : config) (r : registry)
  : option (completion unit * registry) :=
  if negb (is_function (getSelectors c)) then
    Some (Throw (TypeError "config.getSelectors must be a function"), r)
  else if negb (is_function (getActions c)) then
    Some (Throw (TypeError "config.getActions must be a function"), r)
  else if negb (is_function (subscribe c)) then
    Some (Throw (TypeError "config.subscribe must be a function"), r)
  else if bool_decide (key = "__proto__") then None
  else
    match subscribe c with
    | Function (Throw e) => Some (Throw e, written key c r)
    | _ => Some (Return tt, listening key (written key c r))
    end.

Definition registerStore (reducerKey : string) (o : options) (r : registry)
  : option (completion unit * registry) :=
  if negb (reducer o) then
    Some (Throw (TypeError "Must specify store reducer"), r)
  else registerGenericStore reducerKey (createNamespace reducerKey o) r.

Definition registerAtomicStore
    (reducerKey : string) (o : options) (r : registry)
  : option (completion unit * registry) :=
  registerGenericStore reducerKey (createAtomicStore o) r.

(** [storeConfigs.forEach( registry.registerStore )], stopping at the
    first registration that throws. *)
Fixpoint registerStores (configs : list (string * options)) (r : registry)
  : option (completion unit * registry) :=
  match configs with
  | [] => Some (Return tt, r)
  | (name, o) :: rest =>
      match registerStore name o r with
      | Some (Return _, r') => registerStores rest r'
      | other => other
      end
  end.

(** The last statement of the source, [parent.subscribe( globalListener )],
    acts on the listener array of the parent (see [ListenerBus]). *)
Definition createRegistry
    (storeConfigs : list (string * options)) (parent : option registry)
  : option (completion registry) :=
  let r := Build ∅ ∅ [] None [] parent in
  match registerGenericStore "core/data" createCoreDataStore r with
  | Some (Return _, r') =>
      match registerStores storeConfigs r' with
      | Some (Return _, r'') => Some (Return r'')
      | Some (Throw e, _) => Some (Throw e)
      | None => None
      end
  | Some (Throw e, _) => Some (Throw e)
  | None => None
  end.

(** Registration calls a consumer makes on a registry; a consumer
    that catches a thrown error goes on with the registry as the
    failed call left it. *)
Inductive registration : Type :=
| RegisterGenericStore (key : string) (c : config)
| RegisterStore (reducerKey : string) (o : options)
| RegisterAtomicStore (reducerKey : string) (o : options).

Definition registration_key (op : registration) : string :=
  match op with
  | RegisterGenericStore key _
  | RegisterStore key _
  | RegisterAtomicStore key _ => key
  end.

(** The adapter a registration call hands to [registerGenericStore]. *)
Definition registration_config (op : registration) : config :=
  match op with
  | RegisterGenericStore _ c => c
  | RegisterStore key o => createNamespace key o
  | RegisterAtomicStore _ o => createAtomicStore o
  end.

(** The checks a registration call makes before it writes anything. *)
Definition accepted (op : registration) : bool :=
  let c := registration_config op in
  match op with
  | RegisterStore _ o => reducer o
  | _ => true
  end
  && is_function (getSelectors c)
  && is_function (getActions c)
  && is_function (subscribe c).

Definition register (op : registration) (r : registry)
  : option (completion unit * registry) :=
  match op with
  | RegisterGenericStore key c => registerGenericStore key c r
  | RegisterStore key o => registerStore key o r
  | RegisterAtomicStore key o => registerAtomicStore key o r
  end.

Fixpoint register_all (ops : list registration) (r : registry)
  : option registry :=
  match ops with
  | [] => Some r
  | op :: rest =>
      match register op r with
      | Some (_, r') => register_all rest r'
      | None => None
      end
  end.

(** A key found neither in [r] nor in any of its ancestors, and not a
    name inherited from [Object.prototype]. *)
Fixpoint unknown (r : registry) (reducerKey : string) : Prop :=
  read (stores r) reducerKey = Missing
  ∧ match parent r with
    | Some p => unknown p reducerKey
    | None => True
    end.

(** Every key of [stores] has its atom. *)
Definition atoms_cover_stores (r : registry) : Prop :=
  ∀ key, is_Some (stores r !! key) -> is_Some (storesAtoms r !! key).

(** *** Properties of [select], [dispatch] and registration *)

Lemma set_own_resolver (r : registry) :
  __unstableSetAtomResolver (__unstableGetAtomResolver r) r = r.
Proof. by destruct r. Qed.

(** Induction along the chain of parents. *)
Fixpoint registry_chain_ind (P : registry -> Prop)
    (Hroot : ∀ r, parent r = None -> P r)
    (Hchild : ∀ r p, parent r = Some p -> P p -> P r)
    (r : registry) : P r :=
  match r with
  | Build s a n v c None => Hroot (Build s a n v c None) eq_refl
  | Build s a n v c (Some p) =>
      Hchild (Build s a n v c (Some p)) p eq_refl
        (registry_chain_ind P Hroot Hchild p)
  end.

Lemma select_with_unfold (v : option nat) (r : registry) (key : string) :
  select_with v r key =
  let r' := __unstableSetAtomResolver v r in
  let found (p : property bundle) :=
    match resolve_atom r' key with
    | (Return _, r'') => (call p "store.getSelectors is not a function", r'')
    | (Throw e, r'') => (Throw e, r'')
    end in
  match read (stores r) key with
  | Own store => found (getSelectors store)
  | Inherited _ => found NotAFunction
  | Missing =>
      match parent r with
      | Some p =>
          let '(ret, p') := select_with v p key in
          (ret, set_parent (Some p') r')
      | None => (Return VUndefined, r')
      end
  end.
Proof. by destruct r. Qed.

Lemma dispatch_unfold (r : registry) (key : string) :
  dispatch r key =
  match read (stores r) key with
  | Own store => call (getActions store) "store.getActions is not a function"
  | Inherited _ => Throw (TypeError "store.getActions is not a function")
  | Missing =>
      match parent r with
      | Some p => dispatch p key
      | None => Return VNull
      end
  end.
Proof. by destruct r. Qed.

Lemma getStoreAtom_unfold (r : registry) (key : string) :
  getStoreAtom r key =
  match read (storesAtoms r) key with
  | Own a => Return (VAtom a)
  | Inherited name => Return (VInherited name)
  | Missing =>
      match parent r with
      | Some p => getStoreAtom p key
      | None => Throw (TypeError "Cannot read property 'getStoreAtom' of null")
      end
  end.
Proof. by destruct r. Qed.

Lemma select_with_unknown (r : registry) (key : string) :
  unknown r key -> ∀ v, (select_with v r key).1 = Return VUndefined.
Proof.
  induction r as [r Hroot | r p Hp IH] using registry_chain_ind;
    intros Hunk v; rewrite select_with_unfold; cbn zeta;
    destruct r as [s a n w c q]; cbn in Hunk, Hroot || cbn in Hunk, Hp;
    destruct Hunk as [Hmiss Hup]; cbn [stores parent]; rewrite Hmiss.
  - by subst q.
  - subst q. specialize (IH Hup v).
    destruct (select_with v p key) as [ret p']. by cbn in *.
Qed.

Lemma select_with_local (v : option nat) (r : registry) (key : string)
    (store : config) (b : bundle) :
  atoms_cover_stores r ->
  stores r !! key = Some store ->
  getSelectors store = Function b ->
  (select_with v r key).1 = Return (VBundle b).
Proof.
  intros Hcover Hstore Hsel. rewrite select_with_unfold. cbn zeta.
  rewrite (read_own _ _ _ Hstore), Hsel.
  unfold resolve_atom, __unstableGetAtomResolver.
  cbn [__unstableSetAtomResolver __unstableAtomResolver].
  destruct v as [f |]; [| done].
  destruct (Hcover key) as [x Hx]; [by eexists |].
  rewrite getStoreAtom_unfold. cbn [__unstableSetAtomResolver storesAtoms].
  by rewrite (read_own _ _ _ Hx).
Qed.

(** C4, as amended: for a key that is neither registered locally nor a
    name inherited from [Object.prototype], [select] returns [undefined]
    and leaves the registry as it was when there is no parent; it returns
    [undefined] when no ancestor knows the key either; and when the
    parent has a store registered under the key it returns that store's
    selector bundle. *)
Theorem select_not_registered_locally (r : registry) (key : string) :
  read (stores r) key = Missing ->
  (parent r = None -> select r key = (Return VUndefined, r))
  ∧ (unknown r key -> (select r key).1 = Return VUndefined)
  ∧ (∀ p store b,
       parent r = Some p ->
       atoms_cover_stores p ->
       stores p !! key = Some store ->
       getSelectors store = Function b ->
       (select r key).1 = Return (VBundle b)).
Proof.
  intros Hmiss. unfold select. split; [| split].
  - intros Hroot. rewrite select_with_unfold. cbn zeta.
    by rewrite Hmiss, Hroot, set_own_resolver.
  - intros Hunk. by apply select_with_unknown.
  - intros p store b Hp Hcover Hstore Hsel.
    rewrite select_with_unfold. cbn zeta. rewrite Hmiss, Hp.
    pose proof (select_with_local (__unstableGetAtomResolver r) p key
                  store b Hcover Hstore Hsel) as H.
    destruct (select_with (__unstableGetAtomResolver r) p key). exact H.
Qed.

(** C5, as amended: [dispatch] returns the action bundle of the store
    registered locally under the key; for a key that is neither
    registered locally nor a name inherited from [Object.prototype] it
    returns what the parent's [dispatch] returns when there is a parent,
    and [null], the value of the absent parent, when there is none. *)
Theorem dispatch_resolution_order (r : registry) (key : string) :
  (∀ store b,
     stores r !! key = Some store -> getActions store = Function b ->
     dispatch r key = Return (VBundle b))
  ∧ (read (stores r) key = Missing ->
     ∀ p, parent r = Some p -> dispatch r key = dispatch p key)
  ∧ (read (stores r) key = Missing ->
     parent r = None -> dispatch r key = Return VNull).
Proof.
  split; [| split].
  - intros store b Hstore Hact. rewrite dispatch_unfold.
    by rewrite (read_own _ _ _ Hstore), Hact.
  - intros Hmiss p Hp. rewrite dispatch_unfold. by rewrite Hmiss, Hp.
  - intros Hmiss Hroot. rewrite dispatch_unfold. by rewrite Hmiss, Hroot.
Qed.

(** C6: [registerGenericStore] with an adapter lacking a callable
    [getSelectors], [getActions] or [subscribe] throws (a [TypeError], the
    error the source raises for a bad configuration) and leaves the whole
    registry, so the store map and every store registered before, as it
    was. *)
Theorem registerGenericStore_rejects (key : string) (c : config) (r : registry) :
  is_function (getSelectors c) = false
  ∨ is_function (getActions c) = false
  ∨ is_function (subscribe c) = false ->
  ∃ message,
    registerGenericStore key c r = Some (Throw (TypeError message), r).
Proof.
  intros H. unfold registerGenericStore.
  destruct (is_function (getSelectors c)); cbn [negb]; [| by eexists].
  destruct (is_function (getActions c)); cbn [negb]; [| by eexists].
  destruct (is_function (subscribe c)); cbn [negb]; [| by eexists].
  by destruct H as [? | [? | ?]].
Qed.

Lemma registerGenericStore_total (key : string) (c : config) (r : registry) :
  key ≠ "__proto__" -> is_Some (registerGenericStore key c r).
Proof.
  intros Hkey. unfold registerGenericStore.
  repeat (destruct (negb _); [by eexists |]).
  rewrite bool_decide_eq_false_2 by done.
  destruct (subscribe c) as [| [[] | e]]; by eexists.
Qed.

(** The three ways a call of [registerGenericStore] ends: a check
    fails, [config.subscribe] throws, or the call returns. *)
Lemma registerGenericStore_cases (key : string) (c : config)
    (r r' : registry) (ret : completion unit) :
  registerGenericStore key c r = Some (ret, r') ->
  (is_function (getSelectors c) && is_function (getActions c)
   && is_function (subscribe c) = false
   ∧ (∃ message, ret = Throw (TypeError message)) ∧ r' = r)
  ∨ (is_function (getSelectors c) && is_function (getActions c)
     && is_function (subscribe c) = true
     ∧ key ≠ "__proto__"
     ∧ ((∃ e, subscribe c = Function (Throw e)
              ∧ ret = Throw e ∧ r' = written key c r)
        ∨ (subscribe c = Function (Return tt)
           ∧ ret = Return tt ∧ r' = listening key (written key c r)))).
Proof.
  unfold registerGenericStore.
  destruct (is_function (getSelectors c)); cbn [negb andb];
    [| intros [= <- <-]; left; by eauto].
  destruct (is_function (getActions c)); cbn [negb andb];
    [| intros [= <- <-]; left; by eauto].
  destruct (subscribe c) as [| [[] | e]] eqn:Hsub; cbn [is_function negb];
    [intros [= <- <-]; left; by eauto | |];
    (case_bool_decide; [done |]); intros [= <- <-]; right;
    (split; [done |]); (split; [done |]).
  - by right.
  - left. by exists e.
Qed.

Lemma registerGenericStore_cover (key : string) (c : config)
    (r r' : registry) (ret : completion unit) :
  registerGenericStore key c r = Some (ret, r') ->
  atoms_cover_stores r -> atoms_cover_stores r'.
Proof.
  intros H Hcover.
  apply registerGenericStore_cases in H
    as [(_ & _ & ->) | (_ & _ & [(e & _ & _ & ->) | (_ & _ & ->)])];
    [done | |];
    intros k; cbn [listening written stores storesAtoms];
    (destruct (decide (key = k)) as [-> | Hne];
     [ rewrite !lookup_insert_eq; by eauto
     | rewrite !lookup_insert_ne by done; apply Hcover ]).
Qed.

Lemma registerGenericStore_parent (key : string) (c : config)
    (r r' : registry) (ret : completion unit) :
  registerGenericStore key c r = Some (ret, r') -> parent r' = parent r.
Proof.
  intros H.
  by apply registerGenericStore_cases in H
    as [(_ & _ & ->) | (_ & _ & [(e & _ & _ & ->) | (_ & _ & ->)])].
Qed.

Lemma register_total (op : registration) (r : registry) :
  registration_key op ≠ "__proto__" -> is_Some (register op r).
Proof.
  destruct op as [key c | key o | key o]; cbn; intros Hkey.
  - by apply registerGenericStore_total.
  - unfold registerStore. destruct (negb _); [by eexists |].
    by apply registerGenericStore_total.
  - by apply registerGenericStore_total.
Qed.

Lemma register_cover (op : registration) (r r' : registry)
    (ret : completion unit) :
  register op r = Some (ret, r') ->
  atoms_cover_stores r -> atoms_cover_stores r'.
Proof.
  destruct op as [key c | key o | key o]; cbn.
  - apply registerGenericStore_cover.
  - unfold registerStore. destruct (negb _).
    + by intros [= <- <-].
    + apply registerGenericStore_cover.
  - apply registerGenericStore_cover.
Qed.

Lemma registerStores_cover (configs : list (string * options))
    (r r' : registry) (ret : completion unit) :
  registerStores configs r = Some (ret, r') ->
  atoms_cover_stores r -> atoms_cover_stores r'.
Proof.
  revert r. induction configs as [| [name o] rest IH]; intros r; cbn.
  - by intros [= <- <-].
  - destruct (registerStore name o r) as [[[u | e] r1] |] eqn:Hreg;
      [| | done].
    + intros Hrest Hcover. eapply IH; [exact Hrest |].
      by eapply (register_cover (RegisterStore name o)).
    + intros [= <- <-] Hcover.
      by eapply (register_cover (RegisterStore name o)).
Qed.

Lemma createRegistry_cover (storeConfigs : list (string * options))
    (p : option registry) (r : registry) :
  createRegistry storeConfigs p = Some (Return r) -> atoms_cover_stores r.
Proof.
  unfold createRegistry.
  destruct (registerGenericStore _ _ _) as [[[u | e] r1] |] eqn:Hcore;
    [| done | done].
  destruct (registerStores _ _) as [[[u' | e] r2] |] eqn:Hrest;
    [| done | done].
  intros [= <-]. eapply registerStores_cover; [exact Hrest |].
  eapply registerGenericStore_cover; [exact Hcore |].
  intros k [x Hx]. cbn [stores] in Hx. by rewrite lookup_empty in Hx.
Qed.

Lemma register_all_cover (ops : list registration) (r r' : registry) :
  register_all ops r = Some r' ->
  atoms_cover_stores r -> atoms_cover_stores r'.
Proof.
  revert r. induction ops as [| op rest IH]; intros r; cbn.
  - by intros [= <-].
  - destruct (register op r) as [[ret r1] |] eqn:Hop; [| done].
    intros Hrest Hcover. eapply IH; [exact Hrest |].
    by eapply register_cover.
Qed.

Lemma register_all_total (ops : list registration) (r : registry) :
  Forall (fun op => registration_key op ≠ "__proto__") ops ->
  is_Some (register_all ops r).
Proof.
  intros Hops. revert r.
  induction Hops as [| op rest Hop _ IH]; intros r; cbn; [by eexists |].
  destruct (register_total op r Hop) as [[ret r1] ->]. apply IH.
Qed.


(** *** Further properties of registration, [select] and [getStoreAtom] *)

Lemma read_insert_ne {A} (object : gmap string A) (key key' : string) (a : A) :
  key ≠ key' -> read (<[key := a]> object) key' = read object key'.
Proof. intros Hne. unfold read. by rewrite lookup_insert_ne. Qed.

Lemma registerGenericStore_success (key : string) (c : config)
    (r r' : registry) :
  registerGenericStore key c r = Some (Return tt, r') ->
  is_function (getSelectors c) = true
  ∧ is_function (getActions c) = true
  ∧ is_function (subscribe c) = true
  ∧ r' = Build (<[key := c]> (stores r))
           (<[key := createStoreAtom key]> (storesAtoms r))
           (notifying r ++ [key])
           (__unstableAtomResolver r) (resolved r) (parent r).
Proof.
  intros H.
  apply registerGenericStore_cases in H
    as [(_ & [m Hm] & _) | (Hok & _ & [(e & _ & He & _) | (_ & _ & ->)])];
    [done | done |].
  by apply andb_true_iff in Hok as [[? ?]%andb_true_iff ?].
Qed.

Lemma resolver_after_select (r : registry) (key : string) :
  ∀ v, __unstableAtomResolver (select_with v r key).2 = v.
Proof.
  induction r as [r Hroot | r p Hp IH] using registry_chain_ind;
    intros v; rewrite select_with_unfold; cbn zeta;
    (destruct (read (stores r) key) as [store | name |];
     [ unfold resolve_atom, __unstableGetAtomResolver;
       cbn [__unstableSetAtomResolver __unstableAtomResolver];
       destruct v as [f |]; [| done];
       by destruct (getStoreAtom _ key)
     | unfold resolve_atom, __unstableGetAtomResolver;
       cbn [__unstableSetAtomResolver __unstableAtomResolver];
       destruct v as [f |]; [| done];
       by destruct (getStoreAtom _ key)
     | ]).
  - by rewrite Hroot.
  - rewrite Hp. by destruct (select_with v p key).
Qed.

(** X1: A store registered with success is the one [select], [dispatch]
    and [getStoreAtom] answer with under its key, whatever was registered
    under the key before and whatever the parent holds. *)
Theorem registered_store_is_found (key : string) (c : config)
    (r r' : registry) :
  registerGenericStore key c r = Some (Return tt, r') ->
  ∃ selectors actions,
    getSelectors c = Function selectors
    ∧ getActions c = Function actions
    ∧ (select r' key).1 = Return (VBundle selectors)
    ∧ dispatch r' key = Return (VBundle actions)
    ∧ getStoreAtom r' key = Return (VAtom (createStoreAtom key)).
Proof.
  intros (Hsel & Hact & _ & ->)%registerGenericStore_success.
  destruct (getSelectors c) as [| selectors] eqn:Hs; [done |].
  destruct (getActions c) as [| actions] eqn:Ha; [done |].
  exists selectors, actions. split; [done |]. split; [done |].
  set (r' := Build _ _ _ _ _ _).
  assert (Hstore : stores r' !! key = Some c) by apply lookup_insert_eq.
  assert (Hatom : storesAtoms r' !! key = Some (createStoreAtom key))
    by apply lookup_insert_eq.
  split; [| split].
  - unfold select. rewrite select_with_unfold. cbn zeta.
    change (stores (__unstableSetAtomResolver _ r')) with (stores r').
    rewrite (read_own _ _ _ Hstore), Hs.
    unfold resolve_atom, __unstableGetAtomResolver.
    rewrite set_own_resolver.
    destruct (__unstableAtomResolver r') as [f |]; [| done].
    rewrite getStoreAtom_unfold. by rewrite (read_own _ _ _ Hatom).
  - rewrite dispatch_unfold. by rewrite (read_own _ _ _ Hstore), Ha.
  - rewrite getStoreAtom_unfold. by rewrite (read_own _ _ _ Hatom).
Qed.

Lemma getStoreAtom_other (key key' : string) (c : config)
    (r r' : registry) (ret : completion unit) :
  registerGenericStore key c r = Some (ret, r') -> key ≠ key' ->
  getStoreAtom r' key' = getStoreAtom r key'.
Proof.
  intros Hreg Hne.
  apply registerGenericStore_cases in Hreg
    as [(_ & _ & ->) | (_ & _ & [(e & _ & _ & ->) | (_ & _ & ->)])];
    [done | |];
    rewrite !getStoreAtom_unfold; cbn [listening written storesAtoms parent];
    by rewrite read_insert_ne.
Qed.

Lemma select_other (key key' : string) (c : config)
    (r r' : registry) (ret : completion unit) :
  registerGenericStore key c r = Some (ret, r') -> key ≠ key' ->
  (select r' key').1 = (select r key').1.
Proof.
  intros Hreg Hne.
  pose proof (getStoreAtom_other key key' c r r' ret Hreg Hne) as Hatom.
  assert (Hsame : read (stores r') key' = read (stores r) key'
                  ∧ __unstableAtomResolver r' = __unstableAtomResolver r
                  ∧ parent r' = parent r).
  { apply registerGenericStore_cases in Hreg
      as [(_ & _ & ->) | (_ & _ & [(e & _ & _ & ->) | (_ & _ & ->)])];
      [done | |]; cbn [listening written stores]; by rewrite read_insert_ne. }
  destruct Hsame as (Hread & Hres & Hpar).
  unfold select. rewrite !select_with_unfold. cbn zeta.
  unfold resolve_atom, __unstableGetAtomResolver.
  rewrite !set_own_resolver, Hread, Hres, Hpar, Hatom.
  destruct (read (stores r) key') as [store | name |].
  - destruct (__unstableAtomResolver r); [| done].
    by destruct (getStoreAtom r key').
  - destruct (__unstableAtomResolver r); [| done].
    by destruct (getStoreAtom r key').
  - destruct (parent r) as [p |]; [| done].
    by destruct (select_with _ p key').
Qed.

(** X2: Registering a store under one key, other than ["__proto__"],
    does not change what [select], [dispatch] and [getStoreAtom] answer
    for any other key, whether the call returns or throws.  (Under the
    key ["__proto__"] the assignment [stores[ key ] = config] replaces
    the prototype of the map, and the reads of other keys then fall to
    the adapter: that call is kept out here.) *)
Theorem registration_leaves_other_keys (key key' : string) (c : config)
    (r r' : registry) (ret : completion unit) :
  key ≠ "__proto__" ->
  registerGenericStore key c r = Some (ret, r') ->
  key ≠ key' ->
  (select r' key').1 = (select r key').1
  ∧ dispatch r' key' = dispatch r key'
  ∧ getStoreAtom r' key' = getStoreAtom r key'.
Proof.
  intros _ Hreg Hne. split; [| split].
  - by eapply select_other.
  - apply registerGenericStore_cases in Hreg
      as [(_ & _ & ->) | (_ & _ & [(e & _ & _ & ->) | (_ & _ & ->)])];
      [done | |];
      rewrite !dispatch_unfold; cbn [listening written stores parent];
      by rewrite read_insert_ne.
  - by eapply getStoreAtom_other.
Qed.

Lemma register_generic (op : registration) (r : registry) :
  register op r
  = if match op with RegisterStore _ o => reducer o | _ => true end
    then registerGenericStore (registration_key op)
           (registration_config op) r
    else Some (Throw (TypeError "Must specify store reducer"), r).
Proof.
  destruct op as [key c | key o | key o]; cbn; [done | | done].
  unfold registerStore. by destruct (reducer o).
Qed.


(** A key with an atom neither in [r] nor in any ancestor, and not a
    name inherited from [Object.prototype]. *)
Fixpoint atomless (r : registry) (key : string) : Prop :=
  read (storesAtoms r) key = Missing
  ∧ match parent r with
    | Some p => atomless p key
    | None => True
    end.

(** X4: [getStoreAtom] of a key that no registry of the chain has an atom
    for throws: the root reads [getStoreAtom] off its [null] parent. *)
Theorem getStoreAtom_unknown_key_throws (r : registry) (key : string) :
  atomless r key ->
  getStoreAtom r key
  = Throw (TypeError "Cannot read property 'getStoreAtom' of null").
Proof.
  induction r as [r Hroot | r p Hp IH] using registry_chain_ind;
    intros Hless; rewrite getStoreAtom_unfold;
    destruct r as [s a n w c q]; cbn in Hless, Hroot || cbn in Hless, Hp;
    destruct Hless as [Hmiss Hup]; cbn [storesAtoms parent]; rewrite Hmiss.
  - by subst q.
  - subst q. by apply IH.
Qed.

(** X5: With an atom resolver set, [select] of a store registered locally
    calls the resolver once, with the atom of that store, and returns the
    store's selectors; without one it calls nothing. *)
Theorem select_resolves_local_atom (r : registry) (key : string)
    (store : config) (a : atom) :
  stores r !! key = Some store ->
  storesAtoms r !! key = Some a ->
  select r key
  = (call (getSelectors store) "store.getSelectors is not a function",
     match __unstableAtomResolver r with
     | Some f => record_resolved f (VAtom a) r
     | None => r
     end).
Proof.
  intros Hstore Hatom. unfold select. rewrite select_with_unfold. cbn zeta.
  rewrite set_own_resolver, (read_own _ _ _ Hstore).
  unfold resolve_atom, __unstableGetAtomResolver.
  destruct (__unstableAtomResolver r) as [f |]; [| done].
  rewrite getStoreAtom_unfold. by rewrite (read_own _ _ _ Hatom).
Qed.

(** X6: [select] of a key left to the parent first overwrites the parent's
    atom resolver with the child's own, be it [undefined]: this is what
    the parent holds afterwards. *)
Theorem select_hands_resolver_to_parent (r p : registry) (key : string) :
  read (stores r) key = Missing ->
  parent r = Some p ->
  ∃ p', parent (select r key).2 = Some p'
        ∧ __unstableAtomResolver p' = __unstableAtomResolver r.
Proof.
  intros Hmiss Hp. unfold select. rewrite select_with_unfold. cbn zeta.
  rewrite Hmiss, Hp.
  pose proof (resolver_after_select p key (__unstableGetAtomResolver r)) as H.
  destruct (select_with (__unstableGetAtomResolver r) p key) as [ret p'].
  exists p'. by split.
Qed.

Lemma registerGenericStore_dom (key : string) (c : config) (r r' : registry) :
  registerGenericStore key c r = Some (Return tt, r') ->
  dom (stores r') = {[ key ]} ∪ dom (stores r)
  ∧ parent r' = parent r
  ∧ __unstableAtomResolver r' = __unstableAtomResolver r.
Proof.
  intros (_ & _ & _ & ->)%registerGenericStore_success. cbn [stores parent].
  by rewrite dom_insert_L.
Qed.

Lemma registerStores_dom (configs : list (string * options))
    (r r' : registry) :
  registerStores configs r = Some (Return tt, r') ->
  dom (stores r') = list_to_set configs.*1 ∪ dom (stores r)
  ∧ parent r' = parent r
  ∧ __unstableAtomResolver r' = __unstableAtomResolver r.
Proof.
  revert r. induction configs as [| [name o] rest IH]; intros r; cbn.
  - intros [= <-]. split; [set_solver | done].
  - destruct (registerStore name o r) as [[[[] | e] r1] |] eqn:Hreg;
      [| done | done].
    intros Hrest. destruct (IH r1 Hrest) as (Hdom & Hpar & Hres).
    revert Hreg. unfold registerStore. destruct (negb _); [done |].
    intros (Hd1 & Hp1 & Hr1)%registerGenericStore_dom.
    rewrite Hdom, Hd1, Hpar, Hp1, Hres, Hr1. split; [set_solver | done].
Qed.


End WithStores.

Arguments Config {bundle} getSelectors getActions subscribe.
Arguments getSelectors {bundle} c.
Arguments getActions {bundle} c.
Arguments subscribe {bundle} c.
Arguments VUndefined {bundle}.
Arguments VNull {bundle}.
Arguments VBundle {bundle} b.
Arguments VAtom {bundle} a.
Arguments VInherited {bundle} name.
Arguments Build {bundle}.
Arguments stores {bundle} r.
Arguments storesAtoms {bundle} r.
Arguments parent {bundle} r.
Arguments getStoreAtom {bundle} r key.
Arguments select {bundle} r reducerKey.
Arguments dispatch {bundle} r reducerKey.
Arguments registerGenericStore {bundle} key c r.
Arguments RegisterGenericStore {bundle options} key c.
Arguments RegisterStore {bundle options} reducerKey o.
Arguments RegisterAtomicStore {bundle options} reducerKey o.
Arguments atoms_cover_stores {bundle} r.

(** *** A parent and a child registry on concrete adapters *)

Definition adapter (name : string) : config string :=
  Config (Function (name +:+ " selectors")) (Function (name +:+ " actions"))
    (Function (Return tt)).

Definition namespaces (key : string) (o : bool) : config string := adapter key.

Definition atomic (o : bool) : config string := adapter "atomic".

Definition create (storeConfigs : list (string * bool))
    (p : option (registry string))
  : option (completion (registry string)) :=
  createRegistry string bool id namespaces (adapter "core/data")
    storeConfigs p.

Definition registry_of (c : option (completion (registry string)))
  : registry string :=
  match c with
  | Some (Return r) => r
  | _ => Build ∅ ∅ [] None [] None
  end.

Definition root : registry string := registry_of (create [("k", true)] None).

Definition child : registry string := registry_of (create [] (Some root)).

Definition broken : config string :=
  Config (Function "selectors") NotAFunction (Function (Return tt)).

Example root_created : create [("k", true)] None = Some (Return root).
Proof. vm_compute. reflexivity. Qed.

Example child_created : create [] (Some root) = Some (Return child).
Proof. vm_compute. reflexivity. Qed.

Example root_covered : atoms_cover_stores root.
Proof.
  exact (createRegistry_cover string bool id namespaces atomic
           (adapter "core/data") [("k", true)] None root root_created).
Qed.

Example child_selects_own_store :
  (select child "core/data").1 = Return (VBundle "core/data selectors").
Proof. vm_compute. reflexivity. Qed.

Example child_selects_parent_store :
  (select child "k").1 = Return (VBundle "k selectors").
Proof. vm_compute. reflexivity. Qed.

(** C4 fails as stated: ["toString"] is not registered in [root], which has
    no parent, yet [select] throws on it. *)
Lemma select_inherited_name_throws :
  parent root = None
  ∧ stores root !! "toString" = None
  ∧ (select root "toString").1
    = Throw (TypeError "store.getSelectors is not a function").
Proof. vm_compute. repeat split; reflexivity. Qed.

Lemma select_not_registered_locally_witness :
  read (stores child) "k" = Missing
  ∧ (select child "k").1 = Return (VBundle "k selectors").
Proof.
  assert (H : read (stores child) "k" = Missing)
    by (vm_compute; reflexivity).
  split; [exact H |].
  refine (proj2 (proj2 (select_not_registered_locally string child "k" H))
            root (adapter "k") "k selectors" _ root_covered _ _).
  - reflexivity.
  - vm_compute. reflexivity.
  - reflexivity.
Defined.

(** C5 fails as stated: on a registry without parent, [dispatch] of a key
    that is not registered returns [null], not [undefined]. *)
Lemma dispatch_unknown_key_is_null :
  parent root = None
  ∧ stores root !! "unknown" = None
  ∧ dispatch root "unknown" = Return VNull
  ∧ dispatch root "unknown" ≠ Return VUndefined.
Proof. vm_compute. repeat split; try reflexivity. discriminate. Qed.

Lemma dispatch_resolution_order_witness :
  read (stores child) "k" = Missing
  ∧ parent child = Some root
  ∧ dispatch child "k" = dispatch root "k".
Proof.
  assert (H : read (stores child) "k" = Missing)
    by (vm_compute; reflexivity).
  assert (Hp : parent child = Some root) by reflexivity.
  split; [exact H |]. split; [exact Hp |].
  exact (proj1 (proj2 (dispatch_resolution_order string child "k"))
           H root Hp).
Defined.

Lemma registerGenericStore_rejects_witness :
  is_function (getActions broken) = false
  ∧ ∃ message,
      registerGenericStore "shop" broken root
      = Some (Throw (TypeError message), root).
Proof.
  assert (H : is_function (getActions broken) = false) by reflexivity.
  split; [exact H |].
  exact (registerGenericStore_rejects string "shop" broken root
           (or_intror (or_introl H))).
Defined.

Definition registrations : list (registration string bool) :=
  [ RegisterGenericStore "shop" (adapter "shop");
    RegisterGenericStore "bad" broken;
    RegisterStore "missing reducer" false;
    RegisterAtomicStore "cart" true ].


(** *** The further properties on the concrete registries *)

Arguments __unstableAtomResolver {bundle} r.
Arguments __unstableSetAtomResolver {bundle} v r.
Arguments record_resolved {bundle} f v r.
Arguments atomless {bundle} r key.
Arguments notifying {bundle} r.
Arguments written {bundle} key c r.

Definition registered (key : string) (c : config string)
    (r : registry string) : registry string :=
  match registerGenericStore key c r with
  | Some (_, r') => r'
  | None => r
  end.

Definition shop : registry string := registered "shop" (adapter "shop") root.

Definition observed : registry string :=
  __unstableSetAtomResolver (Some 5%nat) root.

Example shop_registered :
  registerGenericStore "shop" (adapter "shop") root = Some (Return tt, shop).
Proof. vm_compute. reflexivity. Qed.

Lemma registered_store_is_found_witness :
  registerGenericStore "shop" (adapter "shop") root = Some (Return tt, shop)
  ∧ (select shop "shop").1 = Return (VBundle "shop selectors").
Proof.
  split; [exact shop_registered |].
  destruct (registered_store_is_found string "shop" (adapter "shop") root
              shop shop_registered) as (s & a & Hs & _ & Hsel & _).
  injection Hs as <-. exact Hsel.
Defined.

Lemma registration_leaves_other_keys_witness :
  "shop" ≠ "__proto__"
  ∧ "shop" ≠ "k"
  ∧ (select shop "k").1 = (select root "k").1.
Proof.
  assert (Hkey : "shop" ≠ "__proto__") by discriminate.
  assert (Hne : "shop" ≠ "k") by discriminate.
  split; [exact Hkey |]. split; [exact Hne |].
  exact (proj1 (registration_leaves_other_keys string "shop" "k"
                  (adapter "shop") root shop (Return tt) Hkey
                  shop_registered Hne)).
Defined.

(** An adapter whose [subscribe] throws. *)
Definition deaf : config string :=
  Config (Function "selectors") (Function "actions")
    (Function (Throw (Error "offline"))).

Example deaf_registration_throws :
  register string bool id namespaces atomic
    (RegisterGenericStore "deaf" deaf) root
  = Some (Throw (Error "offline"), written "deaf" deaf root).
Proof. vm_compute. reflexivity. Qed.

Example deaf_is_selected :
  (select (written "deaf" deaf root) "deaf").1
  = Return (VBundle "selectors").
Proof. vm_compute. reflexivity. Qed.


Lemma getStoreAtom_unknown_key_throws_witness :
  atomless child "nowhere"
  ∧ getStoreAtom child "nowhere"
    = Throw (TypeError "Cannot read property 'getStoreAtom' of null").
Proof.
  assert (H : atomless child "nowhere") by (vm_compute; repeat split).
  split; [exact H |].
  exact (getStoreAtom_unknown_key_throws string child "nowhere" H).
Defined.

Lemma select_resolves_local_atom_witness :
  stores observed !! "k" = Some (adapter "k")
  ∧ select observed "k"
    = (Return (VBundle "k selectors"),
       record_resolved 5%nat (VAtom (StoreAtom "k")) observed).
Proof.
  assert (Hstore : stores observed !! "k" = Some (adapter "k"))
    by (vm_compute; reflexivity).
  assert (Hatom : storesAtoms observed !! "k" = Some (StoreAtom "k"))
    by (vm_compute; reflexivity).
  split; [exact Hstore |].
  exact (select_resolves_local_atom string observed "k" (adapter "k")
           (StoreAtom "k") Hstore Hatom).
Defined.

Lemma select_hands_resolver_to_parent_witness :
  read (stores child) "k" = Missing
  ∧ ∃ p', parent (select child "k").2 = Some p'
          ∧ __unstableAtomResolver p' = __unstableAtomResolver child.
Proof.
  assert (H : read (stores child) "k" = Missing)
    by (vm_compute; reflexivity).
  split; [exact H |].
  exact (select_hands_resolver_to_parent string child root "k" H eq_refl).
Defined.


End Registry.

(** ** The public surface of the registry: [withPlugins] and [use] *)

Module Plugins.

(** An attribute of the registry object.  [Builtin name] is the function
    of that name closed over by [createRegistry], [Provided id] a
    function and [Datum id] any other value returned by a plugin,
    [Forward key] the wrapper
    [function () { return registry[ key ].apply( null, arguments ) }],
    [StoresMap] the [stores] object. *)
Inductive attribute : Type :=
| Builtin (name : string)
| Provided (id : nat)
| Datum (id : nat)
| Forward (key : string)
| StoresMap.

Definition callable (a : attribute) : bool :=
  match a with
  | Builtin _ | Provided _ | Forward _ => true
  | Datum _ | StoresMap => false
  end.

(** Objects are allocated in [objects]; the variable [registry] of the
    closure holds the address of one of them. *)
Record surface : Type := Surface {
  objects : list (gmap string attribute);
  registry : nat
}.

Definition registry_object (s : surface) : gmap string attribute :=
  default ∅ (objects s !! registry s).

(** The object literal assigned to [registry], with the two methods
    added to it right after. *)
Definition initial_attributes : gmap string attribute :=
  list_to_map
    [ ("getAtomRegistry", Builtin "getAtomRegistry");
      ("registerGenericStore", Builtin "registerGenericStore");
      ("stores", StoresMap);
      ("namespaces", StoresMap);
      ("subscribe", Builtin "subscribe");
      ("select", Builtin "select");
      ("__experimentalResolveSelect", Builtin "__experimentalResolveSelect");
      ("dispatch", Builtin "dispatch");
      ("use", Builtin "use");
      ("getStoreAtom", Builtin "getStoreAtom");
      ("__unstableGetAtomResolver", Builtin "__unstableGetAtomResolver");
      ("__unstableSetAtomResolver", Builtin "__unstableSetAtomResolver");
      ("registerStore", Builtin "registerStore");
      ("registerAtomicStore", Builtin "registerAtomicStore") ].

Definition withPlugins (attributes : gmap string attribute)
  : gmap string attribute :=
  map_imap
    (fun key a => Some (if callable a then Forward key else a))
    attributes.

Section WithPlugins.

Variable plugin_options : Type.

(** A plugin maps the registry object and the options to an object of
    attributes to merge in. *)
Definition plugin : Type :=
  gmap string attribute -> plugin_options -> gmap string attribute.

(** [registry = { ...registry, ...plugin( registry, options ) }]: a new
    object; what the plugin returns wins over the attributes copied. *)
Definition use (f : plugin) (o : plugin_options) (s : surface)
  : nat * surface :=
  let merged := f (registry_object s) o ∪ registry_object s in
  let address := length (objects s) in
  (address, Surface (objects s ++ [merged]) address).

Lemma use_allocates (f : plugin) (o : plugin_options) (s : surface) :
  registry_object (use f o s).2 = f (registry_object s) o ∪ registry_object s
  ∧ objects (use f o s).2 !! (use f o s).1
    = Some (registry_object (use f o s).2)
  ∧ registry (use f o s).2 = (use f o s).1
  ∧ (use f o s).1 = length (objects s)
  ∧ ∀ a x, objects s !! a = Some x -> objects (use f o s).2 !! a = Some x.
Proof.
  unfold use, registry_object. cbn [fst snd objects registry].
  rewrite list_lookup_middle by done. cbn [default].
  repeat split; try done.
  intros a x Ha. by apply lookup_app_l_Some.
Qed.

(** C7: after two calls of [use], each with a plugin that returns one new
    method, the object the second call returns holds both added methods
    and every attribute of the original registry object; each call's
    result is the object the variable [registry] holds from then on; and
    the objects that were the registry before are distinct from it and
    unchanged (they are replaced, not mutated). *)
Theorem use_twice_exposes_both (s : surface) (f1 f2 : plugin)
    (o1 o2 : plugin_options) (n1 n2 : string) (m1 m2 : attribute) :
  let original := registry_object s in
  let first := use f1 o1 s in
  let second := use f2 o2 first.2 in
  let final := registry_object second.2 in
  objects s !! registry s = Some original ->
  f1 original o1 = {[ n1 := m1 ]} ->
  original !! n1 = None ->
  f2 (registry_object first.2) o2 = {[ n2 := m2 ]} ->
  registry_object first.2 !! n2 = None ->
  objects second.2 !! second.1 = Some final
  ∧ final !! n1 = Some m1
  ∧ final !! n2 = Some m2
  ∧ (∀ name a, original !! name = Some a -> final !! name = Some a)
  ∧ registry first.2 = first.1
  ∧ registry second.2 = second.1
  ∧ first.1 ≠ registry s
  ∧ second.1 ≠ first.1
  ∧ second.1 ≠ registry s
  ∧ objects second.2 !! registry s = Some original
  ∧ objects second.2 !! first.1 = Some (registry_object first.2).
Proof.
  intros original first second final Halloc Hf1 Hn1 Hf2 Hn2.
  destruct (use_allocates f1 o1 s) as (Hobj1 & Hat1 & Hvar1 & Hlen1 & Hold1).
  destruct (use_allocates f2 o2 first.2) as (Hobj2 & Hat2 & Hvar2 & Hlen2 & Hold2).
  fold first in Hobj1, Hat1, Hvar1, Hlen1, Hold1, Hobj2, Hat2, Hvar2, Hlen2, Hold2.
  fold second in Hobj2, Hat2, Hvar2, Hlen2, Hold2.
  fold original in Hobj1. rewrite Hf1 in Hobj1.
  rewrite Hf2, Hobj1 in Hobj2. fold final in Hobj2, Hat2.
  assert (Hn12 : n1 ≠ n2).
  { intros <-. rewrite Hobj1 in Hn2.
    by rewrite lookup_union_l', lookup_singleton_eq in Hn2
      by (rewrite lookup_singleton_eq; eauto). }
  assert (Hlt0 : registry s < length (objects s))
    by (by eapply lookup_lt_Some).
  assert (Hlt1 : first.1 < length (objects first.2))
    by (by eapply lookup_lt_Some).
  split_and!.
  - exact Hat2.
  - rewrite Hobj2. rewrite lookup_union_r by (by apply lookup_singleton_ne).
    by rewrite lookup_union_l', lookup_singleton_eq
      by (rewrite lookup_singleton_eq; eauto).
  - rewrite Hobj2.
    by rewrite lookup_union_l', lookup_singleton_eq
      by (rewrite lookup_singleton_eq; eauto).
  - intros name a Ha. rewrite Hobj2.
    assert (name ≠ n1) by congruence.
    assert (name ≠ n2).
    { intros ->. rewrite Hobj1 in Hn2.
      rewrite lookup_union_r in Hn2 by (by apply lookup_singleton_ne).
      congruence. }
    rewrite !lookup_union_r by (by apply lookup_singleton_ne). done.
  - exact Hvar1.
  - exact Hvar2.
  - lia.
  - lia.
  - lia.
  - apply Hold2, Hold1, Halloc.
  - apply Hold2, Hat1.
Qed.

(** What calling the function [a] runs: a wrapper made by [withPlugins]
    calls [registry[ key ]], the attribute the registry object current at
    the time of the call holds under its key ([None]: there is none and
    the call throws); any other function runs itself. *)
Definition target (s : surface) (a : attribute) : option attribute :=
  match a with
  | Forward key => registry_object s !! key
  | other => Some other
  end.

Lemma withPlugins_lookup_in (attributes : gmap string attribute)
    (name : string) :
  withPlugins attributes !! name
  = (fun a => if callable a then Forward name else a) <$> attributes !! name.
Proof.
  unfold withPlugins. rewrite map_lookup_imap.
  by destruct (attributes !! name).
Qed.

(** X8: The wrapper object built by [withPlugins] from the registry object
    has the names of that object and no other; its functions call what
    the registry holds when they are called, so that after a later [use]
    they reach the plugin's function where the plugin overrides the name
    and the original one elsewhere; a name the plugin adds is not on the
    wrapper, and an attribute that is not a function is copied as it
    was. *)
Theorem wrapper_follows_the_registry (s : surface) (f : plugin)
    (o : plugin_options) (name : string) :
  let wrapper := withPlugins (registry_object s) in
  let later := (use f o s).2 in
  (is_Some (wrapper !! name) <-> is_Some (registry_object s !! name))
  ∧ (∀ a, registry_object s !! name = Some a -> callable a = true ->
       wrapper !! name = Some (Forward name)
       ∧ target later (Forward name)
         = match f (registry_object s) o !! name with
           | Some b => Some b
           | None => Some a
           end)
  ∧ (∀ a, registry_object s !! name = Some a -> callable a = false ->
       wrapper !! name = Some a)
  ∧ (registry_object s !! name = None -> wrapper !! name = None).
Proof.
  cbn zeta. rewrite withPlugins_lookup_in.
  destruct (use_allocates f o s) as (Hobj & _).
  split; [| split; [| split]].
  - by rewrite fmap_is_Some.
  - intros a Ha Hcall. rewrite Ha. cbn. rewrite Hcall. split; [done |].
    change (registry_object (use f o s).2 !! name
            = match f (registry_object s) o !! name with
              | Some b => Some b
              | None => Some a
              end).
    rewrite Hobj.
    destruct (f (registry_object s) o !! name) as [b |] eqn:Hb.
    + by apply lookup_union_Some_l.
    + by rewrite lookup_union_r.
  - intros a Ha Hcall. rewrite Ha. cbn. by rewrite Hcall.
  - by intros ->.
Qed.

End WithPlugins.

(** The surface once [createRegistry] has returned: the registry object
    and the wrapper object handed to the caller. *)
Definition created : surface :=
  Surface [initial_attributes; withPlugins initial_attributes] 0.

(** The wrapper keeps the names of the object it was built from. *)
Lemma withPlugins_lookup (attributes : gmap string attribute) (name : string) :
  withPlugins attributes !! name
  = (fun a => if callable a then Forward name else a) <$> attributes !! name.
Proof.
  unfold withPlugins. rewrite map_lookup_imap.
  by destruct (attributes !! name).
Qed.

Definition persistence (o : gmap string attribute) (_ : unit)
  : gmap string attribute := {[ "persist" := Provided 1 ]}.

Definition controls (o : gmap string attribute) (_ : unit)
  : gmap string attribute := {[ "controls" := Provided 2 ]}.

Lemma use_twice_exposes_both_witness :
  let second := use unit controls tt (use unit persistence tt created).2 in
  registry_object second.2 !! "persist" = Some (Provided 1)
  ∧ registry_object second.2 !! "controls" = Some (Provided 2)
  ∧ registry_object second.2 !! "select" = Some (Builtin "select").
Proof.
  pose proof (use_twice_exposes_both unit created persistence controls tt tt
                "persist" "controls" (Provided 1) (Provided 2)
                eq_refl eq_refl eq_refl eq_refl eq_refl)
    as (_ & H1 & H2 & Hall & _).
  split; [exact H1 |]. split; [exact H2 |].
  apply Hall. reflexivity.
Defined.

(** A plugin that replaces [select] and adds [persist]. *)
Definition overriding (o : gmap string attribute) (_ : unit)
  : gmap string attribute :=
  {[ "select" := Provided 7; "persist" := Provided 1 ]}.

Lemma wrapper_follows_the_registry_witness :
  withPlugins (registry_object created) !! "select" = Some (Forward "select")
  ∧ target (use unit overriding tt created).2 (Forward "select")
    = Some (Provided 7).
Proof.
  exact (proj1 (proj2 (wrapper_follows_the_registry unit created overriding
                         tt "select"))
           (Builtin "select") eq_refl eq_refl).
Defined.

End Plugins.

(** ** The listener bus and the promise-returning selectors *)

Module ListenerBus.
Import JS.

Local Open Scope nat_scope.

(** Functions are compared by identity.  [Callback id] is a function a
    consumer passes to [subscribe]; [Waiter p] is the arrow function the
    executor of promise [p] passes to [subscribe]. *)
Inductive listener : Type :=
| Callback (id : nat)
| Waiter (promise : nat).

#[global] Instance listener_eq_dec : EqDecision listener.
Proof. solve_decision. Defined.

(** lodash [without( array, value )]: a new array. *)
Definition without (array : list listener) (l : listener) : list listener :=
  filter (fun x => x ≠ l) array.

(** lodash [omit( object, names )]. *)
Definition omit {A} (object : gmap string A) (names : list string)
  : gmap string A :=
  foldr delete object names.

Definition omitted : list string :=
  [ "getIsResolving"; "hasStartedResolution"; "hasFinishedResolution";
    "isResolving"; "getCachedResolvers" ].

Section WithStores.

(** [state]: the state of the stores, as selectors read it; [result]: the
    values selectors return; [args]: argument tuples. *)
Variable state : Type.
Variable result : Type.
Variable args : Type.

(** What consumer code and selectors may do to the registry. *)
Inductive action : Type :=
| Subscribe (id : nat)
| Unsubscribe (id : nat)
| Notify
| Update (change : state -> state)
| ResolveSelect (selectorName : string) (arguments : args)
| Raise.

(** A selector of a store, as the stores of the package build them:
    calling it first runs its side effects (a resolver is started, the
    store may notify), then reads its value off the state. *)
Record selector : Type := Selector {
  effects : args -> state -> list action;
  value : args -> state -> result
}.

(** The bundle [select( reducerKey )] returned: its selectors by name;
    [hasFinishedResolution] is its property of that name when that is a
    function.  [callbacks] gives the body of each consumer callback. *)
Variable selectors : gmap string selector.
Variable hasFinishedResolution : option (string -> args -> state -> bool).
Variable callbacks : nat -> list action.

(** A promise is pending ([Starting] while its executor runs, [Waiting]
    once the executor has subscribed the waiter), resolved or rejected.
    [Resolved] keeps, next to the value, the state in which
    [hasFinished()] was found true and the state in which [resolve] was
    called. *)
Inductive status : Type :=
| Starting
| Waiting
| Resolved (v : result) (checked settled : state)
| Rejected (e : error).

Record promise : Type := Promise {
  selectorName : string;
  arguments : args;
  settlement : status
}.

(** [arrays] holds every array allocated for the listeners and the
    variable [listeners] the address of the current one; [invoked] logs
    each call made by a pass of [globalListener], with the number of the
    pass. *)
Record world : Type := World {
  store : state;
  arrays : list (list listener);
  listeners : nat;
  promises : list promise;
  passes : nat;
  invoked : list (nat * listener)
}.

Definition initial (s : state) : world := World s [[]] 0 [] 0 [].

Definition current (w : world) : list listener :=
  default [] (arrays w !! listeners w).

Inductive abrupt : Type :=
| Thrown (e : error)
| Exhausted.

(** A computation ends normally, or abruptly: an exception travels up, or
    the budget of nested calls is used up. *)
Inductive outcome (A : Type) : Type :=
| Normal (a : A) (w : world)
| Abrupt (why : abrupt) (w : world).
Arguments Normal {A} a w.
Arguments Abrupt {A} why w.

Definition world_of {A} (o : outcome A) : world :=
  match o with
  | Normal _ w | Abrupt _ w => w
  end.

Definition completes {A} (o : outcome A) : Prop :=
  match o with
  | Normal _ _ => True
  | Abrupt _ _ => False
  end.

Definition M (A : Type) : Type := world -> outcome A.

Definition ret {A} (a : A) : M A := fun w => Normal a w.

Definition bind {A B} (m : M A) (k : A -> M B) : M B :=
  fun w =>
    match m w with
    | Normal a w' => k a w'
    | Abrupt why w' => Abrupt why w'
    end.

Notation "x <- m ;; k" := (bind m (fun x => k))
  (at level 100, m at next level, right associativity).
Notation "m ;; k" := (bind m (fun _ => k))
  (at level 100, right associativity).

Definition throw {A} (e : error) : M A := fun w => Abrupt (Thrown e) w.

(** [listeners.push( listener )], in place. *)
Definition subscribe (l : listener) : M unit :=
  fun w =>
    Normal tt
      (World (store w)
         (alter (fun array => array ++ [l]) (listeners w) (arrays w))
         (listeners w) (promises w) (passes w) (invoked w)).

(** The function [subscribe( l )] returns:
    [listeners = without( listeners, listener )]. *)
Definition unsubscribe (l : listener) : M unit :=
  fun w =>
    Normal tt
      (World (store w) (arrays w ++ [without (current w) l])
         (length (arrays w)) (promises w) (passes w) (invoked w)).

Definition update (change : state -> state) : M unit :=
  fun w =>
    Normal tt
      (World (change (store w)) (arrays w) (listeners w) (promises w)
         (passes w) (invoked w)).

Definition pending (s : status) : bool :=
  match s with
  | Starting | Waiting => true
  | Resolved _ _ _ | Rejected _ => false
  end.

(** A promise changes state only while pending. *)
Definition settle (p : nat) (s : status) : M unit :=
  fun w =>
    Normal tt
      (World (store w) (arrays w) (listeners w)
         (alter
            (fun pr =>
               if pending (settlement pr)
               then Promise (selectorName pr) (arguments pr) s
               else pr)
            p (promises w))
         (passes w) (invoked w)).

Definition resolve (p : nat) (v : result) (checked : state) : M unit :=
  fun w => settle p (Resolved v checked (store w)) w.

Definition reject (p : nat) (e : error) : M unit := settle p (Rejected e).

Definition log (pass : nat) (l : listener) : M unit :=
  fun w =>
    Normal tt
      (World (store w) (arrays w) (listeners w) (promises w) (passes w)
         (invoked w ++ [(pass, l)])).

(** [Array.prototype.forEach] on the array at address [a]: the length is
    read once, before the first call; [n] indices are still to visit,
    from [k] on, each element being read when its turn comes. *)
Fixpoint forEach (callbackfn : listener -> M unit) (pass a n k : nat)
  : M unit :=
  match n with
  | O => ret tt
  | S n' =>
      fun w =>
        match arrays w !! a ≫= (fun array => array !! k) with
        | Some l =>
            (log pass l ;; callbackfn l ;;
             forEach callbackfn pass a n' (S k)) w
        | None => forEach callbackfn pass a n' (S k) w
        end
  end.

Definition globalListener (callbackfn : listener -> M unit) : M unit :=
  fun w =>
    forEach callbackfn (passes w) (listeners w) (length (current w)) 0
      (World (store w) (arrays w) (listeners w) (promises w)
         (S (passes w)) (invoked w)).

Definition run_with (exec : action -> M unit) : list action -> M unit :=
  fix go (program : list action) : M unit :=
    match program with
    | [] => ret tt
    | a :: rest => exec a ;; go rest
    end.

(** [getResolveSelectors]: the selectors that get a promise-returning
    wrapper (the wrapper itself is [resolveSelect] below).  [memize] only
    caches the object of wrappers built for the last bundle. *)
Definition getResolveSelectors (selectors : gmap string selector)
  : gmap string selector :=
  omit selectors omitted.

(** [getResult = () => selector.apply( null, args )]. *)
Definition getResult (run : list action -> M unit) (sel : selector)
    (arguments : args) : M result :=
  fun w =>
    match run (effects sel arguments (store w)) w with
    | Normal _ w' => Normal (value sel arguments (store w')) w'
    | Abrupt why w' => Abrupt why w'
    end.

Definition not_a_function : error :=
  TypeError "selectors.hasFinishedResolution is not a function".

(** The listener subscribed by the executor of promise [p]. *)
Definition waiter (run : list action -> M unit) (p : nat) : M unit :=
  fun w =>
    match promises w !! p with
    | None => Normal tt w
    | Some pr =>
        match hasFinishedResolution,
              getResolveSelectors selectors !! selectorName pr with
        | Some finished, Some sel =>
            if finished (selectorName pr) (arguments pr) (store w) then
              (unsubscribe (Waiter p) ;;
               v <- getResult run sel (arguments pr) ;;
               resolve p v (store w)) w
            else Normal tt w
        | _, _ => Abrupt (Thrown not_a_function) w
        end
    end.

Definition call (run : list action -> M unit) (l : listener) : M unit :=
  match l with
  | Callback id => run (callbacks id)
  | Waiter p => waiter run p
  end.

(** The function given to [new Promise], for promise [p]. *)
Definition executor (run : list action -> M unit) (p : nat)
    (name : string) (arguments : args) (sel : selector) : M unit :=
  v <- getResult run sel arguments ;;
  match hasFinishedResolution with
  | None => throw not_a_function
  | Some finished =>
      fun w =>
        if finished name arguments (store w) then resolve p v (store w) w
        else (settle p Waiting ;; subscribe (Waiter p)) w
  end.

(** [__experimentalResolveSelect( reducerKey )[ name ]( ...arguments )]:
    the promise is allocated, its executor runs at once and an exception
    it throws rejects the promise.  A name without wrapper is taken to
    read [undefined], whose call throws; the names every object inherits
    from [Object.prototype], which read a function of the prototype
    instead, are not covered. *)
Definition resolveSelect (run : list action -> M unit)
    (name : string) (arguments : args) : M unit :=
  fun w =>
    match getResolveSelectors selectors !! name with
    | None => Abrupt (Thrown (TypeError "not a function")) w
    | Some sel =>
        let p := length (promises w) in
        let w1 :=
          World (store w) (arrays w) (listeners w)
            (promises w ++ [Promise name arguments Starting])
            (passes w) (invoked w) in
        match executor run p name arguments sel w1 with
        | Abrupt (Thrown e) w2 => reject p e w2
        | other => other
        end
    end.

(** One action, with [fuel] bounding the depth of nested calls. *)
Fixpoint exec (fuel : nat) (a : action) : M unit :=
  match fuel with
  | O => fun w => Abrupt Exhausted w
  | S fuel' =>
      let run := run_with (exec fuel') in
      match a with
      | Subscribe id => subscribe (Callback id)
      | Unsubscribe id => unsubscribe (Callback id)
      | Notify => globalListener (call run)
      | Update change => update change
      | ResolveSelect name arguments => resolveSelect run name arguments
      | Raise => throw (Error "raised by consumer code")
      end
  end.

Definition run (fuel : nat) : list action -> M unit := run_with (exec fuel).

(** The listeners a log records for one pass, in the order of the calls. *)
Definition calls_of (pass : nat) (entries : list (nat * listener))
  : list listener :=
  (filter (fun e => e.1 = pass) entries).*2.

(** What no step undoes: an array only grows at its end, passes are
    numbered upwards, and the log only grows, by entries of passes not
    begun before. *)
Record extends (w w' : world) : Prop := Extends {
  arrays_grow :
    ∀ a array, arrays w !! a = Some array ->
      ∃ array', arrays w' !! a = Some array' ∧ array `prefix_of` array';
  passes_grow : passes w ≤ passes w';
  invoked_grows :
    ∃ entries, invoked w' = invoked w ++ entries
               ∧ Forall (fun e => passes w ≤ e.1) entries
}.

Definition extending {A} (m : M A) : Prop :=
  ∀ w, extends w (world_of (m w)).

(** What a resolved promise records must satisfy: [hasFinished()] was
    true in the state [checked], and the value is the one its selector
    reads in the state [settled]. *)
Definition resolved_rightly (pr : promise) (v : result)
    (checked settled : state) : Prop :=
  (∃ finished,
     hasFinishedResolution = Some finished
     ∧ finished (selectorName pr) (arguments pr) checked = true)
  ∧ (∃ sel,
       getResolveSelectors selectors !! selectorName pr = Some sel
       ∧ v = value sel (arguments pr) settled).

(** The invariant of the promises: the variable [listeners] holds an
    allocated array, a waiter sits in an array only once its promise has
    left [Starting], and the waiter of a resolved promise is not in the
    current array. *)
Record consistent (w : world) : Prop := Consistent {
  listeners_allocated : listeners w < length (arrays w);
  waiters_known :
    ∀ array p, array ∈ arrays w -> Waiter p ∈ array ->
      ∃ pr, promises w !! p = Some pr ∧ settlement pr ≠ Starting;
  resolved_sound :
    ∀ p pr v checked settled,
      promises w !! p = Some pr ->
      settlement pr = Resolved v checked settled ->
      (Waiter p ∉ current w) ∧ resolved_rightly pr v checked settled
}.

(** The one change of state a promise undergoes outside its own
    executor: from [Waiting] to [Resolved]. *)
Definition may_become (s s' : status) : Prop :=
  s' = s ∨ (s = Waiting ∧ ∃ v checked settled, s' = Resolved v checked settled).

(** How the promises that exist in [w] fare up to [w']: a promise keeps
    its selector and arguments and changes state only from [Waiting] to
    [Resolved]; its waiter, once out of the current array, does not come
    back. *)
Record evolves (w w' : world) : Prop := Evolves {
  promises_kept :
    ∀ p pr, promises w !! p = Some pr ->
      ∃ pr', promises w' !! p = Some pr'
             ∧ selectorName pr' = selectorName pr
             ∧ arguments pr' = arguments pr
             ∧ may_become (settlement pr) (settlement pr');
  waiters_stay_out :
    ∀ p, p < length (promises w) ->
      Waiter p ∉ current w -> Waiter p ∉ current w'
}.

Definition keeps_at {A} (m : M A) (w : world) : Prop :=
  consistent w ->
  consistent (world_of (m w)) ∧ evolves w (world_of (m w)).

Definition keeps {A} (m : M A) : Prop := ∀ w, keeps_at m w.

(** *** Properties of the listener bus *)

Lemma extends_refl (w : world) : extends w w.
Proof.
  split; [by eauto | done |]. exists []. by rewrite app_nil_r.
Qed.

Lemma extends_trans (w1 w2 w3 : world) :
  extends w1 w2 -> extends w2 w3 -> extends w1 w3.
Proof.
  intros [Ha1 Hp1 (e1 & He1 & Hf1)] [Ha2 Hp2 (e2 & He2 & Hf2)]. split.
  - intros a array Hlook.
    destruct (Ha1 a array Hlook) as (array' & Hlook' & Hpre).
    destruct (Ha2 a array' Hlook') as (array'' & Hlook'' & Hpre').
    exists array''. split; [done |]. by etrans.
  - lia.
  - exists (e1 ++ e2). split; [by rewrite He2, He1, app_assoc |].
    apply Forall_app. split; [done |].
    eapply Forall_impl; [exact Hf2 |]. cbn. intros e He. lia.
Qed.

Lemma extending_ret {A} (a : A) : extending (ret a).
Proof. intros w. apply extends_refl. Qed.

Lemma extending_throw {A} (e : error) : extending (@throw A e).
Proof. intros w. apply extends_refl. Qed.

Lemma extending_bind {A B} (m : M A) (k : A -> M B) :
  extending m -> (∀ a, extending (k a)) -> extending (bind m k).
Proof.
  intros Hm Hk w. unfold bind. specialize (Hm w).
  destruct (m w) as [a w' | why w']; cbn in *; [| done].
  eapply extends_trans; [exact Hm | apply Hk].
Qed.

Lemma extends_same_arrays (w w' : world) :
  arrays w' = arrays w -> passes w' = passes w -> invoked w' = invoked w ->
  extends w w'.
Proof.
  intros Ha Hp Hi. split.
  - intros a array Hlook. exists array. by rewrite Ha.
  - lia.
  - exists []. by rewrite Hi, app_nil_r.
Qed.

Lemma extending_subscribe (l : listener) : extending (subscribe l).
Proof.
  intros w. split; cbn; [| done | exists []; by rewrite app_nil_r].
  intros a array Hlook. rewrite list_lookup_alter.
  destruct (decide (listeners w = a)) as [-> | _].
  - rewrite Hlook. cbn. eexists. split; [done |]. by apply prefix_app_r.
  - by eauto.
Qed.

Lemma extending_unsubscribe (l : listener) : extending (unsubscribe l).
Proof.
  intros w. split; cbn; [| done | exists []; by rewrite app_nil_r].
  intros a array Hlook. exists array. split; [| done].
  by apply lookup_app_l_Some.
Qed.

Lemma extending_update (change : state -> state) : extending (update change).
Proof. intros w. by apply extends_same_arrays. Qed.

Lemma extending_settle (p : nat) (s : status) : extending (settle p s).
Proof. intros w. by apply extends_same_arrays. Qed.

Lemma extending_resolve (p : nat) (v : result) (checked : state) :
  extending (resolve p v checked).
Proof. intros w. by apply extends_same_arrays. Qed.

Lemma extending_run_with (exec : action -> M unit) :
  (∀ a, extending (exec a)) -> ∀ program, extending (run_with exec program).
Proof.
  intros Hexec program. induction program as [| a rest IH]; cbn.
  - apply extending_ret.
  - by apply extending_bind.
Qed.

Lemma forEach_step (callbackfn : listener -> M unit) (pass a n k : nat)
    (w : world) :
  forEach callbackfn pass a (S n) k w
  = match arrays w !! a ≫= (fun array => array !! k) with
    | Some l =>
        match
          callbackfn l
            (World (store w) (arrays w) (listeners w) (promises w)
               (passes w) (invoked w ++ [(pass, l)]))
        with
        | Normal _ w' => forEach callbackfn pass a n (S k) w'
        | Abrupt why w' => Abrupt why w'
        end
    | None => forEach callbackfn pass a n (S k) w
    end.
Proof. cbn [forEach]. by destruct (arrays w !! a ≫= _). Qed.

Lemma calls_of_other_passes (pass : nat) (entries : list (nat * listener)) :
  Forall (fun e => e.1 ≠ pass) entries -> calls_of pass entries = [].
Proof.
  unfold calls_of. induction 1 as [| e rest He _ IH]; [done |].
  by rewrite filter_cons_False.
Qed.

Lemma calls_of_cons (pass : nat) (l : listener)
    (entries : list (nat * listener)) :
  calls_of pass ((pass, l) :: entries) = l :: calls_of pass entries.
Proof. unfold calls_of. by rewrite filter_cons_True. Qed.

Lemma calls_of_app (pass : nat) (e1 e2 : list (nat * listener)) :
  calls_of pass (e1 ++ e2) = calls_of pass e1 ++ calls_of pass e2.
Proof. unfold calls_of. by rewrite filter_app, fmap_app. Qed.

Section Extending.

Variable run : list action -> M unit.
Hypothesis run_extending : ∀ program, extending (run program).

Lemma extending_getResult (sel : selector) (arguments : args) :
  extending (getResult run sel arguments).
Proof.
  intros w. unfold getResult.
  specialize (run_extending (effects sel arguments (store w)) w).
  by destruct (run _ w).
Qed.

Lemma extending_waiter (p : nat) : extending (waiter run p).
Proof.
  intros w. unfold waiter.
  destruct (promises w !! p) as [pr |]; [| apply extends_refl].
  destruct hasFinishedResolution as [finished |]; [| apply extends_refl].
  destruct (getResolveSelectors selectors !! selectorName pr) as [sel |];
    [| apply extends_refl].
  destruct (finished _ _ _); [| apply extends_refl].
  apply extending_bind; [apply extending_unsubscribe | intros _].
  apply extending_bind; [apply extending_getResult | intros v].
  apply extending_resolve.
Qed.

Lemma extending_call (l : listener) : extending (call run l).
Proof.
  destruct l as [id | p]; cbn; [apply run_extending | apply extending_waiter].
Qed.

Lemma extending_executor (p : nat) (name : string) (arguments : args)
    (sel : selector) :
  extending (executor run p name arguments sel).
Proof.
  unfold executor. apply extending_bind; [apply extending_getResult |].
  intros v. destruct hasFinishedResolution as [finished |];
    [| apply extending_throw].
  intros w. destruct (finished _ _ _); [apply extending_resolve |].
  apply extending_bind; [apply extending_settle | intros _].
  apply extending_subscribe.
Qed.

Lemma extending_resolveSelect (name : string) (arguments : args) :
  extending (resolveSelect run name arguments).
Proof.
  intros w. unfold resolveSelect.
  destruct (getResolveSelectors selectors !! name) as [sel |];
    [| apply extends_refl].
  set (w1 := World _ _ _ (promises w ++ _) _ _).
  assert (H1 : extends w w1) by (by apply extends_same_arrays).
  pose proof (extending_executor (length (promises w)) name arguments sel w1)
    as H2.
  destruct (executor _ _ _ _ _ w1) as [u w2 | [e |] w2]; cbn in H2.
  - by eapply extends_trans.
  - eapply extends_trans; [exact H1 |].
    eapply extends_trans; [exact H2 | apply extending_settle].
  - by eapply extends_trans.
Qed.

(** One pass: the calls it logs are the elements [k], [k+1], ... of the
    array it was started on, as they were when it started. *)
Lemma forEach_calls (pass a : nat) (array : list listener) (n k : nat)
    (w : world) :
  pass < passes w ->
  arrays w !! a = Some array ->
  k + n ≤ length array ->
  let o := forEach (call run) pass a n k w in
  (∃ array', arrays (world_of o) !! a = Some array'
             ∧ array `prefix_of` array')
  ∧ (∀ b other, arrays w !! b = Some other ->
       ∃ other', arrays (world_of o) !! b = Some other'
                 ∧ other `prefix_of` other')
  ∧ passes w ≤ passes (world_of o)
  ∧ ∃ entries,
      invoked (world_of o) = invoked w ++ entries
      ∧ Forall (fun e => e.1 = pass ∨ passes w ≤ e.1) entries
      ∧ calls_of pass entries `prefix_of` take n (drop k array)
      ∧ (completes o -> calls_of pass entries = take n (drop k array)).
Proof.
  revert array k w.
  induction n as [| n IH]; intros array k w Hpass Hlook Hlen; cbn zeta.
  - cbn. split; [by eauto |]. split; [by eauto |]. split; [done |].
    exists []. rewrite app_nil_r. by rewrite take_0.
  - rewrite forEach_step, Hlook. cbn [mbind option_bind].
    destruct (array !! k) as [l |] eqn:Hk;
      [| apply lookup_ge_None in Hk; lia].
    set (w1 := World _ _ _ _ _ (invoked w ++ [(pass, l)])).
    pose proof (extending_call l w1) as Hcall.
    destruct (call run l w1) as [u w2 | why w2] eqn:Hrun; cbn in Hcall.
    + destruct Hcall as [Harr Hpas (e2 & He2 & Hf2)].
      destruct (Harr a array Hlook) as (array2 & Hlook2 & Hpre2).
      destruct (IH array2 (S k) w2) as
        ((array3 & Hlook3 & Hpre3) & Hall3 & Hpas3 & e3 & He3 & Hf3 & Hpre & Hall).
      * cbn in Hpas. lia.
      * exact Hlook2.
      * apply prefix_length in Hpre2. lia.
      * split; [exists array3; split; [done | by etrans] |].
        split.
        { intros b other Hb.
          destruct (Harr b other Hb) as (other2 & Hb2 & Hp2).
          destruct (Hall3 b other2 Hb2) as (other3 & Hb3 & Hp3).
          exists other3. split; [done | by etrans]. }
        split; [cbn in Hpas; lia |].
        exists ((pass, l) :: e2 ++ e3). split.
        { rewrite He3, He2. cbn. by rewrite <- !app_assoc. }
        assert (Hnone : calls_of pass e2 = []).
        { apply calls_of_other_passes.
          eapply Forall_impl; [exact Hf2 |]. cbn. intros e He. lia. }
        assert (Hsplit : calls_of pass ((pass, l) :: e2 ++ e3)
                         = l :: calls_of pass e3).
        { by rewrite calls_of_cons, calls_of_app, Hnone. }
        assert (Htake : take (S n) (drop k array)
                        = l :: take n (drop (S k) array)).
        { rewrite (drop_S _ _ _ Hk). done. }
        assert (Hsame : take n (drop (S k) array2)
                        = take n (drop (S k) array)).
        { destruct Hpre2 as [extra ->]. rewrite drop_app_le by lia.
          rewrite take_app_le; [done |]. rewrite length_drop. lia. }
        rewrite Hsplit, Htake. rewrite Hsame in Hpre, Hall.
        split.
        { constructor; [by left |]. apply Forall_app. split.
          - eapply Forall_impl; [exact Hf2 |]. cbn. intros e He. lia.
          - eapply Forall_impl; [exact Hf3 |]. cbn in Hpas.
            intros e [He | He]; [by left | right; lia]. }
        split; [by apply prefix_cons |].
        intros Hdone. by rewrite Hall.
    + cbn [world_of]. destruct Hcall as [Harr Hpas (e2 & He2 & Hf2)].
      split; [by apply Harr |]. split; [exact Harr |].
      split; [cbn in Hpas; lia |].
      exists ((pass, l) :: e2). split.
      { rewrite He2. cbn. by rewrite <- app_assoc. }
      assert (Hnone : calls_of pass e2 = []).
      { apply calls_of_other_passes.
        eapply Forall_impl; [exact Hf2 |]. cbn. intros e He. lia. }
      split.
      { constructor; [by left |].
        eapply Forall_impl; [exact Hf2 |]. cbn. intros e He. lia. }
      split; [| done].
      rewrite calls_of_cons, Hnone. rewrite (drop_S _ _ _ Hk). cbn.
      apply prefix_cons, prefix_nil.
Qed.

Lemma globalListener_calls (w : world) :
  let o := globalListener (call run) w in
  extends w (world_of o)
  ∧ ∃ entries,
      invoked (world_of o) = invoked w ++ entries
      ∧ calls_of (passes w) entries `prefix_of` current w
      ∧ (completes o -> calls_of (passes w) entries = current w).
Proof.
  cbn zeta. unfold globalListener, current.
  set (w0 := World _ _ _ _ (S (passes w)) _).
  destruct (arrays w !! listeners w) as [array |] eqn:Hlook;
    cbn [default from_option id].
  - destruct (forEach_calls (passes w) (listeners w) array (length array) 0 w0)
      as (_ & Harr & Hpas & entries & Hlog & Hall & Hpre & Hdone);
      [cbn; lia | exact Hlook | lia |].
    rewrite drop_0, firstn_all in Hpre, Hdone. split.
    + split; [exact Harr | cbn in Hpas; lia |].
      exists entries. split; [exact Hlog |].
      eapply Forall_impl; [exact Hall |]. cbn. intros e [-> | He]; lia.
    + by exists entries.
  - cbn. split.
    + split; [by eauto | cbn; lia |]. exists []. by rewrite app_nil_r.
    + exists []. by rewrite app_nil_r.
Qed.

Lemma extending_globalListener : extending (globalListener (call run)).
Proof. intros w. apply globalListener_calls. Qed.

End Extending.

Lemma extending_exec (fuel : nat) (a : action) : extending (exec fuel a).
Proof.
  revert a. induction fuel as [| fuel IH]; intros a; cbn.
  - intros w. apply extends_refl.
  - pose proof (extending_run_with (exec fuel) IH) as Hrun.
    destruct a.
    + apply extending_subscribe.
    + apply extending_unsubscribe.
    + by apply extending_globalListener.
    + apply extending_update.
    + by apply extending_resolveSelect.
    + apply extending_throw.
Qed.

Lemma extending_run (fuel : nat) (program : list action) :
  extending (run fuel program).
Proof. apply extending_run_with, extending_exec. Qed.

Lemma elem_of_calls_of (pass : nat) (l : listener)
    (entries : list (nat * listener)) :
  (pass, l) ∈ entries -> l ∈ calls_of pass entries.
Proof.
  intros Hin. unfold calls_of. apply list_elem_of_fmap.
  exists (pass, l). split; [done |]. by apply list_elem_of_filter.
Qed.

(** C2: a pass of [globalListener], started in any world with any budget,
    calls listeners of the array that was current when it began, in the
    order of that array and nothing else: what it has called is a prefix
    of that array at every point, the whole array once the pass completes,
    and a listener that is not in that array (so one subscribed only
    during the pass) is not called by the pass. *)
Theorem notify_pass_calls_snapshot (fuel : nat) (w : world) :
  let o := exec (S fuel) Notify w in
  ∃ entries,
    invoked (world_of o) = invoked w ++ entries
    ∧ calls_of (passes w) entries `prefix_of` current w
    ∧ (completes o -> calls_of (passes w) entries = current w)
    ∧ (∀ l, l ∉ current w -> (passes w, l) ∉ entries).
Proof.
  cbn zeta. cbn [exec].
  destruct (globalListener_calls (run_with (exec fuel))
              (extending_run_with _ (extending_exec fuel)) w)
    as (_ & entries & Hlog & Hpre & Hdone).
  exists entries. split; [exact Hlog |]. split; [exact Hpre |].
  split; [exact Hdone |].
  intros l Hnot Hin. apply Hnot.
  apply elem_of_calls_of in Hin.
  destruct Hpre as [rest ->]. apply elem_of_app. by left.
Qed.

Lemma current_subscribe (l : listener) (w : world) :
  listeners w < length (arrays w) ->
  current (world_of (subscribe l w)) = current w ++ [l].
Proof.
  intros Hlt. unfold current. cbn.
  rewrite list_lookup_alter_eq.
  destruct (lookup_lt_is_Some_2 _ _ Hlt) as [array ->]. done.
Qed.

Lemma bind_subscribe {B} (l : listener) (k : unit -> M B) (w : world) :
  bind (subscribe l) k w = k tt (world_of (subscribe l w)).
Proof. reflexivity. Qed.

Lemma current_unsubscribe (l : listener) (w : world) :
  current (world_of (unsubscribe l w)) = without (current w) l.
Proof. unfold current at 1. cbn. by rewrite list_lookup_middle. Qed.

Lemma without_idemp (array : list listener) (l : listener) :
  without (without array l) l = without array l.
Proof. unfold without. by rewrite list_filter_filter_l. Qed.

Lemma without_self (l : listener) : without [l] l = [].
Proof. unfold without. rewrite filter_cons_False by auto. done. Qed.

Lemma without_app (a1 a2 : list listener) (l : listener) :
  without (a1 ++ a2) l = without a1 l ++ without a2 l.
Proof. apply filter_app. Qed.

(** C3, as amended: the function returned by [subscribe( listener )]
    removes every registration of that listener (the entries equal to it)
    and keeps the other listeners, in order; calling it again right away
    changes nothing; and after the same listener has been subscribed
    twice, one call removes both registrations. *)
Theorem unsubscribe_removes_every_registration (l : listener) (w : world) :
  let once := world_of (unsubscribe l w) in
  let twice := world_of (unsubscribe l once) in
  current once = filter (fun x => x ≠ l) (current w)
  ∧ (l ∉ current once)
  ∧ current twice = current once
  ∧ (listeners w < length (arrays w) ->
     current
       (world_of ((subscribe l ;; (subscribe l ;; unsubscribe l)) w))
     = filter (fun x => x ≠ l) (current w)).
Proof.
  cbn zeta. rewrite !current_unsubscribe. split; [done |]. split.
  - unfold without. intros Hin. by apply list_elem_of_filter in Hin as [? _].
  - split; [apply without_idemp |]. intros Hlt.
    rewrite !bind_subscribe, current_unsubscribe.
    assert (Hlt1 : listeners (world_of (subscribe l w))
                   < length (arrays (world_of (subscribe l w))))
      by (cbn; by rewrite length_alter).
    rewrite (current_subscribe l _ Hlt1), (current_subscribe l w Hlt).
    by rewrite !without_app, without_self, !app_nil_r.
Qed.

(** *** Properties of the promise-returning selectors *)

Lemma omit_lookup_Some {A} (object : gmap string A) (names : list string)
    (name : string) (a : A) :
  omit object names !! name = Some a
  <-> (name ∉ names) ∧ object !! name = Some a.
Proof.
  unfold omit. induction names as [| n rest IH]; cbn.
  - split; [intros H; split; [apply not_elem_of_nil | done] | by intros [_ ?]].
  - rewrite lookup_delete_Some, IH, not_elem_of_cons. split.
    + by intros (? & ? & ?).
    + by intros ((? & ?) & ?).
Qed.

Lemma current_in_arrays (w : world) (l : listener) :
  l ∈ current w -> ∃ array, array ∈ arrays w ∧ l ∈ array.
Proof.
  unfold current. destruct (arrays w !! listeners w) as [array |] eqn:Hlook;
    cbn [default from_option id].
  - intros Hin. exists array. split; [| done].
    by eapply list_elem_of_lookup_2.
  - by intros ?%elem_of_nil.
Qed.

Lemma may_become_trans (s1 s2 s3 : status) :
  may_become s1 s2 -> may_become s2 s3 -> may_become s1 s3.
Proof.
  intros [-> | [-> (v & c & st & ->)]] H23; [done |].
  destruct H23 as [-> | [? _]]; [| done]. right. by eauto.
Qed.

Lemma may_become_Starting (s s' : status) :
  may_become s s' -> (s = Starting <-> s' = Starting).
Proof.
  intros [-> | [-> (v & c & st & ->)]]; [done |]. by split.
Qed.

Lemma may_become_settled (s s' : status) :
  may_become s s' -> pending s = false -> s' = s.
Proof. intros [-> | [-> _]]; done. Qed.

Lemma evolves_refl (w : world) : evolves w w.
Proof.
  split; [| done]. intros p pr Hp. exists pr. split_and!; try done; by left.
Qed.

Lemma evolves_length (w w' : world) :
  evolves w w' -> length (promises w) ≤ length (promises w').
Proof.
  intros [Hkept _]. destruct (decide (length (promises w) = 0)) as [| Hne];
    [lia |].
  destruct (lookup_lt_is_Some_2 (promises w) (length (promises w) - 1))
    as [pr Hpr]; [lia |].
  destruct (Hkept _ _ Hpr) as (pr' & Hpr' & _).
  apply lookup_lt_Some in Hpr'. lia.
Qed.

Lemma evolves_trans (w1 w2 w3 : world) :
  evolves w1 w2 -> evolves w2 w3 -> evolves w1 w3.
Proof.
  intros H12 H23. pose proof (evolves_length _ _ H12) as Hlen.
  destruct H12 as [Hk12 Hs12], H23 as [Hk23 Hs23]. split.
  - intros p pr Hp.
    destruct (Hk12 p pr Hp) as (pr2 & Hp2 & Hn2 & Ha2 & Hs2).
    destruct (Hk23 p pr2 Hp2) as (pr3 & Hp3 & Hn3 & Ha3 & Hs3).
    exists pr3. split; [done |]. split; [congruence |].
    split; [congruence |]. by eapply may_become_trans.
  - intros p Hlt Hout. apply Hs23; [lia |]. by apply Hs12.
Qed.

Lemma keeps_ret {A} (a : A) : keeps (ret a).
Proof. intros w Hw. split; [done | apply evolves_refl]. Qed.

Lemma keeps_throw {A} (e : error) : keeps (@throw A e).
Proof. intros w Hw. split; [done | apply evolves_refl]. Qed.

Lemma keeps_at_bind {A B} (m : M A) (k : A -> M B) (w : world) :
  keeps_at m w -> (∀ a, keeps (k a)) -> keeps_at (bind m k) w.
Proof.
  intros Hm Hk Hw. unfold bind. destruct (Hm Hw) as [Hc He].
  destruct (m w) as [a w' | why w']; cbn in *; [| done].
  destruct (Hk a w' Hc) as [Hc' He']. split; [done |].
  by eapply evolves_trans.
Qed.

Lemma keeps_bind {A B} (m : M A) (k : A -> M B) :
  keeps m -> (∀ a, keeps (k a)) -> keeps (bind m k).
Proof. intros Hm Hk w. by apply keeps_at_bind. Qed.

(** The invariant and the relation look at the arrays, the variable
    [listeners] and the promises only. *)
Lemma consistent_same (w w' : world) :
  arrays w' = arrays w -> listeners w' = listeners w ->
  promises w' = promises w -> consistent w -> consistent w'.
Proof.
  intros Ha Hl Hp [Hvalid Hknown Hsound]. split.
  - by rewrite Ha, Hl.
  - intros array p. rewrite Ha, Hp. apply Hknown.
  - intros p pr v c s'. unfold current. rewrite Ha, Hl, Hp. apply Hsound.
Qed.

Lemma evolves_same (w w' : world) :
  arrays w' = arrays w -> listeners w' = listeners w ->
  promises w' = promises w -> evolves w w'.
Proof.
  intros Ha Hl Hp. split.
  - intros p pr Hlook. exists pr. rewrite Hp. split_and!; try done; by left.
  - intros p _. unfold current. by rewrite Ha, Hl.
Qed.

Lemma keeps_update (change : state -> state) : keeps (update change).
Proof.
  intros w Hw. split; [by apply (consistent_same w) | by apply evolves_same].
Qed.

(** After [push], the arrays hold what they held and the new listener. *)
Lemma subscribe_arrays (l x : listener) (w : world) (array : list listener) :
  array ∈ arrays (world_of (subscribe l w)) -> x ∈ array ->
  x = l ∨ ∃ array0, array0 ∈ arrays w ∧ x ∈ array0.
Proof.
  cbn. intros (j & Hj)%list_elem_of_lookup Hx.
  rewrite list_lookup_alter in Hj.
  destruct (decide (listeners w = j)) as [-> | _].
  - destruct (arrays w !! j) as [array0 |] eqn:Hlook; [| done].
    cbn in Hj. injection Hj as <-.
    apply elem_of_app in Hx as [Hx | Hx%list_elem_of_singleton]; [| by left].
    right. exists array0. split; [| done]. by eapply list_elem_of_lookup_2.
  - right. exists array. split; [| done]. by eapply list_elem_of_lookup_2.
Qed.

Lemma subscribe_current (l x : listener) (w : world) :
  x ∈ current (world_of (subscribe l w)) -> x = l ∨ x ∈ current w.
Proof.
  unfold current. cbn. rewrite list_lookup_alter_eq.
  destruct (arrays w !! listeners w) as [array |]; cbn.
  - intros [Hx | Hx%list_elem_of_singleton]%elem_of_app; auto.
  - by intros ?%elem_of_nil.
Qed.

Lemma keeps_subscribe_callback (id : nat) : keeps (subscribe (Callback id)).
Proof.
  intros w [Hvalid Hknown Hsound]. split; [split |].
  - cbn. by rewrite length_alter.
  - intros array p Harr Hin.
    destruct (subscribe_arrays _ _ _ _ Harr Hin) as [? | (a0 & Ha0 & Hin0)];
      [done |].
    by eapply Hknown.
  - intros p pr v c s' Hp Hres. destruct (Hsound p pr v c s' Hp Hres) as [Hout ?].
    split; [| done]. by intros [? | ?]%subscribe_current.
  - split.
    + intros p pr Hp. exists pr. split_and!; try done; by left.
    + intros p _ Hout. by intros [? | ?]%subscribe_current.
Qed.

Lemma keeps_unsubscribe (l : listener) : keeps (unsubscribe l).
Proof.
  intros w [Hvalid Hknown Hsound]. split; [split |].
  - cbn. rewrite length_app. cbn. lia.
  - intros array p Harr Hin. cbn in Harr.
    apply elem_of_app in Harr as [Harr | ->%list_elem_of_singleton].
    + by eapply Hknown.
    + unfold without in Hin. apply list_elem_of_filter in Hin as [_ Hin].
      destruct (current_in_arrays _ _ Hin) as (a0 & Ha0 & Hin0).
      by eapply Hknown.
  - intros p pr v c s' Hp Hres. destruct (Hsound p pr v c s' Hp Hres) as [Hout ?].
    split; [| done]. rewrite current_unsubscribe. unfold without.
    by intros [_ ?]%list_elem_of_filter.
  - split.
    + intros p pr Hp. exists pr. split_and!; try done; by left.
    + intros p _ Hout. rewrite current_unsubscribe. unfold without.
      by intros [_ ?]%list_elem_of_filter.
Qed.

Lemma keeps_run_with (exec : action -> M unit) :
  (∀ a, keeps (exec a)) -> ∀ program, keeps (run_with exec program).
Proof.
  intros Hexec program. induction program as [| a rest IH]; cbn.
  - apply keeps_ret.
  - by apply keeps_bind.
Qed.

(** Settling promise [p]. *)
Lemma settle_lookup (p q : nat) (s : status) (w : world) :
  promises (world_of (settle p s w)) !! q
  = (fun pr =>
       if decide (p = q) then
         if pending (settlement pr)
         then Promise (selectorName pr) (arguments pr) s
         else pr
       else pr) <$> promises w !! q.
Proof.
  cbn. rewrite list_lookup_alter.
  destruct (decide (p = q)) as [-> | _]; [done |].
  by destruct (promises w !! q).
Qed.

Lemma settle_consistent (p : nat) (s : status) (w : world) :
  consistent w ->
  s ≠ Starting ->
  (∀ pr v checked settled,
     promises w !! p = Some pr -> s = Resolved v checked settled ->
     (Waiter p ∉ current w) ∧ resolved_rightly pr v checked settled) ->
  consistent (world_of (settle p s w)).
Proof.
  intros [Hvalid Hknown Hsound] Hs Hres. split.
  - exact Hvalid.
  - intros array q Harr Hin.
    destruct (Hknown array q Harr Hin) as (pr & Hq & Hne).
    rewrite settle_lookup, Hq. cbn. eexists. split; [done |].
    destruct (decide (p = q)); [| done].
    by destruct (pending (settlement pr)).
  - intros q pr' v c s'. rewrite settle_lookup.
    destruct (promises w !! q) as [pr |] eqn:Hq; [| done]. cbn.
    intros [= <-]. change (current (world_of (settle p s w))) with (current w).
    destruct (decide (p = q)) as [-> | _]; [| by apply Hsound].
    destruct (pending (settlement pr)) eqn:Hpend; [| by apply Hsound].
    cbn. intros ->. destruct (Hres pr v c s' Hq eq_refl) as [Hout Hright].
    split; [done |]. exact Hright.
Qed.

Lemma resolve_evolves (p : nat) (v : result) (checked settled : state)
    (w : world) :
  (∀ pr, promises w !! p = Some pr -> settlement pr ≠ Starting) ->
  evolves w (world_of (settle p (Resolved v checked settled) w)).
Proof.
  intros Hp. split; [| done].
  intros q pr Hq. rewrite settle_lookup, Hq. cbn. eexists. split; [done |].
  destruct (decide (p = q)) as [-> | _]; [| split_and!; try done; by left].
  destruct (pending (settlement pr)) eqn:Hpend; [| split_and!; try done; by left].
  cbn. repeat split. right. split; [| by eauto].
  specialize (Hp pr Hq). by destruct (settlement pr).
Qed.

(** Steps on a promise allocated after [w] do not show in [evolves w]. *)
Lemma settle_evolves_new (p : nat) (s : status) (w w' : world) :
  evolves w w' -> length (promises w) ≤ p ->
  evolves w (world_of (settle p s w')).
Proof.
  intros [Hkept Hout] Hlen. split.
  - intros q pr Hq. destruct (Hkept q pr Hq) as (pr' & Hq' & Hrest).
    exists pr'. split; [| done]. rewrite settle_lookup, Hq'. cbn.
    apply lookup_lt_Some in Hq. rewrite decide_False by lia. done.
  - intros q Hq Hno. by apply Hout.
Qed.

Lemma subscribe_evolves_new (p : nat) (w w' : world) :
  evolves w w' -> length (promises w) ≤ p ->
  evolves w (world_of (subscribe (Waiter p) w')).
Proof.
  intros [Hkept Hout] Hlen. split.
  - intros q pr Hq. by apply Hkept.
  - intros q Hq Hno [Heq | Hin]%subscribe_current.
    + injection Heq as ->. lia.
    + by eapply Hout.
Qed.

Lemma subscribe_waiter_consistent (p : nat) (w : world) :
  consistent w ->
  (∃ pr, promises w !! p = Some pr ∧ settlement pr = Waiting) ->
  consistent (world_of (subscribe (Waiter p) w)).
Proof.
  intros [Hvalid Hknown Hsound] (pr & Hp & Hst). split.
  - cbn. by rewrite length_alter.
  - intros array q Harr Hin.
    destruct (subscribe_arrays _ _ _ _ Harr Hin) as [Heq | (a0 & Ha0 & Hin0)].
    + injection Heq as ->. exists pr. split; [done |]. by rewrite Hst.
    + by eapply Hknown.
  - intros q pr' v c s' Hq Hres.
    destruct (Hsound q pr' v c s' Hq Hres) as [Hout Hright].
    split; [| done]. intros [Heq | Hin]%subscribe_current; [| done].
    injection Heq as ->. cbn in Hq. congruence.
Qed.

Lemma bind_unsubscribe {B} (l : listener) (k : unit -> M B) (w : world) :
  bind (unsubscribe l) k w = k tt (world_of (unsubscribe l w)).
Proof. reflexivity. Qed.

Section Keeping.

Variable run : list action -> M unit.
Hypothesis run_keeps : ∀ program, keeps (run program).

Lemma keeps_getResult (sel : selector) (arguments : args) :
  keeps (getResult run sel arguments).
Proof.
  intros w Hw. unfold getResult.
  pose proof (run_keeps (effects sel arguments (store w)) w Hw) as H.
  by destruct (run _ w).
Qed.

Lemma getResult_value (sel : selector) (arguments : args) (w w' : world)
    (v : result) :
  getResult run sel arguments w = Normal v w' ->
  v = value sel arguments (store w').
Proof.
  unfold getResult. destruct (run _ w); [| done]. by intros [= <- <-].
Qed.

Lemma keeps_waiter (p : nat) (w : world) :
  (∃ pr, promises w !! p = Some pr ∧ settlement pr ≠ Starting) ->
  keeps_at (waiter run p) w.
Proof.
  intros (pr & Hp & Hne) Hw.
  unfold waiter. rewrite Hp.
  destruct hasFinishedResolution as [finished |] eqn:Hfin;
    [| split; [done | apply evolves_refl]].
  destruct (getResolveSelectors selectors !! selectorName pr) as [sel |]
    eqn:Hsel; [| split; [done | apply evolves_refl]].
  destruct (finished (selectorName pr) (arguments pr) (store w)) eqn:Hdone;
    [| split; [done | apply evolves_refl]].
  rewrite bind_unsubscribe.
  destruct (keeps_unsubscribe (Waiter p) w Hw) as [Hc1 He1].
  assert (Hout1 : Waiter p ∉ current (world_of (unsubscribe (Waiter p) w))).
  { rewrite current_unsubscribe. unfold without.
    by intros [? _]%list_elem_of_filter. }
  assert (Hp1 : promises (world_of (unsubscribe (Waiter p) w)) !! p = Some pr)
    by exact Hp.
  set (w1 := world_of (unsubscribe (Waiter p) w)) in *.
  unfold bind.
  destruct (keeps_getResult sel (arguments pr) w1 Hc1) as [Hc2 He2].
  destruct (getResult run sel (arguments pr) w1) as [v w2 | why w2] eqn:Hget;
    cbn [world_of] in *;
    [| split; [done | by eapply evolves_trans]].
  apply getResult_value in Hget.
  destruct (promises_kept _ _ He2 p pr Hp1) as (pr2 & Hp2 & Hn2 & Ha2 & Hs2).
  apply may_become_Starting in Hs2.
  assert (Hout2 : Waiter p ∉ current w2).
  { apply (waiters_stay_out _ _ He2); [by eapply lookup_lt_Some | done]. }
  unfold resolve. split.
  - apply settle_consistent; [done | done |].
    intros pr' v' c s' Hp' [= <- <- <-].
    rewrite Hp2 in Hp'. injection Hp' as <-.
    split; [done |]. split.
    + exists finished. split; [done |]. by rewrite Hn2, Ha2.
    + exists sel. split; [by rewrite Hn2 |]. by rewrite Ha2.
  - eapply evolves_trans; [exact He1 |].
    eapply evolves_trans; [exact He2 |].
    apply resolve_evolves.
    intros pr' Hp'. rewrite Hp2 in Hp'. injection Hp' as <-.
    intros Hst. apply Hne. by apply Hs2.
Qed.

Lemma keeps_call (l : listener) (w : world) :
  (∃ array, array ∈ arrays w ∧ l ∈ array) -> keeps_at (call run l) w.
Proof.
  destruct l as [id | p]; cbn; [intros _; apply run_keeps |].
  intros (array & Harr & Hin) Hw. apply keeps_waiter; [| done].
  by apply (waiters_known w Hw array).
Qed.

(** The waiter, called when resolution has finished and its promise is
    waiting, resolves the promise if the selector returns; it is then no
    longer subscribed. *)
Lemma waiter_resolves (p : nat) (pr : promise) (w w' : world)
    (finished : string -> args -> state -> bool) (sel : selector) :
  consistent w ->
  promises w !! p = Some pr ->
  settlement pr = Waiting ->
  hasFinishedResolution = Some finished ->
  getResolveSelectors selectors !! selectorName pr = Some sel ->
  finished (selectorName pr) (arguments pr) (store w) = true ->
  waiter run p w = Normal tt w' ->
  (∃ pr' v checked settled,
     promises w' !! p = Some pr'
     ∧ settlement pr' = Resolved v checked settled)
  ∧ (Waiter p ∉ current w').
Proof.
  intros Hw Hp Hst Hfin Hsel Hdone Hrun.
  assert (Hkeep : keeps_at (waiter run p) w).
  { apply keeps_waiter. exists pr. split; [done |]. by rewrite Hst. }
  destruct (Hkeep Hw) as [Hc' _]. rewrite Hrun in Hc'. cbn in Hc'.
  assert (Hres : ∃ pr' v checked settled,
             promises w' !! p = Some pr'
             ∧ settlement pr' = Resolved v checked settled).
  { revert Hrun. unfold waiter. rewrite Hp, Hfin, Hsel, Hdone.
    rewrite bind_unsubscribe.
    destruct (keeps_unsubscribe (Waiter p) w Hw) as [Hc1 _].
    set (w1 := world_of (unsubscribe (Waiter p) w)) in *.
    assert (Hp1 : promises w1 !! p = Some pr) by exact Hp.
    unfold bind.
    destruct (keeps_getResult sel (arguments pr) w1 Hc1) as [_ He2].
    destruct (getResult run sel (arguments pr) w1) as [v w2 | why w2];
      [| done].
    cbn [world_of] in He2.
    destruct (promises_kept _ _ He2 p pr Hp1) as (pr2 & Hp2 & _ & _ & Hs2).
    unfold resolve. intros Heq. apply (f_equal world_of) in Heq.
    cbn [world_of] in Heq. subst w'. rewrite settle_lookup, Hp2. cbn.
    rewrite decide_True by done. rewrite Hst in Hs2.
    destruct Hs2 as [Hs2 | [_ (v2 & c2 & s2 & Hs2)]]; rewrite Hs2; cbn.
    - by do 4 eexists.
    - by exists pr2, v2, c2, s2. }
  split; [exact Hres |].
  destruct Hres as (pr' & v & checked & settled & Hp' & Hres).
  by destruct (resolved_sound _ Hc' p pr' v checked settled Hp' Hres).
Qed.

Lemma keeps_forEach (pass a n : nat) :
  ∀ k, keeps (forEach (call run) pass a n k).
Proof.
  induction n as [| n IH]; intros k w Hw.
  - cbn. split; [done | apply evolves_refl].
  - rewrite forEach_step.
    destruct (arrays w !! a ≫= _) as [l |] eqn:Hread; [| by apply IH].
    set (w1 := World _ _ _ _ _ (invoked w ++ [(pass, l)])).
    assert (Hc1 : consistent w1) by (by apply (consistent_same w)).
    assert (He1 : evolves w w1) by (by apply evolves_same).
    assert (Hmem : ∃ array, array ∈ arrays w1 ∧ l ∈ array).
    { destruct (arrays w !! a) as [array |] eqn:Ha; [| done]. cbn in Hread.
      exists array. split; by eapply list_elem_of_lookup_2. }
    destruct (keeps_call l w1 Hmem Hc1) as [Hc2 He2].
    destruct (call run l w1) as [u w2 | why w2]; cbn [world_of] in *.
    + destruct (IH (S k) w2 Hc2) as [Hc3 He3]. split; [done |].
      eapply evolves_trans; [exact He1 |]. by eapply evolves_trans.
    + split; [done | by eapply evolves_trans].
Qed.

Lemma keeps_globalListener : keeps (globalListener (call run)).
Proof.
  intros w Hw. unfold globalListener.
  set (w0 := World _ _ _ _ (S (passes w)) _).
  assert (Hc0 : consistent w0) by (by apply (consistent_same w)).
  assert (He0 : evolves w w0) by (by apply evolves_same).
  destruct (keeps_forEach (passes w) (listeners w) (length (current w)) 0
              w0 Hc0) as [Hc He].
  split; [done | by eapply evolves_trans].
Qed.

(** The executor of a promise just allocated, seen from the world [w]
    before the allocation. *)
Lemma executor_keeps (w w1 : world) (p : nat) (name : string)
    (arguments : args) (sel : selector) :
  consistent w1 ->
  evolves w w1 ->
  length (promises w) ≤ p ->
  promises w1 !! p = Some (Promise name arguments Starting) ->
  getResolveSelectors selectors !! name = Some sel ->
  let o := executor run p name arguments sel w1 in
  consistent (world_of o) ∧ evolves w (world_of o).
Proof.
  intros Hc1 He1 Hlen Hp1 Hsel. cbn zeta. unfold executor, bind.
  destruct (keeps_getResult sel arguments w1 Hc1) as [Hc2 He2].
  destruct (getResult run sel arguments w1) as [v w2 | why w2] eqn:Hget;
    cbn [world_of] in *;
    [| split; [done | by eapply evolves_trans]].
  apply getResult_value in Hget.
  destruct (promises_kept _ _ He2 p _ Hp1) as (pr2 & Hp2 & Hn2 & Ha2 & Hs2).
  apply may_become_Starting in Hs2. cbn in Hn2, Ha2, Hs2.
  assert (Hst2 : settlement pr2 = Starting) by (by apply Hs2).
  assert (Hout2 : Waiter p ∉ current w2).
  { intros Hin. destruct (current_in_arrays _ _ Hin) as (array & Harr & Hin').
    destruct (waiters_known _ Hc2 array p Harr Hin') as (pr' & Hp' & Hne).
    congruence. }
  assert (He02 : evolves w w2) by (by eapply evolves_trans).
  destruct hasFinishedResolution as [finished |] eqn:Hfin;
    [| by split].
  destruct (finished name arguments (store w2)) eqn:Hdone.
  - unfold resolve. split.
    + apply settle_consistent; [done | done |].
      intros pr' v' c s' Hp' [= <- <- <-].
      rewrite Hp2 in Hp'. injection Hp' as <-.
      split; [done |]. split.
      * exists finished. split; [done |]. by rewrite Hn2, Ha2.
      * exists sel. split; [by rewrite Hn2 |]. by rewrite Ha2.
    + by apply settle_evolves_new.
  - change (consistent
              (world_of (subscribe (Waiter p)
                 (world_of (settle p Waiting w2))))
            ∧ evolves w
                (world_of (subscribe (Waiter p)
                   (world_of (settle p Waiting w2))))).
    split.
    + apply subscribe_waiter_consistent.
      * apply settle_consistent; [done | done | by intros ? ? ? ? _ [=]].
      * rewrite settle_lookup, Hp2. cbn. rewrite decide_True by done.
        rewrite Hst2. cbn. by eexists.
    + apply subscribe_evolves_new; [| done].
      by apply settle_evolves_new.
Qed.

Lemma keeps_resolveSelect (name : string) (arguments : args) :
  keeps (resolveSelect run name arguments).
Proof.
  intros w Hw. unfold resolveSelect.
  destruct (getResolveSelectors selectors !! name) as [sel |] eqn:Hsel;
    [| split; [done | apply evolves_refl]].
  set (w1 := World _ _ _ (promises w ++ _) _ _).
  assert (Hp1 : promises w1 !! length (promises w)
                = Some (Promise name arguments Starting))
    by (cbn; by rewrite list_lookup_middle).
  assert (Hc1 : consistent w1).
  { destruct Hw as [Hvalid Hknown Hsound]. split.
    - exact Hvalid.
    - intros array q Harr Hin.
      destruct (Hknown array q Harr Hin) as (pr & Hq & Hne).
      exists pr. split; [| done]. cbn. by apply lookup_app_l_Some.
    - intros q pr v c s' Hq Hres. cbn in Hq.
      apply lookup_app_Some in Hq as [Hq | [_ Hq]]; [by eapply Hsound |].
      apply list_lookup_singleton_Some in Hq as [_ <-]. done. }
  assert (He1 : evolves w w1).
  { split; [| done]. intros q pr Hq. exists pr.
    split; [cbn; by apply lookup_app_l_Some | split_and!; try done; by left]. }
  destruct (executor_keeps w w1 (length (promises w)) name arguments sel
              Hc1 He1 (le_n _) Hp1 Hsel) as [Hc He].
  destruct (executor run _ name arguments sel w1) as [u w2 | [e |] w2];
    cbn [world_of] in *; [done | | done].
  split.
  - apply settle_consistent; [done | done | by intros ? ? ? ? _ [=]].
  - by apply settle_evolves_new.
Qed.

(** What the call of a promise-returning selector leaves when it
    returns: the new promise is resolved with the value just read if
    resolution had finished by then, and otherwise it waits with its
    waiter subscribed (or it is rejected, when the selector threw). *)
Lemma resolveSelect_settles (name : string) (given : args)
    (sel : selector) (finished : string -> args -> state -> bool)
    (w w' : world) :
  consistent w ->
  getResolveSelectors selectors !! name = Some sel ->
  hasFinishedResolution = Some finished ->
  resolveSelect run name given w = Normal tt w' ->
  ∃ pr,
    promises w' !! length (promises w) = Some pr
    ∧ selectorName pr = name
    ∧ arguments pr = given
    ∧ match settlement pr with
      | Resolved v checked settled =>
          checked = store w' ∧ settled = store w'
          ∧ finished name given (store w') = true
          ∧ v = value sel given (store w')
      | Waiting =>
          finished name given (store w') = false
          ∧ Waiter (length (promises w)) ∈ current w'
      | Rejected _ => True
      | Starting => False
      end.
Proof.
  intros Hw Hsel Hfin. unfold resolveSelect. rewrite Hsel.
  set (p := length (promises w)).
  set (w1 := World _ _ _ (promises w ++ _) _ _).
  assert (Hp1 : promises w1 !! p = Some (Promise name given Starting))
    by (cbn; by rewrite list_lookup_middle).
  assert (Hc1 : consistent w1).
  { destruct Hw as [Hvalid Hknown Hsound]. split.
    - exact Hvalid.
    - intros array q Harr Hin.
      destruct (Hknown array q Harr Hin) as (pr & Hq & Hne).
      exists pr. split; [| done]. cbn. by apply lookup_app_l_Some.
    - intros q pr v c s' Hq Hres. cbn in Hq.
      apply lookup_app_Some in Hq as [Hq | [_ Hq]]; [by eapply Hsound |].
      apply list_lookup_singleton_Some in Hq as [_ <-]. done. }
  unfold executor, bind.
  destruct (keeps_getResult sel given w1 Hc1) as [Hc2 He2].
  destruct (getResult run sel given w1) as [v w2 | [e |] w2] eqn:Hget;
    cbn [world_of] in *; [| | done];
    destruct (promises_kept _ _ He2 p _ Hp1) as (pr2 & Hp2 & Hn2 & Ha2 & Hs2);
    apply may_become_Starting in Hs2; cbn in Hn2, Ha2, Hs2;
    assert (Hst2 : settlement pr2 = Starting) by (by apply Hs2).
  - apply getResult_value in Hget. rewrite Hfin.
    destruct (finished name given (store w2)) eqn:Hdone.
    + unfold resolve. intros Heq. apply (f_equal world_of) in Heq.
      change (world_of (settle p (Resolved v (store w2) (store w2)) w2) = w')
        in Heq.
      subst w'. rewrite settle_lookup, Hp2. cbn.
      rewrite decide_True by done. rewrite Hst2. cbn.
      eexists. split; [done |]. cbn. by rewrite Hn2, Ha2.
    + intros Heq. apply (f_equal world_of) in Heq.
      change (world_of (subscribe (Waiter p) (world_of (settle p Waiting w2)))
              = w') in Heq.
      subst w'.
      assert (Hin : Waiter p ∈ current (world_of (subscribe (Waiter p)
                                         (world_of (settle p Waiting w2))))).
      { rewrite current_subscribe; [| exact (listeners_allocated _ Hc2)].
        apply elem_of_app. right. by apply list_elem_of_singleton. }
      change (promises (world_of (subscribe _ ?x))) with (promises x).
      rewrite settle_lookup, Hp2. cbn [fmap option_fmap option_map].
      rewrite decide_True by done. rewrite Hst2. cbn [pending].
      eexists. split; [done |]. cbn [selectorName arguments settlement].
      split; [done |]. split; [done |]. split; [exact Hdone | exact Hin].
  - unfold reject. intros Heq. apply (f_equal world_of) in Heq.
    change (world_of (settle p (Rejected e) w2) = w') in Heq.
    subst w'. rewrite settle_lookup, Hp2. cbn.
    rewrite decide_True by done. rewrite Hst2. cbn.
    eexists. split; [done |]. by cbn.
Qed.

End Keeping.

Lemma keeps_exec (fuel : nat) (a : action) : keeps (exec fuel a).
Proof.
  revert a. induction fuel as [| fuel IH]; intros a; cbn.
  - intros w Hw. split; [done | apply evolves_refl].
  - pose proof (keeps_run_with (exec fuel) IH) as Hrun.
    destruct a.
    + apply keeps_subscribe_callback.
    + apply keeps_unsubscribe.
    + by apply keeps_globalListener.
    + apply keeps_update.
    + by apply keeps_resolveSelect.
    + apply keeps_throw.
Qed.

Lemma keeps_run (fuel : nat) (program : list action) :
  keeps (run fuel program).
Proof. apply keeps_run_with, keeps_exec. Qed.

Lemma consistent_initial (s : state) : consistent (initial s).
Proof.
  split.
  - cbn. lia.
  - intros array p ->%list_elem_of_singleton Hin. by apply elem_of_nil in Hin.
  - intros p pr v c s' Hp. cbn in Hp. by rewrite lookup_nil in Hp.
Qed.

(** *** A promise whose waiter is out of the listener array *)

(** Promise [p] exists and its waiter is not subscribed. *)
Definition stranded (p : nat) (w : world) : Prop :=
  p < length (promises w) ∧ (Waiter p ∉ current w).

(** From [w] to [w'] promise [p] has not changed, its waiter is still
    out, and no array that was free of the waiter has received it. *)
Record untouched (p : nat) (w w' : world) : Prop := Untouched {
  still_stranded : stranded p w';
  same_promise : promises w' !! p = promises w !! p;
  arrays_stay_free :
    ∀ a array, arrays w !! a = Some array -> (Waiter p ∉ array) ->
      ∃ array', arrays w' !! a = Some array' ∧ (Waiter p ∉ array')
}.

Definition leaves {A} (p : nat) (m : M A) : Prop :=
  ∀ w, stranded p w -> untouched p w (world_of (m w)).

Lemma untouched_same (p : nat) (w w' : world) :
  stranded p w ->
  arrays w' = arrays w -> listeners w' = listeners w ->
  promises w' = promises w ->
  untouched p w w'.
Proof.
  intros [Hlt Hout] Ha Hl Hp. split.
  - split; [by rewrite Hp |]. unfold current. by rewrite Ha, Hl.
  - by rewrite Hp.
  - intros a array Hlook Hfree. exists array. by rewrite Ha.
Qed.

Lemma untouched_trans (p : nat) (w1 w2 w3 : world) :
  untouched p w1 w2 -> untouched p w2 w3 -> untouched p w1 w3.
Proof.
  intros [_ Hp12 Ha12] [Hs3 Hp23 Ha23]. split; [done | congruence |].
  intros a array Hlook Hfree.
  destruct (Ha12 a array Hlook Hfree) as (array2 & Hlook2 & Hfree2).
  by apply (Ha23 a array2).
Qed.

Lemma leaves_ret {A} (p : nat) (a : A) : leaves p (ret a).
Proof. intros w Hw. by apply untouched_same. Qed.

Lemma leaves_throw {A} (p : nat) (e : error) : leaves p (@throw A e).
Proof. intros w Hw. by apply untouched_same. Qed.

Lemma leaves_bind {A B} (p : nat) (m : M A) (k : A -> M B) :
  leaves p m -> (∀ a, leaves p (k a)) -> leaves p (bind m k).
Proof.
  intros Hm Hk w Hw. unfold bind. specialize (Hm w Hw).
  destruct (m w) as [a w1 | why w1]; cbn [world_of] in *; [| done].
  eapply untouched_trans; [exact Hm |]. apply Hk. by destruct Hm.
Qed.

Lemma leaves_subscribe (p : nat) (l : listener) :
  l ≠ Waiter p -> leaves p (subscribe l).
Proof.
  intros Hne w [Hlt Hout]. split.
  - split; [done |]. intros Hin.
    apply subscribe_current in Hin as [Hin | Hin]; [by apply Hne | by apply Hout].
  - done.
  - intros a array Hlook Hfree. cbn. rewrite list_lookup_alter.
    destruct (decide (listeners w = a)) as [-> | _]; rewrite Hlook; cbn;
      [| by eauto].
    eexists. split; [done |].
    intros [Hin | Hin%list_elem_of_singleton]%elem_of_app; [by apply Hfree | done].
Qed.

Lemma leaves_unsubscribe (p : nat) (l : listener) :
  leaves p (unsubscribe l).
Proof.
  intros w [Hlt Hout]. split.
  - split; [done |]. rewrite current_unsubscribe. unfold without.
    by intros [_ Hin]%list_elem_of_filter.
  - done.
  - intros a array Hlook Hfree. exists array. split; [| done].
    cbn. by apply lookup_app_l_Some.
Qed.

Lemma leaves_update (p : nat) (change : state -> state) :
  leaves p (update change).
Proof. intros w Hw. by apply untouched_same. Qed.

Lemma leaves_settle (p q : nat) (s : status) :
  q ≠ p -> leaves p (settle q s).
Proof.
  intros Hne w [Hlt Hout]. split.
  - split; [cbn; by rewrite length_alter | done].
  - cbn. by rewrite list_lookup_alter_ne.
  - intros a array Hlook Hfree. by exists array.
Qed.

Lemma leaves_resolve (p q : nat) (v : result) (checked : state) :
  q ≠ p -> leaves p (resolve q v checked).
Proof. intros Hne w. by apply leaves_settle. Qed.

Lemma leaves_run_with (p : nat) (exec : action -> M unit) :
  (∀ a, leaves p (exec a)) -> ∀ program, leaves p (run_with exec program).
Proof.
  intros Hexec program. induction program as [| a rest IH]; cbn.
  - apply leaves_ret.
  - by apply leaves_bind.
Qed.

Section Leaving.

Variable p : nat.
Variable run : list action -> M unit.
Hypothesis run_leaves : ∀ program, leaves p (run program).

Lemma leaves_getResult (sel : selector) (arguments : args) :
  leaves p (getResult run sel arguments).
Proof.
  intros w Hw. unfold getResult.
  specialize (run_leaves (effects sel arguments (store w)) w Hw).
  by destruct (run _ w).
Qed.

Lemma leaves_waiter (q : nat) : q ≠ p -> leaves p (waiter run q).
Proof.
  intros Hne w Hw. unfold waiter.
  destruct (promises w !! q) as [pr |]; [| by apply untouched_same].
  destruct hasFinishedResolution as [finished |];
    [| by apply untouched_same].
  destruct (getResolveSelectors selectors !! selectorName pr) as [sel |];
    [| by apply untouched_same].
  destruct (finished _ _ _); [| by apply untouched_same].
  apply leaves_bind; [apply leaves_unsubscribe | intros _ |]; [| done].
  apply leaves_bind; [apply leaves_getResult | intros v].
  by apply leaves_resolve.
Qed.

Lemma leaves_call (l : listener) : l ≠ Waiter p -> leaves p (call run l).
Proof.
  destruct l as [id | q]; cbn; intros Hne; [apply run_leaves |].
  apply leaves_waiter. congruence.
Qed.

Lemma leaves_forEach (pass a n : nat) :
  ∀ k w,
    stranded p w ->
    (∀ array, arrays w !! a = Some array -> Waiter p ∉ array) ->
    untouched p w (world_of (forEach (call run) pass a n k w)).
Proof.
  induction n as [| n IH]; intros k w Hw Hfree.
  - by apply untouched_same.
  - rewrite forEach_step.
    destruct (arrays w !! a) as [array |] eqn:Hlook; cbn [mbind option_bind];
      [| apply IH; [done | intros array0 H0; congruence]].
    destruct (array !! k) as [l |] eqn:Hk;
      [| apply IH; [done | intros array0 H0; apply Hfree; congruence]].
    set (w1 := World _ _ _ _ _ (invoked w ++ [(pass, l)])).
    assert (H1 : untouched p w w1) by (by apply untouched_same).
    assert (Hl : l ≠ Waiter p).
    { intros ->. apply (Hfree array eq_refl).
      by eapply list_elem_of_lookup_2. }
    pose proof (leaves_call l Hl w1 (still_stranded _ _ _ H1)) as H2.
    destruct (call run l w1) as [u w2 | why w2]; cbn [world_of] in *;
      [| by eapply untouched_trans].
    eapply untouched_trans; [exact H1 |].
    eapply untouched_trans; [exact H2 |].
    apply IH; [by destruct H2 |].
    intros array2 Hlook2.
    destruct (arrays_stay_free _ _ _ H2 a array Hlook (Hfree array eq_refl))
      as (array' & Hlook' & Hfree').
    congruence.
Qed.

Lemma leaves_globalListener : leaves p (globalListener (call run)).
Proof.
  intros w Hw. unfold globalListener.
  set (w0 := World _ _ _ _ (S (passes w)) _).
  assert (H0 : untouched p w w0) by (by apply untouched_same).
  eapply untouched_trans; [exact H0 |].
  apply leaves_forEach; [by destruct H0 |].
  intros array Hlook. destruct Hw as [_ Hout].
  unfold current in Hout. cbn in Hlook. by rewrite Hlook in Hout.
Qed.

Lemma leaves_resolveSelect (name : string) (arguments : args) :
  leaves p (resolveSelect run name arguments).
Proof.
  intros w Hw. unfold resolveSelect.
  destruct (getResolveSelectors selectors !! name) as [sel |];
    [| by apply untouched_same].
  set (q := length (promises w)).
  set (w1 := World _ _ _ (promises w ++ _) _ _).
  assert (Hq : q ≠ p) by (destruct Hw; subst q; lia).
  assert (H1 : untouched p w w1).
  { destruct Hw as [Hlt Hout]. split.
    - split; [cbn; rewrite length_app; lia | done].
    - cbn. by rewrite lookup_app_l.
    - intros a array Hlook Hfree. by exists array. }
  assert (H2 : untouched p w1
                 (world_of (executor run q name arguments sel w1))).
  { apply (leaves_bind p (getResult run sel arguments));
      [apply leaves_getResult | | by destruct H1].
    intros v. destruct hasFinishedResolution as [finished |];
      [| apply leaves_throw].
    intros w2 Hw2. destruct (finished _ _ _);
      [by apply leaves_resolve |].
    apply (leaves_bind p (settle q Waiting)); [by apply leaves_settle | | done].
    intros _. apply leaves_subscribe. congruence. }
  destruct (executor run q name arguments sel w1) as [u w2 | [e |] w2];
    cbn [world_of] in *.
  - by eapply untouched_trans.
  - eapply untouched_trans; [exact H1 |].
    eapply untouched_trans; [exact H2 |].
    apply leaves_settle; [done | by destruct H2].
  - by eapply untouched_trans.
Qed.

End Leaving.

Lemma leaves_exec (p fuel : nat) (a : action) : leaves p (exec fuel a).
Proof.
  revert a. induction fuel as [| fuel IH]; intros a; cbn.
  - intros w Hw. by apply untouched_same.
  - pose proof (leaves_run_with p (exec fuel) IH) as Hrun.
    destruct a.
    + by apply leaves_subscribe.
    + apply leaves_unsubscribe.
    + by apply leaves_globalListener.
    + apply leaves_update.
    + by apply leaves_resolveSelect.
    + apply leaves_throw.
Qed.

Lemma leaves_run (p fuel : nat) (program : list action) :
  leaves p (run fuel program).
Proof. apply leaves_run_with, leaves_exec. Qed.

Lemma allocation_consistent (w : world) (pr : promise) :
  settlement pr = Starting ->
  consistent w ->
  consistent
    (World (store w) (arrays w) (listeners w) (promises w ++ [pr])
       (passes w) (invoked w)).
Proof.
  intros Hst [Hvalid Hknown Hsound]. split.
  - exact Hvalid.
  - intros array q Harr Hin.
    destruct (Hknown array q Harr Hin) as (pr' & Hq & Hne).
    exists pr'. split; [| done]. cbn. by apply lookup_app_l_Some.
  - intros q pr' v c s' Hq Hres. cbn in Hq.
    apply lookup_app_Some in Hq as [Hq | [_ Hq]]; [by eapply Hsound |].
    apply list_lookup_singleton_Some in Hq as [_ <-]. congruence.
Qed.

(** *** What the executor and the waiter do with the selector *)

Lemma calls_of_elem (pass : nat) (l : listener)
    (entries : list (nat * listener)) :
  l ∈ calls_of pass entries -> (pass, l) ∈ entries.
Proof.
  unfold calls_of. intros ([q x] & -> & Hin)%list_elem_of_fmap.
  apply list_elem_of_filter in Hin as [Hq Hin]. cbn in Hq. by subst q.
Qed.

(** A pass that completes has called every listener subscribed when it
    began. *)
Lemma pass_calls_subscribed (fuel : nat) (l : listener) (w : world) :
  l ∈ current w ->
  completes (exec (S fuel) Notify w) ->
  (passes w, l) ∈ invoked (world_of (exec (S fuel) Notify w)).
Proof.
  intros Hin Hdone. cbn [exec] in *.
  destruct (globalListener_calls (run_with (exec fuel))
              (extending_run_with _ (extending_exec fuel)) w)
    as (_ & entries & Hlog & _ & Hall).
  rewrite Hlog. apply elem_of_app. right. apply calls_of_elem.
  by rewrite (Hall Hdone).
Qed.

(** The call of a promise-returning selector calls the selector (its
    effects run in the world where the promise is allocated); when that
    call returns, in [w2], the promise is resolved at once with the value
    read in [w2] if resolution has finished there, and otherwise it
    waits, its waiter being subscribed last. *)
Lemma resolveSelect_calls_selector (fuel : nat) (name : string)
    (given : args) (sel : selector)
    (finished : string -> args -> state -> bool) (w w2 : world) :
  consistent w ->
  getResolveSelectors selectors !! name = Some sel ->
  hasFinishedResolution = Some finished ->
  run fuel (effects sel given (store w))
    (World (store w) (arrays w) (listeners w)
       (promises w ++ [Promise name given Starting]) (passes w) (invoked w))
  = Normal tt w2 ->
  ∃ w',
    exec (S fuel) (ResolveSelect name given) w = Normal tt w'
    ∧ store w' = store w2
    ∧ if finished name given (store w2)
      then promises w' !! length (promises w)
           = Some (Promise name given
                     (Resolved (value sel given (store w2))
                        (store w2) (store w2)))
           ∧ current w' = current w2
      else promises w' !! length (promises w)
           = Some (Promise name given Waiting)
           ∧ current w' = current w2 ++ [Waiter (length (promises w))].
Proof.
  intros Hw Hsel Hfin Hrun.
  set (p := length (promises w)) in *.
  set (w1 := World _ _ _ (promises w ++ _) _ _) in *.
  assert (Hc1 : consistent w1) by (by apply allocation_consistent).
  assert (Hp1 : promises w1 !! p = Some (Promise name given Starting))
    by (cbn; by rewrite list_lookup_middle).
  assert (Hs1 : stranded p w1).
  { split; [cbn; rewrite length_app; cbn; lia |].
    intros Hin. change (current w1) with (current w) in Hin.
    destruct (current_in_arrays _ _ Hin) as (array & Harr & Hin').
    destruct (waiters_known _ Hw array p Harr Hin') as (pr & Hp & _).
    apply lookup_lt_Some in Hp. lia. }
  pose proof (leaves_run p fuel (effects sel given (store w)) w1 Hs1) as Hu.
  destruct (keeps_run fuel (effects sel given (store w)) w1 Hc1) as [Hc2 _].
  rewrite Hrun in Hu, Hc2. cbn [world_of] in Hu, Hc2.
  assert (Hp2 : promises w2 !! p = Some (Promise name given Starting))
    by (by rewrite (same_promise _ _ _ Hu)).
  cbn [exec]. unfold resolveSelect. rewrite Hsel. fold p. fold w1.
  unfold executor, bind, getResult.
  change (store w1) with (store w).
  change (run_with (exec fuel)) with (run fuel). rewrite Hrun, Hfin.
  destruct (finished name given (store w2)).
  - eexists. split; [reflexivity |]. split; [done |]. split; [| done].
    cbn. by rewrite list_lookup_alter_eq, Hp2.
  - eexists. split; [reflexivity |]. split; [done |]. split.
    + cbn. by rewrite list_lookup_alter_eq, Hp2.
    + change (current
                (world_of (subscribe (Waiter p)
                             (world_of (settle p Waiting w2))))
              = current w2 ++ [Waiter p]).
      rewrite current_subscribe; [done |].
      exact (listeners_allocated _ Hc2).
Qed.

(** The waiter of a waiting promise, once resolution has finished:
    it unsubscribes itself and then calls the selector.  When that call
    returns, in [w2], the promise is resolved with the value read in
    [w2]; when it does not, the failure is passed on, the promise is as
    it was and nothing that runs later changes it. *)
Lemma waiter_calls_selector (fuel p : nat) (pr : promise) (sel : selector)
    (finished : string -> args -> state -> bool) (w : world) :
  promises w !! p = Some pr ->
  settlement pr = Waiting ->
  hasFinishedResolution = Some finished ->
  getResolveSelectors selectors !! selectorName pr = Some sel ->
  finished (selectorName pr) (arguments pr) (store w) = true ->
  match
    run fuel (effects sel (arguments pr) (store w))
      (world_of (unsubscribe (Waiter p) w))
  with
  | Normal _ w2 =>
      ∃ w',
        call (run fuel) (Waiter p) w = Normal tt w'
        ∧ promises w' !! p
          = Some (Promise (selectorName pr) (arguments pr)
                    (Resolved (value sel (arguments pr) (store w2))
                       (store w) (store w2)))
        ∧ (Waiter p ∉ current w')
  | Abrupt why w2 =>
      call (run fuel) (Waiter p) w = Abrupt why w2
      ∧ (Waiter p ∉ current w2)
      ∧ ∀ fuel' program',
          promises (world_of (run fuel' program' w2)) !! p = Some pr
  end.
Proof.
  intros Hp Hst Hfin Hsel Hdone.
  set (w1 := world_of (unsubscribe (Waiter p) w)).
  assert (Hs1 : stranded p w1).
  { split; [by eapply lookup_lt_Some |].
    unfold w1. rewrite current_unsubscribe. unfold without.
    by intros [? _]%list_elem_of_filter. }
  pose proof (leaves_run p fuel (effects sel (arguments pr) (store w)) w1 Hs1)
    as Hu.
  assert (Hcall : call (run fuel) (Waiter p) w
                  = match run fuel (effects sel (arguments pr) (store w)) w1 with
                    | Normal _ w2 =>
                        resolve p (value sel (arguments pr) (store w2))
                          (store w) w2
                    | Abrupt why w2 => Abrupt why w2
                    end).
  { cbn [call]. unfold waiter. rewrite Hp, Hfin, Hsel, Hdone.
    rewrite bind_unsubscribe. fold w1. unfold bind, getResult.
    change (store w1) with (store w).
    by destruct (run fuel (effects sel (arguments pr) (store w)) w1). }
  rewrite Hcall.
  destruct (run fuel (effects sel (arguments pr) (store w)) w1)
    as [[] w2 | why w2]; cbn [world_of] in Hu;
    destruct Hu as [[Hlt2 Hout2] Hp2 _];
    change (promises w1) with (promises w) in Hp2; rewrite Hp in Hp2.
  - eexists. split; [reflexivity |]. split; [| done].
    cbn. rewrite list_lookup_alter_eq, Hp2. cbn. by rewrite Hst.
  - split; [done |]. split; [done |]. intros fuel' program'.
    destruct (leaves_run p fuel' program' w2) as [_ Hsame _]; [done |].
    by rewrite Hsame.
Qed.


(** *** Round trips, passes that end early, failures of selectors *)

(** The worlds consumer code can bring about from a fresh registry. *)
Definition reachable (w : world) : Prop :=
  ∃ fuel program s0, w = world_of (run fuel program (initial s0)).

Lemma reachable_consistent (w : world) : reachable w -> consistent w.
Proof.
  intros (fuel & program & s0 & ->).
  apply (keeps_run fuel program (initial s0)), consistent_initial.
Qed.

Lemma without_same_iff (array : list listener) (l : listener) :
  without array l = array <-> l ∉ array.
Proof.
  split.
  - intros Heq Hin. rewrite <- Heq in Hin. unfold without in Hin.
    by apply list_elem_of_filter in Hin as [? _].
  - unfold without. induction array as [| x rest IH]; [done |].
    intros Hnot. apply not_elem_of_cons in Hnot as [Hne Hrest].
    rewrite filter_cons_True by done. by rewrite IH.
Qed.

(** X9: Subscribing a callback and calling the function [subscribe] returned
    gives back the array of listeners as it was exactly when the callback
    was not registered before; when it was, its earlier registrations are
    gone as well.  Neither call touches the state or the promises. *)
Theorem subscribe_unsubscribe_round_trip (fuel id : nat) (w : world) :
  listeners w < length (arrays w) ->
  let o := run (S fuel) [Subscribe id; Unsubscribe id] w in
  completes o
  ∧ current (world_of o) = filter (fun x => x ≠ Callback id) (current w)
  ∧ (current (world_of o) = current w <-> Callback id ∉ current w)
  ∧ store (world_of o) = store w
  ∧ promises (world_of o) = promises w.
Proof.
  intros Hlt. cbn zeta.
  change (run (S fuel) [Subscribe id; Unsubscribe id] w)
    with (Normal tt (world_of (unsubscribe (Callback id)
                       (world_of (subscribe (Callback id) w))))).
  cbn [completes world_of]. split; [done |].
  rewrite current_unsubscribe, (current_subscribe _ w Hlt).
  rewrite without_app, without_self, app_nil_r.
  split; [done |]. split; [apply without_same_iff |]. done.
Qed.

(** A pass that ends abruptly stopped at the listener whose call ended
    abruptly: it called the listeners of the array up to that one, in
    order, and none of those after it. *)
Lemma forEach_abrupt (fuel pass a : nat) (array : list listener) (n k : nat)
    (w w' : world) (why : abrupt) :
  pass < passes w ->
  arrays w !! a = Some array ->
  k + n ≤ length array ->
  forEach (call (run fuel)) pass a n k w = Abrupt why w' ->
  ∃ i l entries w1,
    i < n
    ∧ array !! (k + i) = Some l
    ∧ invoked w' = invoked w ++ entries
    ∧ calls_of pass entries = take (S i) (drop k array)
    ∧ call (run fuel) l w1 = Abrupt why w'.
Proof.
  revert array k w.
  induction n as [| n IH]; intros array k w Hpass Hlook Hlen; [done |].
  rewrite forEach_step, Hlook. cbn [mbind option_bind].
  destruct (array !! k) as [l |] eqn:Hk;
    [| apply lookup_ge_None in Hk; lia].
  set (w1 := World _ _ _ _ _ (invoked w ++ [(pass, l)])).
  pose proof (extending_call (run fuel) (extending_run fuel) l w1) as Hcall.
  destruct (call (run fuel) l w1) as [u w2 | why2 w2] eqn:Hrun;
    cbn in Hcall; destruct Hcall as [Harr Hpas (e2 & He2 & Hf2)];
    assert (Hnone : calls_of pass e2 = [])
      by (apply calls_of_other_passes;
          eapply Forall_impl; [exact Hf2 |]; cbn; intros e He; lia).
  - intros Hrest.
    destruct (Harr a array Hlook) as (array2 & Hlook2 & Hpre2).
    destruct (IH array2 (S k) w2) as (i & l' & e3 & w3 & Hi & Hl' & He3 & Hc3 & Hab);
      [cbn in Hpas; lia | exact Hlook2
       | apply prefix_length in Hpre2; lia | exact Hrest |].
    destruct Hpre2 as [extra ->].
    exists (S i), l', ((pass, l) :: e2 ++ e3), w3.
    split; [lia |]. split.
    { rewrite lookup_app_l in Hl' by lia.
      by replace (k + S i) with (S k + i) by lia. }
    split; [rewrite He3, He2; cbn; by rewrite <- !app_assoc |].
    split; [| exact Hab].
    rewrite calls_of_cons, calls_of_app, Hnone, Hc3. cbn [app].
    rewrite (drop_S _ _ _ Hk). rewrite firstn_cons. f_equal.
    rewrite drop_app_le by lia. rewrite take_app_le; [done |].
    rewrite length_drop. lia.
  - intros [= -> ->].
    exists 0, l, ((pass, l) :: e2), w1.
    split; [lia |]. split; [by rewrite Nat.add_0_r |].
    split; [rewrite He2; cbn; by rewrite <- app_assoc |].
    split; [| exact Hrun].
    rewrite calls_of_cons, Hnone. by rewrite (drop_S _ _ _ Hk).
Qed.

(** X10: When a pass of [globalListener] ends abruptly (a listener threw), the
    listeners of the array are split in three: those before the one that
    threw were called, in order, then that one, and those after it were
    not called in this pass; the exception of the listener is what the
    pass passes on to its caller. *)
Theorem abrupt_listener_ends_pass (fuel : nat) (w w' : world)
    (why : abrupt) :
  exec (S fuel) Notify w = Abrupt why w' ->
  ∃ called l rest entries w1,
    current w = called ++ l :: rest
    ∧ invoked w' = invoked w ++ entries
    ∧ calls_of (passes w) entries = called ++ [l]
    ∧ call (run fuel) l w1 = Abrupt why w'.
Proof.
  cbn [exec]. unfold globalListener, current.
  set (w0 := World _ _ _ _ (S (passes w)) _).
  destruct (arrays w !! listeners w) as [array |] eqn:Hlook;
    cbn [default from_option id]; [| done].
  intros Hab.
  destruct (forEach_abrupt fuel (passes w) (listeners w) array
              (length array) 0 w0 w' why)
    as (i & l & entries & w1 & Hi & Hl & Hlog & Hcalls & Hcall);
    [cbn; lia | exact Hlook | lia | exact Hab |].
  cbn in Hl. rewrite drop_0 in Hcalls.
  exists (take i array), l, (drop (S i) array), entries, w1.
  split; [by rewrite take_drop_middle |].
  split; [exact Hlog |]. split; [| exact Hcall].
  rewrite Hcalls. by apply take_S_r.
Qed.

(** X11: The call of a promise-returning selector from consumer code, when it
    returns: the new promise carries the selector's name and arguments;
    it is resolved with the value just read when resolution had finished
    by then, and otherwise it waits with its waiter subscribed. *)
Theorem resolveSelect_resolves_or_waits (fuel : nat) (name : string)
    (given : args) (sel : selector)
    (finished : string -> args -> state -> bool) (w w' : world) :
  reachable w ->
  getResolveSelectors selectors !! name = Some sel ->
  hasFinishedResolution = Some finished ->
  exec (S fuel) (ResolveSelect name given) w = Normal tt w' ->
  ∃ pr,
    promises w' !! length (promises w) = Some pr
    ∧ selectorName pr = name
    ∧ arguments pr = given
    ∧ match settlement pr with
      | Resolved v checked settled =>
          checked = store w' ∧ settled = store w'
          ∧ finished name given (store w') = true
          ∧ v = value sel given (store w')
      | Waiting =>
          finished name given (store w') = false
          ∧ Waiter (length (promises w)) ∈ current w'
      | Rejected _ => True
      | Starting => False
      end.
Proof.
  intros Hw Hsel Hfin Hrun.
  apply (resolveSelect_settles (run fuel) (keeps_run fuel) name given sel
           finished w w'); [by apply reachable_consistent | done | done |].
  exact Hrun.
Qed.

(** X12: An exception of the selector called by the executor does not reach
    the caller of the promise-returning selector: the call returns, the
    new promise is rejected with that exception and no waiter is
    subscribed.  When the bundle has no function [hasFinishedResolution],
    every promise the call returns is rejected. *)
Theorem resolveSelect_rejects_instead_of_throwing (fuel : nat)
    (name : string) (given : args) (sel : selector) (w : world) :
  reachable w ->
  getResolveSelectors selectors !! name = Some sel ->
  let p := length (promises w) in
  let allocated :=
    World (store w) (arrays w) (listeners w)
      (promises w ++ [Promise name given Starting]) (passes w) (invoked w) in
  let o := exec (S fuel) (ResolveSelect name given) w in
  (∀ e w2,
     run fuel (effects sel given (store w)) allocated = Abrupt (Thrown e) w2 ->
     completes o
     ∧ promises (world_of o) !! p = Some (Promise name given (Rejected e))
     ∧ arrays (world_of o) = arrays w2
     ∧ listeners (world_of o) = listeners w2)
  ∧ (hasFinishedResolution = None ->
     completes o ->
     (∃ e, promises (world_of o) !! p = Some (Promise name given (Rejected e)))
     ∧ (Waiter p ∉ current (world_of o))).
Proof.
  intros Hw%reachable_consistent Hsel. cbn zeta. cbn [exec].
  unfold resolveSelect. rewrite Hsel.
  set (p := length (promises w)).
  set (w1 := World _ _ _ (promises w ++ _) _ _).
  assert (Hp1 : promises w1 !! p = Some (Promise name given Starting))
    by (cbn; by rewrite list_lookup_middle).
  assert (Hc1 : consistent w1) by (by apply allocation_consistent).
  unfold executor, bind.
  destruct (keeps_getResult (run fuel) (keeps_run fuel) sel given w1 Hc1)
    as [Hc2 He2].
  unfold getResult in *. change (store w1) with (store w) in *.
  change (run_with (exec fuel)) with (run fuel) in *.
  destruct (run fuel (effects sel given (store w)) w1)
    as [u w2 | why w2] eqn:Hget; cbn [world_of] in *;
    destruct (promises_kept _ _ He2 p _ Hp1) as (pr2 & Hp2 & Hn2 & Ha2 & Hs2);
    apply may_become_Starting in Hs2; cbn in Hn2, Ha2, Hs2;
    assert (Hst2 : settlement pr2 = Starting) by (by apply Hs2);
    assert (Hpr2 : pr2 = Promise name given Starting)
      by (destruct pr2; cbn in *; congruence);
    subst pr2.
  - split; [intros e w3 Hrun; congruence |].
    intros Hnone. rewrite Hnone. cbn. intros _.
    rewrite list_lookup_alter_eq, Hp2. cbn.
    split; [by eexists |].
    change (Waiter p ∉ current w2). intros Hin.
    destruct (current_in_arrays _ _ Hin) as (array & Harr & Hin').
    destruct (waiters_known _ Hc2 array p Harr Hin') as (pr' & Hp' & Hne).
    rewrite Hp2 in Hp'. injection Hp' as <-. by apply Hne.
  - split.
    + intros e w3 Hrun.
      injection Hrun as -> ->. cbn.
      by rewrite list_lookup_alter_eq, Hp2.
    + intros _. destruct why as [e |]; cbn; [| done]. intros _.
      rewrite list_lookup_alter_eq, Hp2. cbn.
      split; [by eexists |].
      change (Waiter p ∉ current w2). intros Hin.
      destruct (current_in_arrays _ _ Hin) as (array & Harr & Hin').
      destruct (waiters_known _ Hc2 array p Harr Hin') as (pr' & Hp' & Hne).
      rewrite Hp2 in Hp'. injection Hp' as <-. by apply Hne.
Qed.

Lemma omit_lookup_None {A} (object : gmap string A) (names : list string)
    (name : string) :
  omit object names !! name = None
  <-> name ∈ names ∨ object !! name = None.
Proof.
  destruct (omit object names !! name) as [a |] eqn:Hlook.
  - apply omit_lookup_Some in Hlook as [Hnot Hsome].
    split; [done |]. intros [Hin | Hnone]; [done | congruence].
  - split; [intros _ | done].
    destruct (decide (name ∈ names)) as [Hin | Hnot]; [by left | right].
    destruct (object !! name) as [a |] eqn:Hsome; [| done].
    assert (omit object names !! name = Some a)
      by (by apply omit_lookup_Some).
    congruence.
Qed.

(** X13: The object of promise-returning selectors has no wrapper for the five
    resolution selectors nor for a name the bundle lacks: the call of
    such a name (one that [Object.prototype] does not supply either)
    throws a [TypeError] and leaves the registry as it was, without a
    new promise; and the call of a name that has a wrapper never
    throws. *)
Theorem resolveSelect_wraps_no_resolution_selector (fuel : nat)
    (name : string) (given : args) (w : world) :
  name ∉ object_prototype_names ->
  (name ∈ omitted ∨ selectors !! name = None ->
   exec (S fuel) (ResolveSelect name given) w
   = Abrupt (Thrown (TypeError "not a function")) w)
  ∧ (name ∉ omitted -> is_Some (selectors !! name) ->
     ∀ e w', exec (S fuel) (ResolveSelect name given) w
             ≠ Abrupt (Thrown e) w').
Proof.
  intros _. cbn [exec]. unfold resolveSelect. split.
  - intros Hno. apply (omit_lookup_None selectors omitted) in Hno.
    unfold getResolveSelectors. by rewrite Hno.
  - intros Hnot [sel Hsel] e w'.
    assert (Hfound : getResolveSelectors selectors !! name = Some sel)
      by (by apply omit_lookup_Some).
    rewrite Hfound.
    by destruct (executor _ _ _ _ _ _) as [u w2 | [e2 |] w2].
Qed.

(** X14: The waiter of a waiting promise, when a pass calls it: while
    resolution has not finished it does nothing; once it has, the waiter
    is unsubscribed whatever happens next, and if the selector returns
    the promise is resolved, still for the same selector and
    arguments. *)
Theorem waiter_resolves_waiting_promise (fuel p : nat) (pr : promise)
    (w : world) (finished : string -> args -> state -> bool)
    (sel : selector) :
  reachable w ->
  promises w !! p = Some pr ->
  settlement pr = Waiting ->
  hasFinishedResolution = Some finished ->
  getResolveSelectors selectors !! selectorName pr = Some sel ->
  let o := call (run fuel) (Waiter p) w in
  (finished (selectorName pr) (arguments pr) (store w) = false ->
   o = Normal tt w)
  ∧ (finished (selectorName pr) (arguments pr) (store w) = true ->
     (Waiter p ∉ current (world_of o))
     ∧ (completes o ->
        ∃ pr' v checked settled,
          promises (world_of o) !! p = Some pr'
          ∧ settlement pr' = Resolved v checked settled
          ∧ selectorName pr' = selectorName pr
          ∧ arguments pr' = arguments pr)).
Proof.
  intros Hw%reachable_consistent Hp Hst Hfin Hsel. cbn zeta. cbn [call].
  split.
  - intros Hnot. unfold waiter. by rewrite Hp, Hfin, Hsel, Hnot.
  - intros Hdone.
    assert (Hkeep : keeps_at (waiter (run fuel) p) w).
    { apply keeps_waiter; [apply keeps_run |].
      exists pr. split; [done |]. by rewrite Hst. }
    destruct (Hkeep Hw) as [Hc' He'].
    split.
    + unfold waiter. rewrite Hp, Hfin, Hsel, Hdone.
      rewrite bind_unsubscribe.
      destruct (keeps_unsubscribe (Waiter p) w Hw) as [Hc1 _].
      assert (Hout1 : Waiter p
                      ∉ current (world_of (unsubscribe (Waiter p) w))).
      { rewrite current_unsubscribe. unfold without.
        by intros [? _]%list_elem_of_filter. }
      assert (Hp1 : promises (world_of (unsubscribe (Waiter p) w)) !! p
                    = Some pr) by exact Hp.
      set (w1 := world_of (unsubscribe (Waiter p) w)) in *.
      unfold bind.
      destruct (keeps_getResult (run fuel) (keeps_run fuel) sel
                  (arguments pr) w1 Hc1) as [_ He2].
      assert (Hout2 : Waiter p
                      ∉ current (world_of (getResult (run fuel) sel
                                             (arguments pr) w1))).
      { apply (waiters_stay_out _ _ He2); [by eapply lookup_lt_Some | done]. }
      by destruct (getResult (run fuel) sel (arguments pr) w1)
        as [v w2 | why w2].
    + intros Hok.
      destruct (waiter (run fuel) p w) as [[] w' | why w'] eqn:Hrun;
        [| done].
      destruct (waiter_resolves (run fuel) (keeps_run fuel) p pr w w'
                  finished sel Hw Hp Hst Hfin Hsel Hdone Hrun)
        as ((pr' & v & c & s' & Hp' & Hres) & _).
      cbn [world_of] in *.
      destruct (promises_kept _ _ He' p pr Hp) as (pr2 & Hp2 & Hn2 & Ha2 & _).
      rewrite Hp' in Hp2. injection Hp2 as <-.
      by exists pr', v, c, s'.
Qed.

End WithStores.

Arguments Subscribe {state args} id.
Arguments Unsubscribe {state args} id.
Arguments Notify {state args}.
Arguments Update {state args} change.
Arguments ResolveSelect {state args} selectorName arguments.
Arguments Raise {state args}.
Arguments Selector {state result args} effects value.
Arguments Promise {state result args} selectorName arguments settlement.
Arguments Resolved {state result} v checked settled.
Arguments Waiting {state result}.
Arguments World {state result args} store arrays listeners promises passes
  invoked.
Arguments initial {state result args} s.
Arguments current {state result args} w.
Arguments promises {state result args} w.
Arguments invoked {state result args} w.
Arguments passes {state result args} w.
Arguments settlement {state result args} p.
Arguments world_of {state result args A} o.
Arguments completes {state result args A} o.
Arguments unsubscribe {state result args} l w.

(** *** A store with one resolver-backed selector, run on concrete data *)

(** The state is a number, [0] until the resolver has finished;
    [getThing] notifies when called (its resolver is started) and reads
    the number. *)
Definition getThing : selector nat nat unit :=
  Selector (fun _ _ => [Notify]) (fun _ s => s).

Definition bundle : gmap string (selector nat nat unit) :=
  {[ "getThing" := getThing ]}.

Definition finished : option (string -> unit -> nat -> bool) :=
  Some (fun _ _ s => Nat.ltb 0 s).

(** Callback [1] subscribes callback [2]; the others do nothing. *)
Definition bodies (id : nat) : list (action nat unit) :=
  match id with
  | 1 => [Subscribe 2]
  | _ => []
  end.

Definition play (fuel : nat) (program : list (action nat unit))
    (w : world nat nat unit) : world nat nat unit :=
  world_of (run nat nat unit bundle finished bodies fuel program w).

Definition subscribed_once : world nat nat unit :=
  play 1 [Subscribe 1] (initial 0).

Definition subscribed_twice : world nat nat unit :=
  play 1 [Subscribe 1; Subscribe 1] (initial 0).

Definition resolving : list (action nat unit) :=
  [ ResolveSelect "getThing" tt; Update (fun _ => 42); Notify ].

Example pass_skips_new_listener :
  current (play 2 [Notify] subscribed_once) = [Callback 1; Callback 2]
  ∧ invoked (play 2 [Notify] subscribed_once) = [(0, Callback 1)]
  ∧ invoked (play 2 [Notify; Notify] subscribed_once)
    = [(0, Callback 1); (1, Callback 1); (1, Callback 2)].
Proof. vm_compute. repeat split; reflexivity. Qed.

Example promise_waits_then_resolves :
  promises (play 3 [ResolveSelect "getThing" tt] (initial 0))
  = [Promise "getThing" tt Waiting]
  ∧ current (play 3 [ResolveSelect "getThing" tt] (initial 0)) = [Waiter 0]
  ∧ promises (play 3 resolving (initial 0))
    = [Promise "getThing" tt (Resolved 42 42 42)]
  ∧ current (play 3 resolving (initial 0)) = [].
Proof. vm_compute. repeat split; reflexivity. Qed.

Example promise_resolves_at_once :
  promises (play 3 [ResolveSelect "getThing" tt] (initial 7))
  = [Promise "getThing" tt (Resolved 7 7 7)]
  ∧ current (play 3 [ResolveSelect "getThing" tt] (initial 7)) = [].
Proof. vm_compute. repeat split; reflexivity. Qed.

(** A selector that throws once the state is [42], in a bundle of its
    own; resolution has finished once the state is positive. *)
Definition getFragile : selector nat nat unit :=
  Selector (fun _ s => if Nat.eqb s 42 then [Raise] else []) (fun _ s => s).

Definition fragile : gmap string (selector nat nat unit) :=
  {[ "getThing" := getFragile ]}.

Definition stuck : world nat nat unit :=
  world_of
    (run nat nat unit fragile finished bodies 3
       [ResolveSelect "getThing" tt; Update (fun _ => 42); Notify]
       (initial 0)).



Lemma notify_pass_calls_snapshot_witness :
  ∃ entries,
    invoked (play 2 [Notify] subscribed_once)
    = invoked subscribed_once ++ entries
    ∧ (0, Callback 2) ∉ entries.
Proof.
  destruct (notify_pass_calls_snapshot nat nat unit bundle finished bodies
              1 subscribed_once) as (entries & Hlog & _ & _ & Hskip).
  exists entries. split.
  - unfold play, run, run_with, bind.
    destruct (exec nat nat unit bundle finished bodies 2 Notify
                subscribed_once); exact Hlog.
  - apply (Hskip (Callback 2)). vm_compute.
    intros Hin. apply list_elem_of_singleton in Hin. discriminate.
Defined.

(** C3 fails as stated: after the same listener has been subscribed
    twice, one call of the unsubscribe function leaves no registration,
    and the next pass calls nothing. *)
Lemma unsubscribe_one_of_two_removes_both :
  current subscribed_twice = [Callback 1; Callback 1]
  ∧ current (play 2 [Unsubscribe 1; Notify] subscribed_twice) = []
  ∧ invoked (play 2 [Unsubscribe 1; Notify] subscribed_twice) = [].
Proof. vm_compute. repeat split; reflexivity. Qed.

Lemma unsubscribe_removes_every_registration_witness :
  current (world_of (unsubscribe (Callback 1) subscribed_twice)) = []
  ∧ (Callback 1
     ∉ current (world_of (unsubscribe (Callback 1) subscribed_twice))).
Proof.
  destruct (unsubscribe_removes_every_registration nat nat unit
              (Callback 1) subscribed_twice) as (Hall & Hout & _).
  split; [exact Hall | exact Hout].
Defined.

(** *** Failing listeners and failing selectors, on concrete data *)

(** Callback [2] throws; the others do nothing. *)
Definition raising (id : nat) : list (action nat unit) :=
  match id with
  | 2 => [Raise]
  | _ => []
  end.

Definition three_subscribed : world nat nat unit :=
  world_of
    (run nat nat unit bundle finished raising 1
       [Subscribe 1; Subscribe 2; Subscribe 3] (initial 0)).

(** A bundle whose only selector throws. *)
Definition faulty : gmap string (selector nat nat unit) :=
  {[ "getBroken" := Selector (fun _ _ => [Raise]) (fun _ s => s) ]}.

(** The promise of [getThing] waits and the resolver has finished. *)
Definition awaited : world nat nat unit :=
  play 3 [ResolveSelect "getThing" tt; Update (fun _ => 42)] (initial 0).

Lemma subscribe_unsubscribe_round_trip_witness :
  current (play 1 [Subscribe 3; Unsubscribe 3] subscribed_once)
  = current subscribed_once.
Proof.
  assert (H : listeners nat nat unit subscribed_once
              < length (arrays nat nat unit subscribed_once))
    by (vm_compute; lia).
  destruct (subscribe_unsubscribe_round_trip nat nat unit bundle finished
              bodies 0 3 subscribed_once H) as (_ & _ & Hsame & _).
  apply Hsame. vm_compute.
  intros Hin. apply list_elem_of_singleton in Hin. discriminate.
Defined.

Lemma abrupt_listener_ends_pass_witness :
  ∃ called l rest entries,
    current three_subscribed = called ++ l :: rest
    ∧ calls_of 0 entries = called ++ [l]
    ∧ invoked
        (world_of
           (exec nat nat unit bundle finished raising 3 Notify
              three_subscribed))
      = entries.
Proof.
  destruct (abrupt_listener_ends_pass nat nat unit bundle finished raising
              2 three_subscribed
              (world_of
                 (exec nat nat unit bundle finished raising 3 Notify
                    three_subscribed))
              (Thrown (Error "raised by consumer code")))
    as (called & l & rest & entries & w1 & Hsplit & Hlog & Hcalls & _);
    [vm_compute; reflexivity |].
  by exists called, l, rest, entries.
Defined.

Lemma resolveSelect_resolves_or_waits_witness :
  ∃ pr,
    promises (play 3 [ResolveSelect "getThing" tt] (initial 0)) !! 0
    = Some pr
    ∧ selectorName nat nat unit pr = "getThing".
Proof.
  destruct (resolveSelect_resolves_or_waits nat nat unit bundle finished
              bodies 2 "getThing" tt getThing (fun _ _ s => Nat.ltb 0 s)
              (initial 0)
              (play 3 [ResolveSelect "getThing" tt] (initial 0)))
    as (pr & Hp & Hname & _).
  - by exists 0, [], 0.
  - vm_compute; reflexivity.
  - reflexivity.
  - vm_compute; reflexivity.
  - by exists pr.
Defined.

Lemma resolveSelect_rejects_instead_of_throwing_witness :
  promises
    (world_of
       (exec nat nat unit faulty finished bodies 3
          (ResolveSelect "getBroken" tt) (initial 0))) !! 0
  = Some (Promise "getBroken" tt (Rejected nat nat (Error "raised by consumer code"))).
Proof.
  destruct (resolveSelect_rejects_instead_of_throwing nat nat unit faulty
              finished bodies 2 "getBroken" tt
              (Selector (fun _ _ => [Raise]) (fun _ s => s)) (initial 0))
    as [Hthrown _].
  - by exists 0, [], 0.
  - vm_compute; reflexivity.
  - apply (Hthrown (Error "raised by consumer code")
             (World 0 [[]] 0 [Promise "getBroken" tt (Starting nat nat)] 0 [])).
    vm_compute; reflexivity.
Defined.

Lemma resolveSelect_wraps_no_resolution_selector_witness :
  exec nat nat unit bundle finished bodies 3
    (ResolveSelect "isResolving" tt) (initial 0)
  = Abrupt nat nat unit unit (Thrown (TypeError "not a function")) (initial 0).
Proof.
  apply (resolveSelect_wraps_no_resolution_selector nat nat unit bundle
           finished bodies 2 "isResolving" tt (initial 0)).
  - apply (bool_decide_unpack _). by vm_compute.
  - left. apply (bool_decide_unpack _). by vm_compute.
Defined.

Lemma waiter_resolves_waiting_promise_witness :
  Waiter 0
  ∉ current
      (world_of
         (call nat nat unit bundle finished bodies
            (run nat nat unit bundle finished bodies 2) (Waiter 0) awaited)).
Proof.
  destruct (waiter_resolves_waiting_promise nat nat unit bundle finished
              bodies 2 0 (Promise "getThing" tt Waiting) awaited
              (fun _ _ s => Nat.ltb 0 s) getThing)
    as [_ Hdone].
  - by exists 3, [ResolveSelect "getThing" tt; Update (fun _ => 42)], 0.
  - vm_compute; reflexivity.
  - reflexivity.
  - reflexivity.
  - vm_compute; reflexivity.
  - apply Hdone. vm_compute; reflexivity.
Defined.

End ListenerBus.

(** ** The navigation component: [isEmpty] *)

Module Navigation.
Import JS.

Local Open Scope nat_scope.

(** [Object.prototype[ name ].length]: the number of parameters of the
    inherited function, [0] where the read gives [undefined]
    (["__proto__"] is an object without a [length]). *)
Definition inherited_length (name : string) : nat :=
  if bool_decide (name ∈ ["__defineGetter__"; "__defineSetter__"]) then 2
  else if bool_decide
            (name ∈ ["toString"; "valueOf"; "toLocaleString"; "__proto__"])
       then 0
       else 1.

Section WithTree.

(** The navigation tree is built by [useCreateNavigationTree], outside
    this file.  [entry] are the truthy values the arrays of
    [parentMenuToMenu] hold and [ident] the values of their [menu]
    property, compared as [Array.prototype.includes] does; [menu_of e]
    is [e.menu], [isEmpty_of e] tells whether [e.isEmpty] is truthy and
    [key_of] turns a value into a property key. *)
Variable entry : Type.
Variable ident : Type.
Context `{EqDecision ident}.
Variable menu_of : entry -> ident.
Variable isEmpty_of : entry -> bool.
Variable key_of : ident -> string.

(** [menus] tells of each own property of [navigationTree.menus] whether
    its [isEmpty] is truthy; [parentMenuToMenu] holds arrays, whose
    falsy elements are [None]. *)
Record navigationTree : Type := NavigationTree {
  menus : gmap string bool;
  parentMenuToMenu : gmap string (list (option entry))
}.

(** The variable [queue] holds the array [parentMenuToMenu[ menuToCheck ]]
    of the tree itself, until it is assigned an array built by a
    spread. *)
Inductive queue : Type :=
| Shared
| Local (items : list (option entry)).

Definition items_of (tree : navigationTree) (menuToCheck : string)
    (q : queue) : list (option entry) :=
  match q with
  | Shared => default [] (parentMenuToMenu tree !! menuToCheck)
  | Local items => items
  end.

(** [queue.shift()] removes the first element of the array, in place. *)
Definition shift_tree (tree : navigationTree) (menuToCheck : string)
    (q : queue) : navigationTree :=
  match q with
  | Shared =>
      NavigationTree (menus tree)
        (alter (drop 1) menuToCheck (parentMenuToMenu tree))
  | Local _ => tree
  end.

Definition shift_queue (q : queue) : queue :=
  match q with
  | Shared => Shared
  | Local items => Local (drop 1 items)
  end.

Definition not_iterable : error :=
  TypeError "findByParentMenu(...) is not iterable".

(** The [while] loop of [isEmpty]; [fuel] bounds the number of
    iterations. *)
Fixpoint while (fuel : nat) (menuToCheck : string) (tree : navigationTree)
    (count : nat) (visited : list ident) (q : queue)
  : option (completion nat * navigationTree) :=
  match items_of tree menuToCheck q with
  | [] => Some (Return count, tree)
  | current :: _ =>
      match fuel with
      | O => None
      | S fuel' =>
          let tree := shift_tree tree menuToCheck q in
          let q := shift_queue q in
          match current with
          | Some e =>
              if bool_decide (menu_of e ∈ visited)
              then while fuel' menuToCheck tree count visited q
              else
                let count := if isEmpty_of e then count else S count in
                let visited := visited ++ [menu_of e] in
                match read (parentMenuToMenu tree) (key_of (menu_of e)) with
                | Own children =>
                    while fuel' menuToCheck tree count visited
                      (Local (items_of tree menuToCheck q ++ children))
                | Missing =>
                    while fuel' menuToCheck tree count visited
                      (Local (items_of tree menuToCheck q ++ []))
                | Inherited _ => Some (Throw not_iterable, tree)
                end
          | None => while fuel' menuToCheck tree count visited q
          end
      end
  end.

Definition isEmpty (fuel : nat) (tree : navigationTree)
    (menuToCheck : string) : option (completion bool * navigationTree) :=
  let count :=
    match read (menus tree) menuToCheck with
    | Own true => 0
    | _ => 1
    end in
  let finish (o : option (completion nat * navigationTree)) :=
    match o with
    | Some (Return count, tree) => Some (Return (count =? 0), tree)
    | Some (Throw e, tree) => Some (Throw e, tree)
    | None => None
    end in
  match read (parentMenuToMenu tree) menuToCheck with
  | Own _ => finish (while fuel menuToCheck tree count [] Shared)
  | Missing => finish (while fuel menuToCheck tree count [] (Local []))
  | Inherited name =>
      if inherited_length name =? 0
      then Some (Return (count =? 0), tree)
      else Some (Throw (TypeError "queue.shift is not a function"), tree)
  end.

(** What is left of the array of the menu once [isEmpty] is through:
    the falsy entries in front and the first truthy entry have been
    shifted off. *)
Fixpoint shifted (items : list (option entry)) : list (option entry) :=
  match items with
  | [] => []
  | None :: rest => shifted rest
  | Some _ :: rest => rest
  end.

(** The entries under a menu, at any depth. *)
Inductive reachable (tree : navigationTree) (menuToCheck : string)
  : entry -> Prop :=
| reach_child (e : entry) (items : list (option entry)) :
    parentMenuToMenu tree !! menuToCheck = Some items ->
    Some e ∈ items ->
    reachable tree menuToCheck e
| reach_below (e e' : entry) (items : list (option entry)) :
    reachable tree menuToCheck e ->
    parentMenuToMenu tree !! key_of (menu_of e) = Some items ->
    Some e' ∈ items ->
    reachable tree menuToCheck e'.

(** The entries the arrays of the tree hold. *)
Definition occurs (tree : navigationTree) (e : entry) : Prop :=
  ∃ k items, parentMenuToMenu tree !! k = Some items ∧ Some e ∈ items.

(** Entries of the tree that have the same menu agree on [isEmpty]. *)
Definition coherent (tree : navigationTree) : Prop :=
  ∀ e e', occurs tree e -> occurs tree e' ->
    menu_of e = menu_of e' -> isEmpty_of e = isEmpty_of e'.

(** [tree] has the arrays of [tree0], some of them shortened. *)
Definition subtree (tree tree0 : navigationTree) : Prop :=
  ∀ k items, parentMenuToMenu tree !! k = Some items ->
    ∃ items0, parentMenuToMenu tree0 !! k = Some items0 ∧ items ⊆ items0.

(** Bounds used to show that the loop ends: every array of the tree has
    at most [width] elements and the menus of its entries are in
    [universe]. *)
Definition covers (universe : list ident) (width : nat)
    (tree : navigationTree) : Prop :=
  ∀ k items, parentMenuToMenu tree !! k = Some items ->
    length items ≤ width ∧ ∀ e, Some e ∈ items -> menu_of e ∈ universe.

Definition unvisited (universe visited : list ident) : nat :=
  length (filter (fun id => id ∉ visited) universe).

(** *** Properties *)

Lemma items_of_shift (tree : navigationTree) (m : string) (q : queue)
    (current : option entry) (rest : list (option entry)) :
  items_of tree m q = current :: rest ->
  items_of (shift_tree tree m q) m (shift_queue q) = rest.
Proof.
  destruct q as [| items]; cbn.
  - rewrite lookup_alter_eq.
    destruct (parentMenuToMenu tree !! m) as [items |]; [| done].
    cbn. by intros ->.
  - by intros ->.
Qed.

Lemma shift_tree_lookup (tree : navigationTree) (m : string) (q : queue)
    (k : string) (items : list (option entry)) :
  parentMenuToMenu (shift_tree tree m q) !! k = Some items ->
  ∃ items0, parentMenuToMenu tree !! k = Some items0
            ∧ (items = items0 ∨ items = drop 1 items0).
Proof.
  destruct q as [| local]; cbn; [| by eauto].
  destruct (decide (m = k)) as [-> | Hne].
  - rewrite lookup_alter_eq.
    destruct (parentMenuToMenu tree !! k) as [items0 |]; [| done].
    cbn. intros [= <-]. eauto.
  - rewrite lookup_alter_ne by done. eauto.
Qed.

Lemma elem_of_drop_1 {A} (x : A) (l : list A) : x ∈ drop 1 l -> x ∈ l.
Proof. destruct l as [| y l]; [done |]. cbn. rewrite drop_0. by right. Qed.

Lemma covers_shift (universe : list ident) (width : nat)
    (tree : navigationTree) (m : string) (q : queue) :
  covers universe width tree -> covers universe width (shift_tree tree m q).
Proof.
  intros Hc k items Hk.
  destruct (shift_tree_lookup _ _ _ _ _ Hk) as (items0 & H0 & [-> | ->]);
    [by apply (Hc k) |].
  destruct (Hc k items0 H0) as [Hlen Hin]. split.
  - rewrite length_drop. lia.
  - intros e He. apply Hin. by apply elem_of_drop_1.
Qed.

Lemma unvisited_push (universe visited : list ident) (id : ident) :
  id ∈ universe -> id ∉ visited ->
  unvisited universe (visited ++ [id]) < unvisited universe visited.
Proof.
  intros Hin Hnew. unfold unvisited.
  assert (Heq : filter (fun x => x ∉ visited ++ [id]) universe
                = filter (fun x => x ≠ id)
                    (filter (fun x => x ∉ visited) universe)).
  { rewrite list_filter_filter. apply list_filter_iff.
    intros x. rewrite not_elem_of_app, not_elem_of_cons.
    split; [intros [? [? _]]; done | intros [? ?]; split_and!; try done].
    apply not_elem_of_nil. }
  rewrite Heq. apply (length_filter_lt _ _ id).
  - by apply list_elem_of_filter.
  - by intros H.
Qed.

(** With enough iterations the loop ends, whatever the tree. *)
Lemma while_returns (m : string) (universe : list ident) (width fuel : nat) :
  ∀ tree count visited q,
    covers universe width tree ->
    (∀ e, Some e ∈ items_of tree m q -> menu_of e ∈ universe) ->
    length (items_of tree m q) + unvisited universe visited * width ≤ fuel ->
    is_Some (while fuel m tree count visited q).
Proof.
  induction fuel as [| fuel IH]; intros tree count visited q Hc Hq Hfuel.
  - cbn. destruct (items_of tree m q); [by eexists | cbn in Hfuel; lia].
  - cbn [while].
    destruct (items_of tree m q) as [| current rest] eqn:Hitems;
      [by eexists |].
    pose proof (items_of_shift _ _ _ _ _ Hitems) as Hrest.
    pose proof (covers_shift _ _ _ m q Hc) as Hc'.
    cbn zeta. cbn in Hfuel.
    assert (Hq' : ∀ e, Some e ∈ rest -> menu_of e ∈ universe)
      by (intros e He; apply Hq; by right).
    destruct current as [e |].
    + case_bool_decide as Hvis.
      * apply IH; [done | by rewrite Hrest | rewrite Hrest; lia].
      * assert (Hin : menu_of e ∈ universe) by (apply Hq; by left).
        pose proof (unvisited_push universe visited _ Hin Hvis) as Hless.
        unfold read.
        destruct (parentMenuToMenu (shift_tree tree m q) !! key_of (menu_of e))
          as [children |] eqn:Hch.
        -- destruct (Hc' _ _ Hch) as [Hlen Hall].
           apply IH; [done | |].
           ++ cbn. rewrite Hrest. intros e' [He' | He']%elem_of_app; auto.
           ++ cbn. rewrite Hrest, length_app. nia.
        -- case_bool_decide; [by eexists |].
           apply IH; [done | |].
           ++ cbn. rewrite Hrest, app_nil_r. done.
           ++ cbn. rewrite Hrest, app_nil_r. nia.
    + apply IH; [done | by rewrite Hrest | rewrite Hrest; lia].
Qed.

Lemma covers_any (tree : navigationTree) :
  ∃ universe width, covers universe width tree.
Proof.
  set (arrays := (map_to_list (parentMenuToMenu tree)).*2).
  exists (mjoin ((fun items => menu_of <$> omap id items) <$> arrays)),
    (max_list (length <$> arrays)).
  intros k items Hk.
  assert (Hin : items ∈ arrays).
  { apply list_elem_of_fmap. exists (k, items). split; [done |].
    by apply elem_of_map_to_list. }
  split.
  - apply max_list_elem_of_le, list_elem_of_fmap. by exists items.
  - intros e He. apply list_elem_of_join.
    exists (menu_of <$> omap id items). split.
    + apply list_elem_of_fmap. exists e. split; [done |].
      apply list_elem_of_omap. by exists (Some e).
    + apply list_elem_of_fmap. by exists items.
Qed.

(** X25: [isEmpty] returns or throws after finitely many iterations, also on
    a tree with cycles: some number of iterations is enough, and so is
    every greater one. *)
Theorem isEmpty_returns (tree : navigationTree) (menuToCheck : string) :
  ∃ bound, ∀ fuel, bound ≤ fuel -> is_Some (isEmpty fuel tree menuToCheck).
Proof.
  destruct (covers_any tree) as (universe & width & Hc).
  exists (length (items_of tree menuToCheck Shared)
          + unvisited universe [] * width).
  intros fuel Hfuel. unfold isEmpty.
  set (count := match read (menus tree) menuToCheck with
                | Own true => 0
                | _ => 1
                end).
  unfold read at 1.
  destruct (parentMenuToMenu tree !! menuToCheck) as [items |] eqn:Hitems.
  - destruct (while_returns menuToCheck universe width fuel tree count []
                Shared Hc) as [[[c | e] tree'] ->]; [| done | done | done].
    cbn. rewrite Hitems. cbn. intros e He. by apply (Hc _ _ Hitems).
  - case_bool_decide.
    + by destruct (inherited_length menuToCheck =? 0).
    + by destruct fuel.
Qed.

Lemma while_local_tree (m : string) (fuel : nat) :
  ∀ tree count visited items r tree',
    while fuel m tree count visited (Local items) = Some (r, tree') ->
    tree' = tree.
Proof.
  induction fuel as [| fuel IH]; intros tree count visited items r tree'.
  - cbn. destruct items; [by intros [= _ <-] | done].
  - cbn [while items_of shift_tree shift_queue].
    destruct items as [| current rest]; [by intros [= _ <-] |].
    cbn [drop]. destruct current as [e |]; [| apply IH].
    case_bool_decide; [apply IH |].
    destruct (read _ _); [apply IH | by intros [= _ <-] | apply IH].
Qed.

(** While the variable [queue] holds the array of the tree, each
    iteration shifts that array. *)
Lemma while_shared_tree (m : string) (items : list (option entry)) :
  ∀ fuel tree count r tree',
    parentMenuToMenu tree !! m = Some items ->
    while fuel m tree count [] Shared = Some (r, tree') ->
    menus tree' = menus tree
    ∧ parentMenuToMenu tree' = <[ m := shifted items ]> (parentMenuToMenu tree).
Proof.
  induction items as [| current rest IH]; intros fuel tree count r tree' Hm.
  - destruct fuel; cbn; rewrite Hm; cbn; intros [= _ <-];
      by rewrite insert_id.
  - destruct fuel as [| fuel]; cbn [while items_of]; rewrite Hm;
      cbn [default from_option id]; [done |].
    cbn [shift_tree shift_queue].
    set (tree1 := NavigationTree (menus tree)
                    (alter (drop 1) m (parentMenuToMenu tree))).
    assert (Hm1 : parentMenuToMenu tree1 = <[ m := rest ]> (parentMenuToMenu tree)).
    { cbn. by rewrite (alter_alt_Some _ _ _ _ Hm). }
    destruct current as [e |].
    + rewrite bool_decide_eq_false_2 by apply not_elem_of_nil.
      cbn [shifted].
      destruct (read (parentMenuToMenu tree1) (key_of (menu_of e))).
      * intros ->%while_local_tree. done.
      * intros [= _ <-]. done.
      * intros ->%while_local_tree. done.
    + intros Hrun. cbn [shifted].
      destruct (IH fuel tree1 count r tree') as [Hmenus Hpm]; [| done |].
      * rewrite Hm1. by rewrite lookup_insert_eq.
      * split; [done |]. rewrite Hpm, Hm1. by rewrite insert_insert_eq.
Qed.

Lemma shifted_shorter (items : list (option entry)) :
  items ≠ [] -> length (shifted items) < length items.
Proof.
  induction items as [| [e |] rest IH]; [done | cbn; lia |].
  intros _. cbn. destruct rest as [| x rest']; [cbn; lia |].
  assert (length (shifted (x :: rest')) < length (x :: rest'))
    by (by apply IH).
  lia.
Qed.

Lemma isEmpty_tree_after (fuel : nat) (tree tree' : navigationTree)
    (menuToCheck : string) (r : completion bool) :
  isEmpty fuel tree menuToCheck = Some (r, tree') ->
  menus tree' = menus tree
  ∧ parentMenuToMenu tree'
    = alter shifted menuToCheck (parentMenuToMenu tree).
Proof.
  unfold isEmpty.
  set (count := match read (menus tree) menuToCheck with
                | Own true => 0
                | _ => 1
                end).
  unfold read at 1.
  destruct (parentMenuToMenu tree !! menuToCheck) as [items |] eqn:Hitems.
  - destruct (while fuel menuToCheck tree count [] Shared)
      as [[c tree1] |] eqn:Hrun; [| by destruct fuel].
    destruct (while_shared_tree _ _ _ _ _ _ _ Hitems Hrun) as [Hmenus Hpm].
    intros Heq.
    assert (tree1 = tree') as -> by (destruct c; by injection Heq).
    split; [done |].
    rewrite Hpm. by rewrite (alter_alt_Some _ _ _ _ Hitems).
  - assert (Hsame : parentMenuToMenu tree
                    = alter shifted menuToCheck (parentMenuToMenu tree)).
    { apply map_eq. intros k. destruct (decide (menuToCheck = k)) as [<- |].
      - by rewrite lookup_alter_eq, Hitems.
      - by rewrite lookup_alter_ne. }
    case_bool_decide.
    + destruct (inherited_length menuToCheck =? 0); intros [= _ <-]; done.
    + destruct fuel; cbn; intros [= _ <-]; done.
Qed.

(** X26: [isEmpty] changes the tree it reads: [queue.shift()] acts on the
    array [parentMenuToMenu[ menuToCheck ]] itself, which loses its
    falsy entries in front and its first truthy entry; nothing else
    changes.  A menu with child entries has fewer of them after each
    call. *)
Theorem isEmpty_shifts_children (fuel : nat) (tree tree' : navigationTree)
    (menuToCheck : string) (r : completion bool) :
  isEmpty fuel tree menuToCheck = Some (r, tree') ->
  menus tree' = menus tree
  ∧ parentMenuToMenu tree'
    = alter shifted menuToCheck (parentMenuToMenu tree)
  ∧ ∀ items, parentMenuToMenu tree !! menuToCheck = Some items ->
      parentMenuToMenu tree' !! menuToCheck = Some (shifted items)
      ∧ (items ≠ [] -> length (shifted items) < length items).
Proof.
  intros Hrun.
  destruct (isEmpty_tree_after _ _ _ _ _ Hrun) as [Hmenus Hpm].
  split; [exact Hmenus |]. split; [exact Hpm |].
  intros items Hitems. split.
  - rewrite Hpm, lookup_alter_eq, Hitems. done.
  - apply shifted_shorter.
Qed.

Lemma while_count (m : string) (fuel : nat) :
  ∀ tree count visited q count' tree',
    while fuel m tree count visited q = Some (Return count', tree') ->
    count ≤ count'.
Proof.
  induction fuel as [| fuel IH]; intros tree count visited q count' tree'.
  - cbn. destruct (items_of tree m q); [by intros [= <- _] | done].
  - cbn [while].
    destruct (items_of tree m q) as [| current rest];
      [by intros [= <- _] |].
    cbn zeta. destruct current as [e |]; [| apply IH].
    case_bool_decide; [apply IH |].
    destruct (read _ _); [| done |]; intros Hrun%IH;
      destruct (isEmpty_of e); lia.
Qed.

Lemma subtree_refl (tree : navigationTree) : subtree tree tree.
Proof. intros k items Hk. by exists items. Qed.

Lemma subtree_shift (tree tree0 : navigationTree) (m : string) (q : queue) :
  subtree tree tree0 -> subtree (shift_tree tree m q) tree0.
Proof.
  intros Hsub k items Hk.
  destruct (shift_tree_lookup _ _ _ _ _ Hk) as (items1 & H1 & Hor).
  destruct (Hsub k items1 H1) as (items0 & H0 & Hincl).
  exists items0. split; [done |]. intros x Hx. apply Hincl.
  destruct Hor as [-> | ->]; [done | by apply elem_of_drop_1].
Qed.

(** When every entry under the menu is empty, the loop counts nothing. *)
Lemma while_all_empty (tree0 : navigationTree) (m : string) (fuel : nat) :
  (∀ e, reachable tree0 m e -> isEmpty_of e = true) ->
  ∀ tree count visited q count' tree',
    subtree tree tree0 ->
    (∀ e, Some e ∈ items_of tree m q -> reachable tree0 m e) ->
    while fuel m tree count visited q = Some (Return count', tree') ->
    count' = count.
Proof.
  intros Hempty.
  induction fuel as [| fuel IH]; intros tree count visited q count' tree'
    Hsub Hq.
  - cbn. destruct (items_of tree m q); [by intros [= <- _] | done].
  - cbn [while].
    destruct (items_of tree m q) as [| current rest] eqn:Hitems;
      [by intros [= <- _] |].
    pose proof (items_of_shift _ _ _ _ _ Hitems) as Hrest.
    pose proof (subtree_shift _ _ m q Hsub) as Hsub'.
    cbn zeta.
    assert (Hq' : ∀ e, Some e ∈ rest -> reachable tree0 m e)
      by (intros e He; apply Hq; by right).
    destruct current as [e |].
    + assert (He : reachable tree0 m e) by (apply Hq; by left).
      case_bool_decide.
      * apply IH; [done | by rewrite Hrest].
      * rewrite (Hempty e He). unfold read.
        destruct (parentMenuToMenu (shift_tree tree m q) !! key_of (menu_of e))
          as [children |] eqn:Hch.
        -- apply IH; [done |]. cbn. rewrite Hrest.
           intros e' [He' | He']%elem_of_app; [by apply Hq' |].
           destruct (Hsub' _ _ Hch) as (items0 & H0 & Hincl).
           eapply reach_below; [exact He | exact H0 | by apply Hincl].
        -- case_bool_decide; [done |].
           apply IH; [done |]. cbn. by rewrite Hrest, app_nil_r.
    + apply IH; [done | by rewrite Hrest].
Qed.

(** When the loop counts nothing, the menus it has visited in the end
    cover the queue and the children of every menu visited, and their
    entries are empty. *)
Lemma while_visits (tree0 : navigationTree) (m : string) (fuel : nat) :
  coherent tree0 ->
  ∀ tree count visited q tree',
    subtree tree tree0 ->
    (∀ e, Some e ∈ items_of tree m q -> occurs tree0 e) ->
    (∀ id e, id ∈ visited -> occurs tree0 e -> menu_of e = id ->
             isEmpty_of e = true) ->
    while fuel m tree count visited q = Some (Return count, tree') ->
    ∃ visited',
      visited ⊆ visited'
      ∧ (∀ e, Some e ∈ items_of tree m q -> menu_of e ∈ visited')
      ∧ (∀ id e, id ∈ visited' -> occurs tree0 e -> menu_of e = id ->
                 isEmpty_of e = true)
      ∧ (∀ id items e',
           id ∈ visited' -> id ∉ visited ->
           parentMenuToMenu tree' !! key_of id = Some items ->
           Some e' ∈ items -> menu_of e' ∈ visited').
Proof.
  intros Hcoherent.
  induction fuel as [| fuel IH]; intros tree count visited q tree'
    Hsub Hoccur Hvisited.
  - cbn. destruct (items_of tree m q) eqn:Hitems; [| done]. intros _.
    exists visited. split_and!; [done | | done | done].
    intros e He. by apply elem_of_nil in He.
  - cbn [while].
    destruct (items_of tree m q) as [| current rest] eqn:Hitems.
    { intros _. exists visited. split_and!; [done | | done | done].
      intros e He. by apply elem_of_nil in He. }
    pose proof (items_of_shift _ _ _ _ _ Hitems) as Hrest.
    pose proof (subtree_shift _ _ m q Hsub) as Hsub'.
    assert (Hoccur' : ∀ e, Some e ∈ rest -> occurs tree0 e)
      by (intros e He; apply Hoccur; by right).
    cbn zeta.
    destruct current as [e |].
    + case_bool_decide as Hvis.
      * intros Hrun.
        destruct (IH _ _ _ _ _ Hsub' ltac:(by rewrite Hrest) Hvisited Hrun)
          as (visited' & Hincl & Hq & He & Hch).
        exists visited'. split_and!; [done | | done | done].
        rewrite Hrest in Hq.
        intros e' [[= ->] | He']%elem_of_cons; [by apply Hincl | by apply Hq].
      * set (count1 := if isEmpty_of e then count else S count).
        set (tree1 := shift_tree tree m q) in *.
        assert (Hstep : ∀ items,
          while fuel m tree1 count1 (visited ++ [menu_of e])
            (Local (rest ++ items))
          = Some (Return count, tree') ->
          (∀ e', Some e' ∈ items -> occurs tree0 e') ->
          (∀ children, parentMenuToMenu tree1 !! key_of (menu_of e)
                       = Some children -> children = items) ->
          ∃ visited',
            visited ⊆ visited'
            ∧ (∀ e', Some e' ∈ Some e :: rest -> menu_of e' ∈ visited')
            ∧ (∀ id e', id ∈ visited' -> occurs tree0 e' -> menu_of e' = id ->
                        isEmpty_of e' = true)
            ∧ (∀ id items' e',
                 id ∈ visited' -> id ∉ visited ->
                 parentMenuToMenu tree' !! key_of id = Some items' ->
                 Some e' ∈ items' -> menu_of e' ∈ visited')).
        { intros items Hrun Hitems' Hchildren.
          pose proof (while_count _ _ _ _ _ _ _ _ Hrun) as Hle.
          assert (Hempty : isEmpty_of e = true)
            by (subst count1; destruct (isEmpty_of e); [done | lia]).
          assert (count1 = count) as Hsame
            by (subst count1; by rewrite Hempty).
          rewrite Hsame in Hrun.
          pose proof (while_local_tree _ _ _ _ _ _ _ _ Hrun) as ->.
          destruct (IH tree1 count (visited ++ [menu_of e])
                      (Local (rest ++ items)) tree1)
            as (visited' & Hincl & Hq & He & Hch); [done | | | done |].
          { cbn. intros e' [He' | He']%elem_of_app; auto. }
          { intros id e' [Hid | ->%list_elem_of_singleton]%elem_of_app Ho Hm.
            - by eapply Hvisited.
            - rewrite <- Hempty. apply Hcoherent; [done | | done].
              apply Hoccur. by left. }
          exists visited'. split_and!.
          - intros id Hid. apply Hincl, elem_of_app. by left.
          - intros e' [[= ->] | He']%elem_of_cons.
            + apply Hincl, elem_of_app. right.
              by apply list_elem_of_singleton.
            + apply Hq. cbn. apply elem_of_app. by left.
          - done.
          - intros id items' e' Hid Hnew Hlook He'.
            destruct (decide (id = menu_of e)) as [-> | Hne].
            + apply Hchildren in Hlook as ->.
              apply Hq. cbn. apply elem_of_app. by right.
            + eapply Hch; [done | | done | done].
              intros [? | ?%list_elem_of_singleton]%elem_of_app; done. }
        unfold read.
        destruct (parentMenuToMenu tree1 !! key_of (menu_of e))
          as [children |] eqn:Hchildren.
        -- cbn [items_of]. fold tree1 in Hrest. rewrite Hrest.
           intros Hrun. apply (Hstep children Hrun); [| by intros ? [= <-]].
           intros e' He'. destruct (Hsub' _ _ Hchildren) as (items0 & H0 & Hin).
           exists (key_of (menu_of e)), items0. split; [done | by apply Hin].
        -- case_bool_decide; [done |].
           cbn [items_of]. fold tree1 in Hrest. rewrite Hrest.
           intros Hrun. apply (Hstep [] Hrun); [| by intros ? [=]].
           intros e' He'. by apply elem_of_nil in He'.
    + intros Hrun.
      destruct (IH _ _ _ _ _ Hsub' ltac:(by rewrite Hrest) Hvisited Hrun)
        as (visited' & Hincl & Hq & He & Hch).
      exists visited'. split_and!; [done | | done | done].
      rewrite Hrest in Hq.
      intros e' [[=] | He']%elem_of_cons. by apply Hq.
Qed.

Lemma reachable_occurs (tree : navigationTree) (m : string) (e : entry) :
  reachable tree m e -> occurs tree e.
Proof. intros [e0 items H1 He | e0 e1 items _ H1 He]; by eexists _, _. Qed.

Lemma no_children_no_entries (tree : navigationTree) (m : string) (e : entry) :
  parentMenuToMenu tree !! m = None -> ¬ reachable tree m e.
Proof. intros Hnone Hreach. induction Hreach; [congruence | done]. Qed.

(** X27: What [isEmpty] answers when it returns: [true] when the menu is
    flagged empty and so is every entry under it, at any depth; and,
    entries of the same menu agreeing on their flag, in no other
    case. *)
Theorem isEmpty_characterized (fuel : nat) (tree tree' : navigationTree)
    (menuToCheck : string) (b : bool) :
  isEmpty fuel tree menuToCheck = Some (Return b, tree') ->
  (menus tree !! menuToCheck = Some true ->
   (∀ e, reachable tree menuToCheck e -> isEmpty_of e = true) ->
   b = true)
  ∧ (coherent tree -> b = true ->
     menus tree !! menuToCheck = Some true
     ∧ ∀ e, reachable tree menuToCheck e -> isEmpty_of e = true).
Proof.
  intros Hrun.
  pose proof (isEmpty_tree_after fuel tree tree' menuToCheck
                (Return b) Hrun) as [_ Hpm].
  revert Hrun. unfold isEmpty.
  set (count := match read (menus tree) menuToCheck with
                | Own true => 0
                | _ => 1
                end).
  assert (Hflag : count = 0 <-> menus tree !! menuToCheck = Some true).
  { subst count. unfold read.
    destruct (menus tree !! menuToCheck) as [[|] |];
      [done | done | by case_bool_decide]. }
  unfold read at 1.
  destruct (parentMenuToMenu tree !! menuToCheck) as [items |] eqn:Hitems.
  - destruct (while fuel menuToCheck tree count [] Shared)
      as [[[c | err] tree1] |] eqn:Hwhile; [| done | done].
    intros [= <- <-]. split.
    + intros Hmenu Hall. apply Hflag in Hmenu.
      assert (c = count) as ->; [| by rewrite Hmenu].
      apply (while_all_empty tree menuToCheck fuel Hall tree count [] Shared
               c tree1); [apply subtree_refl | | done].
      cbn. rewrite Hitems. cbn. intros e He. by eapply reach_child.
    + intros Hcoherent Hzero. apply Nat.eqb_eq in Hzero. subst c.
      pose proof (while_count _ _ _ _ _ _ _ _ Hwhile) as Hle.
      assert (Hcount : count = 0) by lia.
      split; [by apply Hflag |].
      rewrite Hcount in Hwhile.
      destruct (while_visits tree menuToCheck fuel Hcoherent tree 0 []
                  Shared tree1)
        as (visited' & _ & Hq & Hempty & Hch);
        [apply subtree_refl | | | done |].
      { cbn. rewrite Hitems. cbn. intros e He.
        by exists menuToCheck, items. }
      { intros id e Hid. by apply elem_of_nil in Hid. }
      cbn in Hq. rewrite Hitems in Hq. cbn in Hq.
      assert (Hin : ∀ e, reachable tree menuToCheck e -> menu_of e ∈ visited').
      { intros e Hreach.
        induction Hreach as [e items1 H1 He | e e' items1 Hreach IH H1 He'].
        - rewrite Hitems in H1. injection H1 as <-. by apply Hq.
        - destruct (decide (menuToCheck = key_of (menu_of e))) as [Heq | Hne].
          + rewrite <- Heq, Hitems in H1. injection H1 as <-. by apply Hq.
          + eapply (Hch (menu_of e)); [exact IH | apply not_elem_of_nil | | done].
            rewrite Hpm. by rewrite lookup_alter_ne. }
      intros e Hreach.
      eapply Hempty; [by apply Hin | by eapply reachable_occurs | done].
  - assert (Hnone : ∀ e, ¬ reachable tree menuToCheck e)
      by (intros e; by apply no_children_no_entries).
    assert (Hb : ∀ tree2, Some (Return (count =? 0), tree)
                          = Some (Return b, tree2) ->
      (menus tree !! menuToCheck = Some true ->
       (∀ e, reachable tree menuToCheck e -> isEmpty_of e = true) ->
       b = true)
      ∧ (coherent tree -> b = true ->
         menus tree !! menuToCheck = Some true
         ∧ ∀ e, reachable tree menuToCheck e -> isEmpty_of e = true)).
    { intros tree2 [= <- _]. split.
      - intros Hmenu%Hflag _. by rewrite Hmenu.
      - intros _ Hzero%Nat.eqb_eq. split; [by apply Hflag |].
        intros e He. by destruct (Hnone e). }
    case_bool_decide.
    + destruct (inherited_length menuToCheck =? 0); [apply Hb | done].
    + destruct fuel; cbn; apply Hb.
Qed.

End WithTree.

Arguments NavigationTree {entry} menus parentMenuToMenu.
Arguments menus {entry} n.
Arguments parentMenuToMenu {entry} n.

(** *** A tree with a cycle, and a menu with one child that is not empty *)

Record menu_entry : Type := MenuEntry {
  menu : string;
  empty : bool
}.

Definition check (fuel : nat) (tree : navigationTree menu_entry)
    (menuToCheck : string)
  : option (completion bool * navigationTree menu_entry) :=
  isEmpty menu_entry string menu empty (fun id => id) fuel tree menuToCheck.

(** [root] has the children [posts] and [drafts], and [posts] has [root]
    among its children. *)
Definition cyclic : navigationTree menu_entry :=
  NavigationTree
    {[ "root" := true; "posts" := true; "drafts" := true ]}
    {[ "root" := [ None; Some (MenuEntry "posts" true);
                   Some (MenuEntry "drafts" true) ];
       "posts" := [ Some (MenuEntry "root" true);
                    Some (MenuEntry "drafts" true) ] ]}.

Definition one_child : navigationTree menu_entry :=
  NavigationTree {[ "root" := true ]}
    {[ "root" := [ Some (MenuEntry "posts" false) ] ]}.

(** [cyclic] once [isEmpty( 'root' )] has run. *)
Definition cyclic_after : navigationTree menu_entry :=
  NavigationTree
    {[ "root" := true; "posts" := true; "drafts" := true ]}
    {[ "root" := [ Some (MenuEntry "drafts" true) ];
       "posts" := [ Some (MenuEntry "root" true);
                    Some (MenuEntry "drafts" true) ] ]}.

Example cyclic_is_empty :
  check 6 cyclic "root" = Some (Return true, cyclic_after).
Proof. by vm_compute. Qed.

(** The second call finds the child gone. *)
Example second_call_differs :
  ∃ tree',
    check 2 one_child "root" = Some (Return false, tree')
    ∧ check 2 tree' "root" = Some (Return true, tree').
Proof. eexists. split; by vm_compute. Qed.

Example inherited_name_throws :
  check 2 one_child "constructor"
  = Some (Throw (TypeError "queue.shift is not a function"), one_child).
Proof. by vm_compute. Qed.

Lemma cyclic_entries (e : menu_entry) :
  occurs menu_entry cyclic e -> empty e = true.
Proof.
  intros (k & items & Hk & He). cbn in Hk.
  apply lookup_insert_Some in Hk as [[_ <-] | [_ Hk]];
    [| apply lookup_singleton_Some in Hk as [_ <-]];
    repeat (apply elem_of_cons in He as [He | He];
            [by (discriminate || injection He as ->) |]);
    by apply elem_of_nil in He.
Qed.

Lemma isEmpty_shifts_children_witness :
  parentMenuToMenu cyclic_after
  = alter (shifted menu_entry) "root" (parentMenuToMenu cyclic).
Proof.
  assert (H : check 6 cyclic "root" = Some (Return true, cyclic_after))
    by (by vm_compute).
  exact (proj1 (proj2 (isEmpty_shifts_children menu_entry string menu empty
                         (fun id => id) 6 cyclic cyclic_after "root"
                         (Return true) H))).
Defined.

Lemma isEmpty_characterized_witness :
  menus cyclic !! "root" = Some true
  ∧ ∀ e, reachable menu_entry string menu (fun id => id) cyclic "root" e ->
         empty e = true.
Proof.
  eapply (isEmpty_characterized menu_entry string menu empty (fun id => id)
            6 cyclic cyclic_after "root" true).
  - by vm_compute.
  - intros e e' He He' _. by rewrite !cyclic_entries.
  - reflexivity.
Defined.

End Navigation.
